(** * Heavy-light decomposition over a sum segment tree

    A shallow embedding of [heavy_light_decomposition.cc] and the
    verification of its path queries, lowest common ancestors, point
    updates and layout invariants.

    Modelling conventions.
    - A C++ [int] that carries user data (node values and their sums) is a
      [Z] with the 32-bit two's-complement wrap-around written out
      ([Int.wrap]).  Node indices, depths, sizes, positions and segment
      tree node numbers are bounded by [4 * N], which the constructor of
      the segment tree already needs to be an [int]; they are plain [Z].
    - A [vector<int>] is a [list Z] read with [vget] and written with
      [vset]; an index outside the vector reads 0 and writes nothing.
    - Recursion and loops that the C++ code does not bound are structural
      on a fuel argument and return [None] when it runs out; the public
      operations choose the fuel from the number of nodes, and the
      theorems show that they return [Some] on every valid tree. *)

From Stdlib Require Import ZArith Lia.
From stdpp Require Import base tactics option numbers list.

Local Set Warnings "-register-all".

Open Scope Z_scope.

(** ** Machine integers *)

Module Int.
Definition min_int : Z := -2147483648.
Definition max_int : Z := 2147483647.

Definition in_range (z : Z) : Prop := min_int <= z <= max_int.

(** Two's-complement reduction of an integer to 32 bits. *)
Definition wrap (z : Z) : Z := (z + 2147483648) mod 4294967296 - 2147483648.
End Int.

(** ** Vectors *)

(** [v[i]] and [v[i] = x] on a [vector<int>]. *)
Definition vget (l : list Z) (i : Z) : Z :=
  if decide (0 <= i) then default 0 (l !! Z.to_nat i) else 0.

Definition vset (l : list Z) (i x : Z) : list Z :=
  if decide (0 <= i) then <[Z.to_nat i := x]> l else l.

(** [adj[i]] and [adj[i].push_back(x)] on the adjacency lists. *)
Definition aget (a : list (list Z)) (i : Z) : list Z :=
  if decide (0 <= i) then default [] (a !! Z.to_nat i) else [].

Definition push_back (a : list (list Z)) (i x : Z) : list (list Z) :=
  if decide (0 <= i) then <[Z.to_nat i := aget a i ++ [x]]> a else a.

Definition zlen {A} (l : list A) : Z := Z.of_nat (length l).

Definition sumZ (l : list Z) : Z := foldr Z.add 0 l.

(** ** The segment tree *)

Module SegmentTree.

Record t := mk { n : Z; tree : list Z }.

Definition new (size : Z) : t :=
  mk size (replicate (Z.to_nat (4 * size)) 0).

Definition combine (a b : Z) : Z := Int.wrap (a + b).

(** The private recursive overloads of [build], [update] and [query];
    they thread the vector [tree] that the C++ code updates in place. *)
Fixpoint build_rec (fuel : nat) (arr : list Z) (node start end_ : Z)
    (tr : list Z) : option (list Z) :=
  match fuel with
  | O => None
  | S f =>
    if start =? end_ then Some (vset tr node (vget arr start))
    else
      let mid := Z.quot (start + end_) 2 in
      tr1 ← build_rec f arr (2 * node + 1) start mid tr;
      tr2 ← build_rec f arr (2 * node + 2) (mid + 1) end_ tr1;
      Some (vset tr2 node
              (combine (vget tr2 (2 * node + 1)) (vget tr2 (2 * node + 2))))
  end.

Fixpoint update_rec (fuel : nat) (node start end_ idx val : Z)
    (tr : list Z) : option (list Z) :=
  match fuel with
  | O => None
  | S f =>
    if start =? end_ then Some (vset tr node val)
    else
      let mid := Z.quot (start + end_) 2 in
      tr1 ← (if (start <=? idx) && (idx <=? mid)
             then update_rec f (2 * node + 1) start mid idx val tr
             else update_rec f (2 * node + 2) (mid + 1) end_ idx val tr);
      Some (vset tr1 node
              (combine (vget tr1 (2 * node + 1)) (vget tr1 (2 * node + 2))))
  end.

Fixpoint query_rec (fuel : nat) (tr : list Z) (node start end_ l r : Z)
    : option Z :=
  match fuel with
  | O => None
  | S f =>
    if (r <? start) || (end_ <? l) then Some 0
    else if (l <=? start) && (end_ <=? r) then Some (vget tr node)
    else
      let mid := Z.quot (start + end_) 2 in
      p1 ← query_rec f tr (2 * node + 1) start mid l r;
      p2 ← query_rec f tr (2 * node + 2) (mid + 1) end_ l r;
      Some (combine p1 p2)
  end.

(** The recursion on a segment of [n] positions is at most [n] deep. *)
Definition fuel_of (st : t) : nat := S (Z.to_nat (n st)).

Definition build_from_mapped_values (st : t) (values_at_pos : list Z)
    : option t :=
  match values_at_pos with
  | [] => Some st
  | _ =>
    tr ← build_rec (fuel_of st) values_at_pos 0 0 (n st - 1) (tree st);
    Some (mk (n st) tr)
  end.

Definition update (st : t) (index value : Z) : option t :=
  tr ← update_rec (fuel_of st) 0 0 (n st - 1) index value (tree st);
  Some (mk (n st) tr).

Definition query (st : t) (query_left query_right : Z) : option Z :=
  if query_left >? query_right then Some 0
  else query_rec (fuel_of st) (tree st) 0 0 (n st - 1) query_left query_right.

End SegmentTree.

(** ** The decomposition *)

Module HLD.

Record t := mk {
  N : Z;
  adj : list (list Z);
  values : list Z;
  parent : list Z;
  depth : list Z;
  subtree_size : list Z;
  heavy_child : list Z;
  head : list Z;
  pos : list Z;
  cur_pos : Z;
  seg_tree : SegmentTree.t
}.

Definition with_adj (s : t) (x : list (list Z)) : t :=
  mk (N s) x (values s) (parent s) (depth s) (subtree_size s)
     (heavy_child s) (head s) (pos s) (cur_pos s) (seg_tree s).
Definition with_values (s : t) (x : list Z) : t :=
  mk (N s) (adj s) x (parent s) (depth s) (subtree_size s)
     (heavy_child s) (head s) (pos s) (cur_pos s) (seg_tree s).
Definition with_parent (s : t) (x : list Z) : t :=
  mk (N s) (adj s) (values s) x (depth s) (subtree_size s)
     (heavy_child s) (head s) (pos s) (cur_pos s) (seg_tree s).
Definition with_depth (s : t) (x : list Z) : t :=
  mk (N s) (adj s) (values s) (parent s) x (subtree_size s)
     (heavy_child s) (head s) (pos s) (cur_pos s) (seg_tree s).
Definition with_subtree_size (s : t) (x : list Z) : t :=
  mk (N s) (adj s) (values s) (parent s) (depth s) x
     (heavy_child s) (head s) (pos s) (cur_pos s) (seg_tree s).
Definition with_heavy_child (s : t) (x : list Z) : t :=
  mk (N s) (adj s) (values s) (parent s) (depth s) (subtree_size s)
     x (head s) (pos s) (cur_pos s) (seg_tree s).
Definition with_head (s : t) (x : list Z) : t :=
  mk (N s) (adj s) (values s) (parent s) (depth s) (subtree_size s)
     (heavy_child s) x (pos s) (cur_pos s) (seg_tree s).
Definition with_pos (s : t) (x : list Z) : t :=
  mk (N s) (adj s) (values s) (parent s) (depth s) (subtree_size s)
     (heavy_child s) (head s) x (cur_pos s) (seg_tree s).
Definition with_cur_pos (s : t) (x : Z) : t :=
  mk (N s) (adj s) (values s) (parent s) (depth s) (subtree_size s)
     (heavy_child s) (head s) (pos s) x (seg_tree s).
Definition with_seg_tree (s : t) (x : SegmentTree.t) : t :=
  mk (N s) (adj s) (values s) (parent s) (depth s) (subtree_size s)
     (heavy_child s) (head s) (pos s) (cur_pos s) x.

(** The constructor. *)
Definition new (num_nodes : Z) (node_initial_values : list Z) : t :=
  let k := Z.to_nat num_nodes in
  mk num_nodes (replicate k []) node_initial_values
     (replicate k (-1)) (replicate k 0) (replicate k 1) (replicate k (-1))
     (replicate k 0) (replicate k 0) 0 (SegmentTree.new num_nodes).

Definition add_edge (s : t) (u v : Z) : t :=
  with_adj s (push_back (push_back (adj s) u v) v u).

(** The body of the [for (int v : adj[u])] loop of the first pass;
    [rec] is the recursive call and [mx] the local
    [max_c_subtree_size]. *)
Fixpoint dfs1_loop (rec : Z → Z → Z → t → option t) (u p d : Z)
    (vs : list Z) (mx : Z) (s : t) : option t :=
  match vs with
  | [] => Some s
  | v :: vs' =>
    if v =? p then dfs1_loop rec u p d vs' mx s
    else
      s1 ← rec v u (d + 1) s;
      let s2 := with_subtree_size s1
                  (vset (subtree_size s1) u
                     (vget (subtree_size s1) u + vget (subtree_size s1) v)) in
      if vget (subtree_size s2) v >? mx
      then dfs1_loop rec u p d vs' (vget (subtree_size s2) v)
             (with_heavy_child s2 (vset (heavy_child s2) u v))
      else dfs1_loop rec u p d vs' mx s2
  end.

Fixpoint dfs1_size_depth_parent (fuel : nat) (u p d : Z) (s : t)
    : option t :=
  match fuel with
  | O => None
  | S f =>
    let s := with_parent s (vset (parent s) u p) in
    let s := with_depth s (vset (depth s) u d) in
    let s := with_subtree_size s (vset (subtree_size s) u 1) in
    dfs1_loop (dfs1_size_depth_parent f) u p d (aget (adj s) u) 0 s
  end.

(** The body of the loop of the second pass over [adj[u]]. *)
Fixpoint dfs2_loop (rec : Z → Z → t → option t) (u : Z) (vs : list Z)
    (s : t) : option t :=
  match vs with
  | [] => Some s
  | v :: vs' =>
    if (v =? vget (parent s) u) || (v =? vget (heavy_child s) u)
    then dfs2_loop rec u vs' s
    else s1 ← rec v v s; dfs2_loop rec u vs' s1
  end.

Fixpoint dfs2_hld (fuel : nat) (u h : Z) (s : t) : option t :=
  match fuel with
  | O => None
  | S f =>
    let s := with_head s (vset (head s) u h) in
    let s := with_cur_pos (with_pos s (vset (pos s) u (cur_pos s)))
               (cur_pos s + 1) in
    s1 ← (if vget (heavy_child s) u =? -1 then Some s
          else dfs2_hld f (vget (heavy_child s) u) h s);
    dfs2_loop (dfs2_hld f) u (aget (adj s1) u) s1
  end.

(** [values_for_seg_tree[pos[i]] = values[i]] for [i] from 0 to [N - 1]. *)
Definition values_for_seg_tree (s : t) : list Z :=
  foldl (λ acc i, vset acc (vget (pos s) i) (vget (values s) i))
        (replicate (Z.to_nat (N s)) 0) (seqZ 0 (N s)).

(** A tree of [N] nodes has no root-to-leaf path longer than [N]. *)
Definition build (s : t) (root : Z) : option t :=
  s1 ← dfs1_size_depth_parent (Z.to_nat (N s)) root (-1) 0 s;
  s2 ← dfs2_hld (Z.to_nat (N s)) root root s1;
  st ← SegmentTree.build_from_mapped_values (seg_tree s2)
         (values_for_seg_tree s2);
  Some (with_seg_tree s2 st).

Definition update_node_value (s : t) (u new_value : Z) : option t :=
  let s1 := with_values s (vset (values s) u new_value) in
  st ← SegmentTree.update (seg_tree s1) (vget (pos s1) u) new_value;
  Some (with_seg_tree s1 st).

(** The [while] loop of [query_path] followed by the final range query;
    [result] is the running sum. *)
Fixpoint query_path_loop (fuel : nat) (s : t) (u v result : Z)
    : option Z :=
  match fuel with
  | O => None
  | S f =>
    if negb (vget (head s) u =? vget (head s) v) then
      let '(u, v) :=
        if vget (depth s) (vget (head s) u) <? vget (depth s) (vget (head s) v)
        then (v, u) else (u, v) in
      q ← SegmentTree.query (seg_tree s)
            (vget (pos s) (vget (head s) u)) (vget (pos s) u);
      query_path_loop f s (vget (parent s) (vget (head s) u)) v
        (Int.wrap (result + q))
    else
      let '(u, v) :=
        if vget (depth s) u >? vget (depth s) v then (v, u) else (u, v) in
      q ← SegmentTree.query (seg_tree s) (vget (pos s) u) (vget (pos s) v);
      Some (Int.wrap (result + q))
  end.

(** Every turn of the loop moves one of the two nodes strictly up. *)
Definition loop_fuel (s : t) : nat := S (Z.to_nat (2 * N s)).

Definition query_path (s : t) (u v : Z) : option Z :=
  query_path_loop (loop_fuel s) s u v 0.

Fixpoint get_lca_loop (fuel : nat) (s : t) (u v : Z) : option Z :=
  match fuel with
  | O => None
  | S f =>
    if negb (vget (head s) u =? vget (head s) v) then
      let '(u, v) :=
        if vget (depth s) (vget (head s) u) <? vget (depth s) (vget (head s) v)
        then (v, u) else (u, v) in
      get_lca_loop f s (vget (parent s) (vget (head s) u)) v
    else
      Some (if vget (depth s) u <? vget (depth s) v then u else v)
  end.

Definition get_lca (s : t) (u v : Z) : option Z :=
  get_lca_loop (loop_fuel s) s u v.

End HLD.

(** The [add_edge] calls of a caller, in order. *)
Definition add_edges (s : HLD.t) (es : list (Z * Z)) : HLD.t :=
  foldl (λ s e, HLD.add_edge s e.1 e.2) s es.

(** ** Rooted trees and valid inputs *)

(** The rooted tree that the depth-first passes unfold from the adjacency
    lists: a node and its children in adjacency order. *)
Inductive rtree : Type := RNode (u : Z) (ks : list rtree).

Definition rid (t : rtree) : Z := let 'RNode u _ := t in u.
Definition rkids (t : rtree) : list rtree := let 'RNode _ ks := t in ks.

Fixpoint nodes (t : rtree) : list Z :=
  let 'RNode u ks := t in u :: (ks ≫= nodes).

Definition tsize (t : rtree) : Z := zlen (nodes t).

(** [shape adj p t]: seen from the neighbour [p], the part of the graph
    behind the node [rid t] is the tree [t]: the neighbours of a node other
    than the one it was reached from are its children, in order. *)
Inductive shape (adj : list (list Z)) : Z → rtree → Prop :=
| shape_node p u ks :
    filter (λ v, v ≠ p) (aget adj u) = rid <$> ks →
    Forall (shape adj u) ks →
    shape adj p (RNode u ks).

(** The adjacency lists describe a tree on the nodes [0 .. n-1]: unfolded
    from [root] they give a rooted tree in which every node occurs exactly
    once. *)
Definition valid_tree (n : Z) (adj : list (list Z)) (root : Z) (t : rtree)
    : Prop :=
  rid t = root ∧ shape adj (-1) t ∧ nodes t ≡ₚ seqZ 0 n.

(** ** Paths, ancestors and lowest common ancestors in the graph *)

Definition adjacent (adj : list (list Z)) (x y : Z) : Prop := y ∈ aget adj x.

(** [walk adj l]: consecutive nodes of [l] are joined by an edge. *)
Fixpoint walk (adj : list (list Z)) (l : list Z) : Prop :=
  match l with
  | x :: (y :: _) as l' => adjacent adj x y ∧ walk adj l'
  | _ => True
  end.

(** [l] is the simple path from [u] to [v]. *)
Definition simple_path (adj : list (list Z)) (u v : Z) (l : list Z) : Prop :=
  head l = Some u ∧ last l = Some v ∧ NoDup l ∧ walk adj l.

(** [a] is an ancestor of [x] (or [x] itself): it lies on the simple path
    from the root to [x]. *)
Definition ancestor (adj : list (list Z)) (root a x : Z) : Prop :=
  ∃ l, simple_path adj root x l ∧ a ∈ l.

(** [x] is at distance [d] from the root. *)
Definition at_depth (adj : list (list Z)) (root x d : Z) : Prop :=
  ∃ l, simple_path adj root x l ∧ zlen l = d + 1.

(** [w] is the lowest common ancestor of [u] and [v]: a common ancestor
    that no common ancestor lies deeper than. *)
Definition is_lca (adj : list (list Z)) (root u v w : Z) : Prop :=
  ancestor adj root w u ∧ ancestor adj root w v ∧
  ∀ c dc dw, ancestor adj root c u → ancestor adj root c v →
    at_depth adj root c dc → at_depth adj root w dw → dc <= dw.

Definition path_sum (vals : list Z) (l : list Z) : Z :=
  sumZ (vget vals <$> l).

(** ** Valid inputs and reachable states *)

(** The object after the constructor and the [add_edge] calls. *)
Definition initial (n : Z) (vals : list Z) (es : list (Z * Z)) : HLD.t :=
  add_edges (HLD.new n vals) es.

(** A valid input: one initial value of type [int] for every node, and
    edges between nodes that make a tree on the nodes [0 .. n-1], which
    unfolds from [root] into [t]. *)
Record valid_input (n : Z) (vals : list Z) (es : list (Z * Z)) (root : Z)
    (t : rtree) : Prop := {
  vi_len : zlen vals = n;
  vi_int : Forall Int.in_range vals;
  vi_edges : Forall (λ e, 0 <= e.1 < n ∧ 0 <= e.2 < n) es;
  vi_tree : valid_tree n (HLD.adj (initial n vals es)) root t
}.

(** The states of a built object: the result of [build] and whatever
    point updates of valid nodes with [int] values lead to. *)
Inductive reachable (n : Z) (vals : list Z) (es : list (Z * Z)) (root : Z)
    : HLD.t → Prop :=
| reach_build s :
    HLD.build (initial n vals es) root = Some s → reachable n vals es root s
| reach_update s u x s' :
    reachable n vals es root s → 0 <= u < n → Int.in_range x →
    HLD.update_node_value s u x = Some s' →
    reachable n vals es root s'.

(** The children of [u]: its neighbours other than its parent, in
    adjacency order. *)
Definition children (s : HLD.t) (u : Z) : list Z :=
  filter (λ v, v ≠ vget (HLD.parent s) u) (aget (HLD.adj s) u).

(** [h] is the first element of [cs] of maximal [size], or -1 when [cs]
    is empty. *)
Definition first_max (size : Z → Z) (cs : list Z) (h : Z) : Prop :=
  (cs = [] ∧ h = -1) ∨
  ∃ pre post, cs = pre ++ h :: post
    ∧ (∀ c, c ∈ pre → size c < size h)
    ∧ (∀ c, c ∈ post → size c <= size h).

(** The adjacency lists that [add_edge] builds are symmetric. *)
Definition symmetric (a : list (list Z)) : Prop :=
  ∀ x y, y ∈ aget a x → x ∈ aget a y.

(** * Invariants

    The definitions on which the proofs rest: what the segment tree
    represents, what the two passes leave in the arrays, and the
    invariant of a built object. *)

(** ** The segment tree *)

(** The sum of [a] over the positions [s .. e]. *)
Definition rsum (a : list Z) (s e : Z) : Z :=
  sumZ (vget a <$> seqZ s (e - s + 1)).

(** The parent of node [x] in the heap numbering of the segment tree. *)
Definition up_node (x : Z) : Z := (x - 1) `div` 2.

(** [desc k x]: node [x] lies in the subtree of node [k]. *)
Definition desc (k x : Z) : Prop := ∃ j : nat, Nat.iter j up_node x = k.

(** [seg_rep tr a node s e]: the subtree of [tr] at [node] stores the
    aggregates of [a] over the positions [s .. e]. *)
Inductive seg_rep (tr a : list Z) : Z → Z → Z → Prop :=
| seg_leaf node i :
    0 <= node < zlen tr → vget tr node = vget a i → seg_rep tr a node i i
| seg_node node s e :
    s < e → 0 <= node < zlen tr →
    seg_rep tr a (2 * node + 1) s ((s + e) `div` 2) →
    seg_rep tr a (2 * node + 2) ((s + e) `div` 2 + 1) e →
    vget tr node
      = SegmentTree.combine (vget tr (2 * node + 1)) (vget tr (2 * node + 2)) →
    seg_rep tr a node s e.

(** Every element of [a] is an [int]. *)
Definition ints (a : list Z) : Prop := ∀ i, Int.in_range (vget a i).

(** The segment tree [st] stores the array [a]. *)
Definition st_ok (st : SegmentTree.t) (a : list Z) : Prop :=
  1 <= SegmentTree.n st ∧ zlen a = SegmentTree.n st ∧ ints a
  ∧ seg_rep (SegmentTree.tree st) a 0 0 (SegmentTree.n st - 1).

(** ** The two passes *)

(** The nodes of the subtrees [ks]. *)
Definition knodes (ks : list rtree) : list Z := ks ≫= nodes.

(** What the first pass writes for node [x], the fields it leaves alone,
    and the lengths of the vectors it writes to. *)
Definition view1 (s : HLD.t) (x : Z) : Z * Z * Z * Z :=
  (vget (HLD.parent s) x, vget (HLD.depth s) x,
   vget (HLD.subtree_size s) x, vget (HLD.heavy_child s) x).

Definition rest1 (s : HLD.t) :=
  (HLD.N s, HLD.adj s, HLD.values s, HLD.head s, HLD.pos s, HLD.cur_pos s,
   HLD.seg_tree s).

Definition lens1 (s : HLD.t) : Z * Z * Z * Z :=
  (zlen (HLD.parent s), zlen (HLD.depth s), zlen (HLD.subtree_size s),
   zlen (HLD.heavy_child s)).

(** [s'] differs from [s] at most in the first-pass arrays at the nodes
    of [X]. *)
Definition step1 (s s' : HLD.t) (X : list Z) : Prop :=
  rest1 s' = rest1 s ∧ lens1 s' = lens1 s ∧
  ∀ x, x ∉ X → view1 s' x = view1 s x.

(** The heavy child that the loop over the children [ks] selects, from the
    running candidate [h] and maximum [mx]. *)
Fixpoint pick_heavy (ks : list rtree) (h mx : Z) : Z :=
  match ks with
  | [] => h
  | k :: ks' =>
    if tsize k >? mx then pick_heavy ks' (rid k) (tsize k)
    else pick_heavy ks' h mx
  end.

(** What the first pass leaves in the arrays for the subtree [t] entered
    from parent [p] at depth [d]. *)
Inductive dfs1_post (s : HLD.t) : Z → Z → rtree → Prop :=
| dfs1_post_node p d u ks :
    view1 s u = (p, d, tsize (RNode u ks), pick_heavy ks (-1) 0) →
    Forall (dfs1_post s u (d + 1)) ks →
    dfs1_post s p d (RNode u ks).

(** With fuel [f], the first pass returns on the subtree [k] and leaves
    [dfs1_post]. *)
Definition dfs1_ok (n : Z) (f : nat) (k : rtree) : Prop :=
  ∀ p d s,
    shape (HLD.adj s) p k → NoDup (nodes k) →
    (∀ x, x ∈ nodes k → 0 <= x < n) → lens1 s = (n, n, n, n) →
    (∀ x, x ∈ nodes k → vget (HLD.heavy_child s) x = -1) →
    ∃ s', HLD.dfs1_size_depth_parent f (rid k) p d s = Some s'
        ∧ step1 s s' (nodes k) ∧ dfs1_post s' p d k.

(** The same for the second pass. *)
Definition view2 (s : HLD.t) (x : Z) : Z * Z :=
  (vget (HLD.head s) x, vget (HLD.pos s) x).

Definition rest2 (s : HLD.t) :=
  (HLD.N s, HLD.adj s, HLD.values s, HLD.parent s, HLD.depth s,
   HLD.subtree_size s, HLD.heavy_child s, HLD.seg_tree s).

Definition lens2 (s : HLD.t) : Z * Z := (zlen (HLD.head s), zlen (HLD.pos s)).

Definition step2 (s s' : HLD.t) (X : list Z) : Prop :=
  rest2 s' = rest2 s ∧ lens2 s' = lens2 s ∧
  ∀ x, x ∉ X → view2 s' x = view2 s x.

(** The heavy child of a node with children [ks], and the children in the
    order in which the second pass visits them, each with the head of its
    chain. *)
Definition heavy_id (ks : list rtree) : Z := pick_heavy ks (-1) 0.

Definition heavies (ks : list rtree) : list rtree :=
  filter (λ k, rid k = heavy_id ks) ks.

Definition lights_of (hv : Z) (ks : list rtree) : list rtree :=
  filter (λ k, rid k ≠ hv) ks.

Definition own_head (k : rtree) : Z * rtree := (rid k, k).

Definition visit_order (h : Z) (ks : list rtree) : list (Z * rtree) :=
  ((λ k, (h, k)) <$> heavies ks) ++ (own_head <$> lights_of (heavy_id ks) ks).

(** The position at which each subtree of [l] starts when the first one
    starts at [c]. *)
Fixpoint offsets (c : Z) (l : list (Z * rtree)) : list (Z * (Z * rtree)) :=
  match l with
  | [] => []
  | hk :: l' => (c, hk) :: offsets (c + tsize hk.2) l'
  end.

(** What the second pass leaves in [head] and [pos] for the subtree [t]
    entered with chain head [h] when the position counter is [c]. *)
Inductive dfs2_post (s : HLD.t) : Z → Z → rtree → Prop :=
| dfs2_post_node h c u ks :
    view2 s u = (h, c) →
    Forall (λ e, dfs2_post s e.2.1 e.1 e.2.2)
           (offsets (c + 1) (visit_order h ks)) →
    dfs2_post s h c (RNode u ks).

(** With fuel [f], the second pass returns on the subtree [k], advances
    the counter by its size and leaves [dfs2_post]. *)
Definition dfs2_ok (n : Z) (f : nat) (k : rtree) : Prop :=
  ∀ p d h s,
    shape (HLD.adj s) p k → dfs1_post s p d k → NoDup (nodes k) →
    (∀ x, x ∈ nodes k → 0 <= x < n) → lens2 s = (n, n) →
    ∃ s', HLD.dfs2_hld f (rid k) h s = Some s'
        ∧ step2 s s' (nodes k)
        ∧ HLD.cur_pos s' = HLD.cur_pos s + tsize k
        ∧ dfs2_post s' h (HLD.cur_pos s) k.

(** ** The decorated tree and the built state *)

(** The context in which the passes enter a subtree: parent, depth, chain
    head and position. *)
Record ctx := Ctx { c_parent : Z; c_depth : Z; c_head : Z; c_pos : Z }.

(** [occ c0 t c t']: visiting [t] in context [c0], the second pass visits
    its subtree [t'] in context [c]. *)
Inductive occ (c0 : ctx) (t : rtree) : ctx → rtree → Prop :=
| occ_here : occ c0 t c0 t
| occ_step p d h c u ks c' h' k :
    occ c0 t (Ctx p d h c) (RNode u ks) →
    (c', (h', k)) ∈ offsets (c + 1) (visit_order h ks) →
    occ c0 t (Ctx u (d + 1) h' c') k.

(** The tree [t], visited in context [c], is laid out in [s] as the two
    passes leave it. *)
Definition laid (s : HLD.t) (c : ctx) (t : rtree) : Prop :=
  shape (HLD.adj s) (c_parent c) t
  ∧ dfs1_post s (c_parent c) (c_depth c) t
  ∧ dfs2_post s (c_head c) (c_pos c) t
  ∧ NoDup (nodes t).

(** The nodes of [t] in the order in which the second pass numbers them:
    a node, then its heavy subtree, then its light subtrees. *)
Fixpoint order (t : rtree) : list Z :=
  let 'RNode u ks := t in
  u :: (ks ≫= λ k, if decide (rid k = heavy_id ks) then order k else [])
    ++ (ks ≫= λ k, if decide (rid k ≠ heavy_id ks) then order k else []).

(** The children [ks] in the order of the second pass. *)
Definition visit (ks : list rtree) : list rtree :=
  heavies ks ++ lights_of (heavy_id ks) ks.

(** [x] is a node of the tree. *)
Definition in_tree (s : HLD.t) (x : Z) : Prop := 0 <= x < HLD.N s.

(** The invariant of a built decomposition on which queries and updates
    rely. *)
Record hld_inv (adj : list (list Z)) (root : Z) (s : HLD.t) : Prop := {
  inv_adj : HLD.adj s = adj;
  inv_root : in_tree s root;
  inv_root_parent : vget (HLD.parent s) root = -1;
  inv_root_depth : vget (HLD.depth s) root = 0;
  inv_parent : ∀ x, in_tree s x →
    x = root ∨
    (in_tree s (vget (HLD.parent s) x) ∧
     vget (HLD.depth s) x = vget (HLD.depth s) (vget (HLD.parent s) x) + 1);
  inv_depth : ∀ x, in_tree s x → 0 <= vget (HLD.depth s) x < HLD.N s;
  inv_head : ∀ x, in_tree s x →
    vget (HLD.head s) x = x ∨
    (in_tree s (vget (HLD.parent s) x) ∧
     vget (HLD.depth s) x = vget (HLD.depth s) (vget (HLD.parent s) x) + 1 ∧
     vget (HLD.head s) x = vget (HLD.head s) (vget (HLD.parent s) x) ∧
     vget (HLD.pos s) x = vget (HLD.pos s) (vget (HLD.parent s) x) + 1);
  inv_pos_range : ∀ x, in_tree s x → 0 <= vget (HLD.pos s) x < HLD.N s;
  inv_pos_inj : ∀ x y, in_tree s x → in_tree s y →
    vget (HLD.pos s) x = vget (HLD.pos s) y → x = y;
  inv_edges : ∀ x y, in_tree s x → y ∈ aget adj x →
    y = vget (HLD.parent s) x ∨ (in_tree s y ∧ x = vget (HLD.parent s) y);
  inv_down : ∀ x, in_tree s x →
    x = root ∨ x ∈ aget adj (vget (HLD.parent s) x);
  inv_values_len : zlen (HLD.values s) = HLD.N s;
  inv_values_int : ints (HLD.values s);
  inv_seg : ∃ a, st_ok (HLD.seg_tree s) a
              ∧ SegmentTree.n (HLD.seg_tree s) = HLD.N s
              ∧ ∀ x, in_tree s x →
                  vget a (vget (HLD.pos s) x) = vget (HLD.values s) x
}.

(** Everything but the adjacency lists. *)
Definition core (s : HLD.t) :=
  (HLD.N s, HLD.values s, HLD.parent s, HLD.depth s, HLD.subtree_size s,
   HLD.heavy_child s, HLD.head s, HLD.pos s, HLD.cur_pos s, HLD.seg_tree s).

(** The context in which [build] enters the whole tree. *)
Definition root_ctx (root : Z) : ctx := Ctx (-1) 0 root 0.

(** ** Walking up the parent pointers *)

(** The [k]-th ancestor of [x]. *)
Definition up (s : HLD.t) (k : nat) (x : Z) : Z :=
  Nat.iter k (vget (HLD.parent s)) x.

(** The [k] nodes [x], [parent x], ... below [up s k x]. *)
Fixpoint chain_list (s : HLD.t) (x : Z) (k : nat) : list Z :=
  match k with
  | O => []
  | S k' => x :: chain_list s (vget (HLD.parent s) x) k'
  end.

(** [up a u = up b v] is a common ancestor of [u] and [v] below which
    the two branches are different. *)
Definition meet (s : HLD.t) (u v : Z) (a b : nat) : Prop :=
  up s a u = up s b v
  ∧ Z.of_nat a <= vget (HLD.depth s) u ∧ Z.of_nat b <= vget (HLD.depth s) v
  ∧ (a = 0%nat ∨ b = 0%nat ∨ up s (a - 1) u ≠ up s (b - 1) v).

(** The sum of the values on the two branches and at their meeting
    point. *)
Definition total (s : HLD.t) (u v : Z) (a b : nat) : Z :=
  path_sum (HLD.values s) (chain_list s u a)
  + vget (HLD.values s) (up s a u)
  + path_sum (HLD.values s) (chain_list s v b).

(** ** The tree of the test suite *)

Definition ex_vals : list Z := [2; 10; 5; 3; 8; 1; 7].
Definition ex_edges : list (Z * Z) :=
  [(1, 0); (1, 2); (1, 3); (0, 4); (3, 5); (5, 6)].
Definition ex_tree : rtree :=
  RNode 1 [RNode 0 [RNode 4 []]; RNode 2 [];
           RNode 3 [RNode 5 [RNode 6 []]]].
Definition ex_state : HLD.t :=
  Eval vm_compute in
    default (HLD.new 0 []) (HLD.build (initial 7 ex_vals ex_edges) 1).

(** ** Callers, calls and loops *)

(** A caller's sequence of [update (index, value)] calls, and what the
    same writes make of the array that the tree was built from. *)
Fixpoint run_updates (st : SegmentTree.t) (us : list (Z * Z))
    : option SegmentTree.t :=
  match us with
  | [] => Some st
  | u :: us' => st' ← SegmentTree.update st u.1 u.2; run_updates st' us'
  end.

Definition written (a : list Z) (us : list (Z * Z)) : list Z :=
  foldl (λ a u, vset a u.1 u.2) a us.


Definition seg_vals : list Z := [5; -2; 7; 1].
Definition seg_ups : list (Z * Z) := [(2, 10); (0, 3)].

(** The neighbours that the [add_edge] calls [es] give node [x], in the
    order of the calls. *)
Definition neighbours (es : list (Z * Z)) (x : Z) : list Z :=
  es ≫= λ e, (if decide (e.1 = x) then [e.2] else [])
              ++ (if decide (e.2 = x) then [e.1] else []).


(** One turn of the [while] loop that [query_path] and [get_lca] share:
    [None] when the two nodes have the same head and the loop is left,
    otherwise the two nodes of the next turn. *)
Definition loop_step (s : HLD.t) (u v : Z) : option (Z * Z) :=
  if negb (vget (HLD.head s) u =? vget (HLD.head s) v) then
    let '(u, v) :=
      if vget (HLD.depth s) (vget (HLD.head s) u)
         <? vget (HLD.depth s) (vget (HLD.head s) v)
      then (v, u) else (u, v) in
    Some (vget (HLD.parent s) (vget (HLD.head s) u), v)
  else None.

(** The two nodes after [k] turns. *)
Fixpoint loop_turns (s : HLD.t) (k : nat) (u v : Z) : option (Z * Z) :=
  match k with
  | O => Some (u, v)
  | S k' => p ← loop_step s u v; loop_turns s k' p.1 p.2
  end.

(** ** The code with checked indexing

    [operator[]] on a [vector] has no defined behaviour outside the
    vector; [vget] and [vset] above read 0 and write nothing there.
    [Safe] is the same code with every [v[i]] checked: an index outside
    the vector makes the function return [None].  Where a function of
    [Safe] returns, the program indexes inside its vectors only. *)

(** [v[i]] and [v[i] = x], checked. *)
Definition cget {A} (l : list A) (i : Z) : option A :=
  if decide (0 <= i) then l !! Z.to_nat i else None.

Definition cset (l : list Z) (i x : Z) : option (list Z) :=
  if decide (0 <= i < zlen l) then Some (<[Z.to_nat i := x]> l) else None.

Module Safe.

(** The segment tree. *)
Fixpoint build_rec (fuel : nat) (arr : list Z) (node start end_ : Z)
    (tr : list Z) : option (list Z) :=
  match fuel with
  | O => None
  | S f =>
    if start =? end_ then x ← cget arr start; cset tr node x
    else
      let mid := Z.quot (start + end_) 2 in
      tr1 ← build_rec f arr (2 * node + 1) start mid tr;
      tr2 ← build_rec f arr (2 * node + 2) (mid + 1) end_ tr1;
      a ← cget tr2 (2 * node + 1);
      b ← cget tr2 (2 * node + 2);
      cset tr2 node (SegmentTree.combine a b)
  end.

Fixpoint update_rec (fuel : nat) (node start end_ idx val : Z)
    (tr : list Z) : option (list Z) :=
  match fuel with
  | O => None
  | S f =>
    if start =? end_ then cset tr node val
    else
      let mid := Z.quot (start + end_) 2 in
      tr1 ← (if (start <=? idx) && (idx <=? mid)
             then update_rec f (2 * node + 1) start mid idx val tr
             else update_rec f (2 * node + 2) (mid + 1) end_ idx val tr);
      a ← cget tr1 (2 * node + 1);
      b ← cget tr1 (2 * node + 2);
      cset tr1 node (SegmentTree.combine a b)
  end.

Fixpoint query_rec (fuel : nat) (tr : list Z) (node start end_ l r : Z)
    : option Z :=
  match fuel with
  | O => None
  | S f =>
    if (r <? start) || (end_ <? l) then Some 0
    else if (l <=? start) && (end_ <=? r) then cget tr node
    else
      let mid := Z.quot (start + end_) 2 in
      p1 ← query_rec f tr (2 * node + 1) start mid l r;
      p2 ← query_rec f tr (2 * node + 2) (mid + 1) end_ l r;
      Some (SegmentTree.combine p1 p2)
  end.

Definition build_from_mapped_values (st : SegmentTree.t)
    (values_at_pos : list Z) : option SegmentTree.t :=
  match values_at_pos with
  | [] => Some st
  | _ =>
    tr ← build_rec (SegmentTree.fuel_of st) values_at_pos 0 0
           (SegmentTree.n st - 1) (SegmentTree.tree st);
    Some (SegmentTree.mk (SegmentTree.n st) tr)
  end.

Definition update (st : SegmentTree.t) (index value : Z)
    : option SegmentTree.t :=
  tr ← update_rec (SegmentTree.fuel_of st) 0 0 (SegmentTree.n st - 1)
         index value (SegmentTree.tree st);
  Some (SegmentTree.mk (SegmentTree.n st) tr).

Definition query (st : SegmentTree.t) (query_left query_right : Z)
    : option Z :=
  if query_left >? query_right then Some 0
  else query_rec (SegmentTree.fuel_of st) (SegmentTree.tree st) 0 0
         (SegmentTree.n st - 1) query_left query_right.

(** A caller's sequence of [update] calls. *)
Fixpoint run_updates (st : SegmentTree.t) (us : list (Z * Z))
    : option SegmentTree.t :=
  match us with
  | [] => Some st
  | u :: us' => st' ← update st u.1 u.2; run_updates st' us'
  end.

(** The decomposition. *)
Definition update_node_value (s : HLD.t) (u new_value : Z)
    : option HLD.t :=
  vals ← cset (HLD.values s) u new_value;
  let s1 := HLD.with_values s vals in
  p ← cget (HLD.pos s1) u;
  st ← update (HLD.seg_tree s1) p new_value;
  Some (HLD.with_seg_tree s1 st).

Fixpoint query_path_loop (fuel : nat) (s : HLD.t) (u v result : Z)
    : option Z :=
  match fuel with
  | O => None
  | S f =>
    hu ← cget (HLD.head s) u;
    hv ← cget (HLD.head s) v;
    if negb (hu =? hv) then
      dhu ← cget (HLD.depth s) hu;
      dhv ← cget (HLD.depth s) hv;
      let '(u, v) := if dhu <? dhv then (v, u) else (u, v) in
      hu ← cget (HLD.head s) u;
      phu ← cget (HLD.pos s) hu;
      pu ← cget (HLD.pos s) u;
      q ← query (HLD.seg_tree s) phu pu;
      nu ← cget (HLD.parent s) hu;
      query_path_loop f s nu v (Int.wrap (result + q))
    else
      du ← cget (HLD.depth s) u;
      dv ← cget (HLD.depth s) v;
      let '(u, v) := if du >? dv then (v, u) else (u, v) in
      pu ← cget (HLD.pos s) u;
      pv ← cget (HLD.pos s) v;
      q ← query (HLD.seg_tree s) pu pv;
      Some (Int.wrap (result + q))
  end.

Definition query_path (s : HLD.t) (u v : Z) : option Z :=
  query_path_loop (HLD.loop_fuel s) s u v 0.

Fixpoint get_lca_loop (fuel : nat) (s : HLD.t) (u v : Z) : option Z :=
  match fuel with
  | O => None
  | S f =>
    hu ← cget (HLD.head s) u;
    hv ← cget (HLD.head s) v;
    if negb (hu =? hv) then
      dhu ← cget (HLD.depth s) hu;
      dhv ← cget (HLD.depth s) hv;
      let '(u, v) := if dhu <? dhv then (v, u) else (u, v) in
      hu ← cget (HLD.head s) u;
      nu ← cget (HLD.parent s) hu;
      get_lca_loop f s nu v
    else
      du ← cget (HLD.depth s) u;
      dv ← cget (HLD.depth s) v;
      Some (if du <? dv then u else v)
  end.

Definition get_lca (s : HLD.t) (u v : Z) : option Z :=
  get_lca_loop (HLD.loop_fuel s) s u v.

Fixpoint dfs1_loop (rec : Z → Z → Z → HLD.t → option HLD.t) (u p d : Z)
    (vs : list Z) (mx : Z) (s : HLD.t) : option HLD.t :=
  match vs with
  | [] => Some s
  | v :: vs' =>
    if v =? p then dfs1_loop rec u p d vs' mx s
    else
      s1 ← rec v u (d + 1) s;
      su ← cget (HLD.subtree_size s1) u;
      sv ← cget (HLD.subtree_size s1) v;
      sz ← cset (HLD.subtree_size s1) u (su + sv);
      let s2 := HLD.with_subtree_size s1 sz in
      sv ← cget (HLD.subtree_size s2) v;
      if sv >? mx
      then hc ← cset (HLD.heavy_child s2) u v;
           dfs1_loop rec u p d vs' sv (HLD.with_heavy_child s2 hc)
      else dfs1_loop rec u p d vs' mx s2
  end.

Fixpoint dfs1_size_depth_parent (fuel : nat) (u p d : Z) (s : HLD.t)
    : option HLD.t :=
  match fuel with
  | O => None
  | S f =>
    pa ← cset (HLD.parent s) u p;
    let s := HLD.with_parent s pa in
    de ← cset (HLD.depth s) u d;
    let s := HLD.with_depth s de in
    sz ← cset (HLD.subtree_size s) u 1;
    let s := HLD.with_subtree_size s sz in
    vs ← cget (HLD.adj s) u;
    dfs1_loop (dfs1_size_depth_parent f) u p d vs 0 s
  end.

Fixpoint dfs2_loop (rec : Z → Z → HLD.t → option HLD.t) (u : Z)
    (vs : list Z) (s : HLD.t) : option HLD.t :=
  match vs with
  | [] => Some s
  | v :: vs' =>
    pu ← cget (HLD.parent s) u;
    hc ← cget (HLD.heavy_child s) u;
    if (v =? pu) || (v =? hc) then dfs2_loop rec u vs' s
    else s1 ← rec v v s; dfs2_loop rec u vs' s1
  end.

Fixpoint dfs2_hld (fuel : nat) (u h : Z) (s : HLD.t) : option HLD.t :=
  match fuel with
  | O => None
  | S f =>
    hd ← cset (HLD.head s) u h;
    let s := HLD.with_head s hd in
    ps ← cset (HLD.pos s) u (HLD.cur_pos s);
    let s := HLD.with_cur_pos (HLD.with_pos s ps) (HLD.cur_pos s + 1) in
    hc ← cget (HLD.heavy_child s) u;
    s1 ← (if hc =? -1 then Some s else dfs2_hld f hc h s);
    vs ← cget (HLD.adj s1) u;
    dfs2_loop (dfs2_hld f) u vs s1
  end.

Definition values_for_seg_tree (s : HLD.t) : option (list Z) :=
  foldl (λ acc i, a ← acc;
                  p ← cget (HLD.pos s) i;
                  x ← cget (HLD.values s) i;
                  cset a p x)
        (Some (replicate (Z.to_nat (HLD.N s)) 0)) (seqZ 0 (HLD.N s)).

Definition build (s : HLD.t) (root : Z) : option HLD.t :=
  s1 ← dfs1_size_depth_parent (Z.to_nat (HLD.N s)) root (-1) 0 s;
  s2 ← dfs2_hld (Z.to_nat (HLD.N s)) root root s1;
  vs ← values_for_seg_tree s2;
  st ← build_from_mapped_values (HLD.seg_tree s2) vs;
  Some (HLD.with_seg_tree s2 st).

End Safe.

(** The graph has [n] adjacency lists, which name nodes only. *)
Definition adj_ok (n : Z) (a : list (list Z)) : Prop :=
  zlen a = n ∧ ∀ x y, y ∈ aget a x → 0 <= y < n.

(** Every entry of [heavy_child] is a node or -1. *)
Definition heavy_ok (n : Z) (s : HLD.t) : Prop :=
  ∀ x, 0 <= x < n →
    vget (HLD.heavy_child s) x = -1 ∨ 0 <= vget (HLD.heavy_child s) x < n.

(** What the checked passes need of the state they start in. *)
Definition pass_ok (n : Z) (s : HLD.t) : Prop :=
  adj_ok n (HLD.adj s) ∧ (lens1 s, lens2 s) = ((n, n, n, n), (n, n))
  ∧ heavy_ok n s.

(** A caller's sequence of [update_node_value (u, new_value)] calls. *)
Fixpoint run_node_updates (s : HLD.t) (us : list (Z * Z)) : option HLD.t :=
  match us with
  | [] => Some s
  | u :: us' => s' ← HLD.update_node_value s u.1 u.2; run_node_updates s' us'
  end.

(** The graph on the nodes 0, 1 and 2 with the one edge between 0 and 1,
    and the tree of the nodes that can be reached from node 0. *)
Definition split_graph : HLD.t := initial 3 [1; 2; 3] [(0, 1)].
Definition split_tree : rtree := RNode 0 [RNode 1 []].

(** * Lemmas *)

(** ** Machine integers and vectors *)

Lemma wrap_in_range z : Int.in_range z → Int.wrap z = z.
Proof.
  unfold Int.in_range, Int.wrap, Int.min_int, Int.max_int. intros.
  Z.div_mod_to_equations. lia.
Qed.

Lemma wrap_range z : Int.in_range (Int.wrap z).
Proof.
  unfold Int.in_range, Int.wrap, Int.min_int, Int.max_int.
  Z.div_mod_to_equations. lia.
Qed.

Lemma wrap_add_l a b : Int.wrap (Int.wrap a + b) = Int.wrap (a + b).
Proof. unfold Int.wrap. Z.div_mod_to_equations. lia. Qed.

Lemma wrap_add_r a b : Int.wrap (a + Int.wrap b) = Int.wrap (a + b).
Proof. rewrite Z.add_comm, wrap_add_l. f_equal. lia. Qed.

Lemma wrap_sub_l a b : Int.wrap (Int.wrap a - b) = Int.wrap (a - b).
Proof. unfold Int.wrap. Z.div_mod_to_equations. lia. Qed.

Lemma wrap_add_sub a b c :
  Int.wrap (Int.wrap a + Int.wrap b - c) = Int.wrap (a + b - c).
Proof. unfold Int.wrap. Z.div_mod_to_equations. lia. Qed.

Lemma wrap_wrap a : Int.wrap (Int.wrap a) = Int.wrap a.
Proof. apply wrap_in_range, wrap_range. Qed.

Lemma vget_vset_eq l i x : 0 <= i < zlen l → vget (vset l i x) i = x.
Proof.
  unfold vget, vset, zlen. intros. rewrite !decide_True by lia.
  rewrite list_lookup_insert_eq by lia. done.
Qed.

Lemma vget_vset_ne l i j x : i ≠ j → vget (vset l i x) j = vget l j.
Proof.
  unfold vget, vset. intros. destruct (decide (0 <= j)); [|done].
  destruct (decide (0 <= i)); [|done].
  rewrite list_lookup_insert_ne by lia. done.
Qed.

Lemma zlen_vset l i x : zlen (vset l i x) = zlen l.
Proof. unfold zlen, vset. case_decide; [|done]. by rewrite length_insert. Qed.

Lemma vget_vset l i j x :
  0 <= i < zlen l → vget (vset l i x) j = if decide (i = j) then x else vget l j.
Proof.
  intros. case_decide; subst; [by apply vget_vset_eq | by apply vget_vset_ne].
Qed.

(** ** Range sums *)

Lemma sumZ_app l k : sumZ (l ++ k) = sumZ l + sumZ k.
Proof. induction l as [|x l IH]; simpl; lia. Qed.

Lemma rsum_empty a s e : e < s → rsum a s e = 0.
Proof. intros. unfold rsum. rewrite seqZ_nil by lia. done. Qed.

Lemma rsum_one a s : rsum a s s = vget a s.
Proof.
  unfold rsum. replace (s - s + 1) with 1 by lia.
  rewrite seqZ_cons by lia. rewrite seqZ_nil by lia. simpl. lia.
Qed.

Lemma rsum_app a s m e :
  s <= m + 1 → m <= e → rsum a s e = rsum a s m + rsum a (m + 1) e.
Proof.
  intros. unfold rsum.
  replace (e - s + 1) with ((m - s + 1) + (e - (m + 1) + 1)) by lia.
  rewrite seqZ_app by lia. rewrite fmap_app, sumZ_app.
  by replace (s + (m - s + 1)) with (m + 1) by lia.
Qed.

Lemma rsum_split a lo hi m :
  rsum a lo hi = rsum a lo (hi `min` m) + rsum a (lo `max` (m + 1)) hi.
Proof.
  destruct (decide (m < lo)).
  { rewrite (rsum_empty a lo (hi `min` m)) by lia.
    by replace (lo `max` (m + 1)) with lo by lia. }
  destruct (decide (hi <= m)).
  { rewrite (rsum_empty a (lo `max` (m + 1))) by lia.
    replace (hi `min` m) with hi by lia. lia. }
  replace (hi `min` m) with m by lia.
  replace (lo `max` (m + 1)) with (m + 1) by lia.
  apply rsum_app; lia.
Qed.

Lemma rsum_first a s e : s <= e → rsum a s e = vget a s + rsum a (s + 1) e.
Proof. intros. rewrite (rsum_app a s s e) by lia. by rewrite rsum_one. Qed.

Lemma rsum_last a s e : s <= e → rsum a s e = rsum a s (e - 1) + vget a e.
Proof.
  intros. rewrite (rsum_app a s (e - 1) e) by lia.
  replace (e - 1 + 1) with e by lia. by rewrite rsum_one.
Qed.

Lemma rsum_ext a b s e :
  (∀ i, s <= i <= e → vget a i = vget b i) → rsum a s e = rsum b s e.
Proof.
  intros H. unfold rsum. f_equal. apply list_eq. intros i.
  rewrite !list_lookup_fmap.
  destruct (seqZ s (e - s + 1) !! i) as [x|] eqn:E; [|done]. simpl.
  apply lookup_seqZ in E. f_equal. apply H. lia.
Qed.

(** ** Heap numbering of the segment tree nodes *)

Lemma desc_refl k : desc k k.
Proof. by exists 0%nat. Qed.

Lemma desc_left k x : desc (2 * k + 1) x → desc k x.
Proof.
  intros [j Hj]. exists (S j). simpl. rewrite Hj. unfold up_node.
  Z.div_mod_to_equations. lia.
Qed.

Lemma desc_right k x : desc (2 * k + 2) x → desc k x.
Proof.
  intros [j Hj]. exists (S j). simpl. rewrite Hj. unfold up_node.
  Z.div_mod_to_equations. lia.
Qed.

Lemma iter_up_node_le j y : -1 <= y → -1 <= Nat.iter j up_node y <= y.
Proof.
  intros. induction j as [|j IH]; simpl; [lia|].
  set (z := Nat.iter j up_node y) in *.
  unfold up_node. Z.div_mod_to_equations. lia.
Qed.

Lemma desc_le k x : -1 <= x → desc k x → k <= x.
Proof. intros ? [j <-]. by apply iter_up_node_le. Qed.

Lemma desc_disjoint k x :
  0 <= k → desc (2 * k + 1) x → desc (2 * k + 2) x → False.
Proof.
  intros Hk [j Hj] [j' Hj'].
  destruct (decide (j ≤ j')%nat).
  - replace j' with ((j' - j) + j)%nat in Hj' by lia.
    rewrite Nat.iter_add, Hj in Hj'.
    pose proof (iter_up_node_le (j' - j) (2 * k + 1)). lia.
  - replace j with (S (j - j' - 1) + j')%nat in Hj by lia.
    rewrite Nat.iter_add, Hj', Nat.iter_succ_r in Hj.
    replace (up_node (2 * k + 2)) with k in Hj
      by (unfold up_node; Z.div_mod_to_equations; lia).
    assert (-1 <= k) as Hk' by lia.
    pose proof (iter_up_node_le (j - j' - 1) k Hk') as Hle.
    rewrite Hj in Hle. lia.
Qed.

Lemma desc_child_neq k x : 0 <= k → desc (2 * k + 1) x ∨ desc (2 * k + 2) x → x ≠ k.
Proof.
  intros Hk [H|H] ->; apply desc_le in H; lia.
Qed.

(** ** The representation invariant of the segment tree *)

Lemma seg_rep_bounds tr a node s e :
  seg_rep tr a node s e → s <= e ∧ 0 <= node < zlen tr.
Proof. destruct 1; lia. Qed.

Lemma seg_rep_sum tr a node s e :
  ints a → seg_rep tr a node s e → vget tr node = Int.wrap (rsum a s e).
Proof.
  intros Ha. induction 1 as [node i ? Hv|node s e ? ? ? IH1 ? IH2 Hv].
  - rewrite rsum_one, Hv. symmetry. apply wrap_in_range, Ha.
  - rewrite Hv, IH1, IH2. unfold SegmentTree.combine.
    rewrite wrap_add_l, wrap_add_r. f_equal.
    symmetry. apply rsum_app; Z.div_mod_to_equations; lia.
Qed.

Lemma seg_rep_frame tr tr' a node s e :
  seg_rep tr a node s e → zlen tr' = zlen tr →
  (∀ x, desc node x → vget tr' x = vget tr x) →
  seg_rep tr' a node s e.
Proof.
  intros H Hl. induction H as [node i ? Hv|node s e ? ? ? IH1 ? IH2 Hv];
    intros Hf.
  - apply seg_leaf; [lia|]. rewrite Hf by apply desc_refl. done.
  - apply seg_node; [lia | lia | | |].
    + apply IH1. intros x Hx. by apply Hf, desc_left.
    + apply IH2. intros x Hx. by apply Hf, desc_right.
    + rewrite !Hf; [done | | |].
      * apply desc_right, desc_refl.
      * apply desc_left, desc_refl.
      * apply desc_refl.
Qed.

Lemma seg_rep_ext tr a a' node s e :
  seg_rep tr a node s e →
  (∀ i, s <= i <= e → vget a' i = vget a i) →
  seg_rep tr a' node s e.
Proof.
  induction 1 as [node i ? Hv|node s e ? ? ? IH1 ? IH2 Hv]; intros Hf.
  - apply seg_leaf; [lia|]. rewrite Hf by lia. done.
  - apply seg_node; [lia | lia | | | done].
    + apply IH1. intros. apply Hf. Z.div_mod_to_equations; lia.
    + apply IH2. intros. apply Hf. Z.div_mod_to_equations; lia.
Qed.

Lemma quot2 x : 0 <= x → Z.quot x 2 = x `div` 2.
Proof. intros. apply Z.quot_div_nonneg; lia. Qed.

Lemma query_rec_spec fuel tr a node s e l r :
  ints a → seg_rep tr a node s e → 0 <= s → (Z.to_nat (e - s) < fuel)%nat →
  SegmentTree.query_rec fuel tr node s e l r
  = Some (Int.wrap (rsum a (l `max` s) (r `min` e))).
Proof.
  intros Ha. revert node s e.
  induction fuel as [|f IH]; intros node s e Hrep Hs Hf; [lia|].
  simpl.
  destruct ((r <? s) || (e <? l)) eqn:E1.
  { rewrite rsum_empty by lia. done. }
  destruct ((l <=? s) && (e <=? r)) eqn:E2.
  { replace (l `max` s) with s by lia. replace (r `min` e) with e by lia.
    f_equal. by eapply seg_rep_sum. }
  destruct Hrep as [node i ? Hv|node s e ? ? H1 H2 Hv]; [lia|].
  rewrite quot2 by lia.
  set (mid := (s + e) `div` 2) in *.
  assert (s <= mid < e) by (subst mid; Z.div_mod_to_equations; lia).
  rewrite (IH _ _ _ H1) by lia. simpl.
  rewrite (IH _ _ _ H2) by lia. simpl.
  f_equal. unfold SegmentTree.combine. rewrite wrap_add_l, wrap_add_r.
  f_equal. rewrite (rsum_split a (l `max` s) (r `min` e) mid).
  f_equal; f_equal; lia.
Qed.

Lemma update_rec_spec fuel tr a node s e idx val :
  seg_rep tr a node s e → 0 <= s → s <= idx <= e → e < zlen a →
  (Z.to_nat (e - s) < fuel)%nat →
  ∃ tr', SegmentTree.update_rec fuel node s e idx val tr = Some tr'
       ∧ zlen tr' = zlen tr
       ∧ (∀ x, ¬ desc node x → vget tr' x = vget tr x)
       ∧ seg_rep tr' (vset a idx val) node s e.
Proof.
  revert tr node s e.
  induction fuel as [|f IH]; intros tr node s e Hrep Hs Hi Ha Hf; [lia|].
  simpl. destruct Hrep as [node i ? Hv|node s e ? ? H1 H2 Hv].
  - rewrite Z.eqb_refl. eexists; split; [done|].
    rewrite zlen_vset. split; [done|]. split.
    + intros x Hx. apply vget_vset_ne. intros ->. apply Hx, desc_refl.
    + apply seg_leaf; [by rewrite zlen_vset|].
      assert (idx = i) as -> by lia. rewrite !vget_vset_eq by lia. done.
  - rewrite (proj2 (Z.eqb_neq s e)) by lia.
    rewrite quot2 by lia.
    set (mid := (s + e) `div` 2) in *.
    assert (s <= mid < e) by (subst mid; Z.div_mod_to_equations; lia).
    destruct ((s <=? idx) && (idx <=? mid)) eqn:E.
    + destruct (IH tr (2 * node + 1) s mid H1) as (tr1 & -> & Hl & Hfr & Hr);
        [lia..|]. simpl. eexists; split; [done|].
      rewrite zlen_vset. split; [done|]. split.
      { intros x Hx. rewrite vget_vset_ne.
        - apply Hfr. intros Hd. by apply Hx, desc_left.
        - intros ->. apply Hx, desc_refl. }
      assert (Hn : ∀ x, desc (2 * node + 1) x ∨ desc (2 * node + 2) x →
                        vget (vset tr1 node
                          (SegmentTree.combine (vget tr1 (2 * node + 1))
                             (vget tr1 (2 * node + 2)))) x = vget tr1 x).
      { intros x Hx. apply vget_vset_ne. intros Exn. subst x.
        eapply (desc_child_neq node node); [lia|exact Hx|done]. }
      apply seg_node; [lia | rewrite zlen_vset; lia | | |].
      * eapply seg_rep_frame; [exact Hr | by rewrite zlen_vset |].
        intros x Hx. apply Hn. by left.
      * eapply seg_rep_frame; [| rewrite zlen_vset; exact Hl |].
        { eapply seg_rep_ext; [exact H2|]. intros i Hi'.
          apply vget_vset_ne. lia. }
        intros x Hx. rewrite Hn by (by right). apply Hfr.
        intros Hd. eapply (desc_disjoint node x); [lia|done|done].
      * rewrite vget_vset_eq by lia.
        rewrite !Hn; [done | right | left]; apply desc_refl.
    + destruct (IH tr (2 * node + 2) (mid + 1) e H2) as (tr1 & -> & Hl & Hfr & Hr);
        [lia..|]. simpl. eexists; split; [done|].
      rewrite zlen_vset. split; [done|]. split.
      { intros x Hx. rewrite vget_vset_ne.
        - apply Hfr. intros Hd. by apply Hx, desc_right.
        - intros ->. apply Hx, desc_refl. }
      assert (Hn : ∀ x, desc (2 * node + 1) x ∨ desc (2 * node + 2) x →
                        vget (vset tr1 node
                          (SegmentTree.combine (vget tr1 (2 * node + 1))
                             (vget tr1 (2 * node + 2)))) x = vget tr1 x).
      { intros x Hx. apply vget_vset_ne. intros Exn. subst x.
        eapply (desc_child_neq node node); [lia|exact Hx|done]. }
      apply seg_node; [lia | rewrite zlen_vset; lia | | |].
      * eapply seg_rep_frame; [| rewrite zlen_vset; exact Hl |].
        { eapply seg_rep_ext; [exact H1|]. intros i Hi'.
          apply vget_vset_ne. lia. }
        intros x Hx. rewrite Hn by (by left). apply Hfr.
        intros Hd. eapply (desc_disjoint node x); [lia|done|done].
      * eapply seg_rep_frame; [exact Hr | by rewrite zlen_vset |].
        intros x Hx. apply Hn. by right.
      * rewrite vget_vset_eq by lia.
        rewrite !Hn; [done | right | left]; apply desc_refl.
Qed.

Lemma build_rec_spec fuel arr m P node s e tr :
  zlen tr = 4 * m →
  1 <= P <= 2 * m → P <= node + 1 < 2 * P → (e - s) * P < m →
  0 <= s <= e → (Z.to_nat (e - s) < fuel)%nat →
  ∃ tr', SegmentTree.build_rec fuel arr node s e tr = Some tr'
       ∧ zlen tr' = zlen tr
       ∧ (∀ x, ¬ desc node x → vget tr' x = vget tr x)
       ∧ seg_rep tr' arr node s e.
Proof.
  revert P node s e tr.
  induction fuel as [|f IH]; intros P node s e tr Hl HP Hn Hsz Hse Hf; [lia|].
  simpl. destruct (s =? e) eqn:E.
  - apply Z.eqb_eq in E as <-. eexists; split; [done|].
    rewrite zlen_vset. split; [done|]. split.
    + intros x Hx. apply vget_vset_ne. intros Exn. subst x.
      apply Hx, desc_refl.
    + apply seg_leaf; [rewrite zlen_vset; lia|].
      rewrite vget_vset_eq by lia. done.
  - apply Z.eqb_neq in E. rewrite quot2 by lia.
    set (mid := (s + e) `div` 2) in *.
    assert (s <= mid < e) by (subst mid; Z.div_mod_to_equations; lia).
    assert (2 * (mid - s) <= e - s)
      by (subst mid; Z.div_mod_to_equations; lia).
    assert (2 * (e - (mid + 1)) <= e - s)
      by (subst mid; Z.div_mod_to_equations; lia).
    assert (P <= (e - s) * P) by nia.
    destruct (IH (2 * P) (2 * node + 1) s mid tr)
      as (tr1 & -> & Hl1 & Hfr1 & Hr1); [lia | lia | lia | nia | lia | lia |].
    simpl.
    destruct (IH (2 * P) (2 * node + 2) (mid + 1) e tr1)
      as (tr2 & -> & Hl2 & Hfr2 & Hr2); [lia | lia | lia | nia | lia | lia |].
    simpl. eexists; split; [done|].
    rewrite zlen_vset. split; [lia|]. split.
    { intros x Hx. rewrite vget_vset_ne.
      - rewrite Hfr2, Hfr1; [done | |]; intros Hd; apply Hx;
          [by apply desc_left | by apply desc_right].
      - intros Exn. subst x. apply Hx, desc_refl. }
    assert (Hnode : ∀ x, desc (2 * node + 1) x ∨ desc (2 * node + 2) x →
                      vget (vset tr2 node
                        (SegmentTree.combine (vget tr2 (2 * node + 1))
                           (vget tr2 (2 * node + 2)))) x = vget tr2 x).
    { intros x Hx. apply vget_vset_ne. intros Exn. subst x.
      eapply (desc_child_neq node node); [lia|exact Hx|done]. }
    apply seg_node; [lia | rewrite zlen_vset; lia | | |].
    + eapply seg_rep_frame; [exact Hr1 | rewrite zlen_vset; lia |].
      intros x Hx. rewrite Hnode by (by left). apply Hfr2.
      intros Hd. eapply (desc_disjoint node x); [lia|done|done].
    + eapply seg_rep_frame; [exact Hr2 | by rewrite zlen_vset |].
      intros x Hx. apply Hnode. by right.
    + rewrite vget_vset_eq by lia.
      rewrite !Hnode; [done | right | left]; apply desc_refl.
Qed.

Lemma zlen_replicate {A} (k : Z) (x : A) :
  0 <= k → zlen (replicate (Z.to_nat k) x) = k.
Proof. intros. unfold zlen. rewrite length_replicate. lia. Qed.

Lemma build_from_mapped_values_ok st a :
  1 <= SegmentTree.n st →
  zlen (SegmentTree.tree st) = 4 * SegmentTree.n st →
  zlen a = SegmentTree.n st → ints a →
  ∃ st', SegmentTree.build_from_mapped_values st a = Some st'
         ∧ SegmentTree.n st' = SegmentTree.n st ∧ st_ok st' a.
Proof.
  intros Hn Hl Ha Hi. unfold SegmentTree.build_from_mapped_values.
  destruct a as [|x a']; [unfold zlen in Ha; simpl in Ha; lia|].
  destruct (build_rec_spec (SegmentTree.fuel_of st) (x :: a')
              (SegmentTree.n st) 1 0 0 (SegmentTree.n st - 1)
              (SegmentTree.tree st)) as (tr & -> & ? & ? & ?);
    [done | lia | lia | lia | lia | unfold SegmentTree.fuel_of; lia |].
  simpl. eexists; split; [done|]. split; [done|].
  unfold st_ok; simpl. done.
Qed.

Lemma ints_vset a i x : ints a → Int.in_range x → ints (vset a i x).
Proof.
  intros Ha Hx j. destruct (decide (i = j)) as [->|].
  - unfold vset, vget. repeat case_decide; try apply Ha; try done.
    destruct (decide (Z.to_nat j < length a)%nat).
    + rewrite list_lookup_insert_eq by done. done.
    + rewrite list_insert_ge by lia. specialize (Ha j).
      unfold vget in Ha. by rewrite decide_True in Ha.
  - by rewrite vget_vset_ne.
Qed.

Lemma update_ok st a idx val :
  st_ok st a → 0 <= idx < SegmentTree.n st → Int.in_range val →
  ∃ st', SegmentTree.update st idx val = Some st'
         ∧ st_ok st' (vset a idx val).
Proof.
  intros (Hn & Hl & Hi & Hr) Hidx Hv. unfold SegmentTree.update.
  destruct (update_rec_spec (SegmentTree.fuel_of st) (SegmentTree.tree st) a
              0 0 (SegmentTree.n st - 1) idx val)
    as (tr & -> & ? & ? & ?);
    [done | lia | lia | lia | unfold SegmentTree.fuel_of; lia |].
  simpl. eexists; split; [done|].
  unfold st_ok; simpl. rewrite zlen_vset. auto using ints_vset.
Qed.

Lemma query_ok st a l r :
  st_ok st a → 0 <= l → r < SegmentTree.n st →
  SegmentTree.query st l r = Some (Int.wrap (rsum a l r)).
Proof.
  intros (Hn & Hl & Hi & Hr) H0 H1. unfold SegmentTree.query.
  destruct (l >? r) eqn:E.
  - rewrite rsum_empty by lia. done.
  - erewrite query_rec_spec; [| done | done | lia |
      unfold SegmentTree.fuel_of; lia].
    do 3 f_equal; lia.
Qed.

(** ** Rooted trees *)

Lemma rtree_ind' (P : rtree → Prop) :
  (∀ u ks, Forall P ks → P (RNode u ks)) → ∀ t, P t.
Proof.
  intros H. fix IH 1. intros [u ks]. apply H.
  induction ks as [|k ks IHks]; constructor; [apply IH | apply IHks].
Qed.

Lemma nodes_unfold u ks : nodes (RNode u ks) = u :: knodes ks.
Proof. done. Qed.

Lemma knodes_cons k ks : knodes (k :: ks) = nodes k ++ knodes ks.
Proof. done. Qed.

Lemma rid_in_nodes t : rid t ∈ nodes t.
Proof. destruct t. simpl. left. Qed.

Lemma tsize_pos t : 1 <= tsize t.
Proof. destruct t. unfold tsize, zlen. simpl. lia. Qed.

Lemma zlen_knodes ks : zlen (knodes ks) = sumZ (tsize <$> ks).
Proof.
  induction ks as [|k ks IH]; [done|].
  rewrite knodes_cons.
  change (sumZ (tsize <$> k :: ks)) with (tsize k + sumZ (tsize <$> ks)).
  rewrite <- IH. unfold tsize, zlen. rewrite length_app. lia.
Qed.

Lemma tsize_node u ks : tsize (RNode u ks) = 1 + sumZ (tsize <$> ks).
Proof.
  rewrite <- zlen_knodes. unfold tsize. rewrite nodes_unfold.
  unfold zlen. simpl. lia.
Qed.

Lemma sumZ_tsize_nonneg ks : 0 <= sumZ (tsize <$> ks).
Proof.
  induction ks as [|k ks IH]; [done|].
  change (sumZ (tsize <$> k :: ks)) with (tsize k + sumZ (tsize <$> ks)).
  pose proof (tsize_pos k). lia.
Qed.

Lemma nodes_kid_subseteq k ks : k ∈ ks → nodes k ⊆ knodes ks.
Proof.
  intros Hk x Hx. unfold knodes. apply list_elem_of_bind. eauto.
Qed.

Lemma elem_of_knodes x ks : x ∈ knodes ks ↔ ∃ k, k ∈ ks ∧ x ∈ nodes k.
Proof.
  unfold knodes. rewrite list_elem_of_bind. split.
  - intros (k & ? & ?). eauto.
  - intros (k & ? & ?). eauto.
Qed.

(** ** The first pass *)

Lemma step1_refl s X : step1 s s X.
Proof. done. Qed.

Lemma step1_trans s1 s2 s3 X Y Z :
  step1 s1 s2 X → step1 s2 s3 Y → X ⊆ Z → Y ⊆ Z → step1 s1 s3 Z.
Proof.
  intros (? & ? & H1) (? & ? & H2) HX HY. split; [congruence|].
  split; [congruence|]. intros x Hx.
  rewrite H2, H1; [done | |]; intros Hin; apply Hx; [by apply HX | by apply HY].
Qed.

Lemma dfs1_post_frame s s' t :
  ∀ p d, dfs1_post s p d t →
  (∀ x, x ∈ nodes t → view1 s' x = view1 s x) →
  dfs1_post s' p d t.
Proof.
  induction t as [u ks IH] using rtree_ind'. intros p d H Hv.
  inversion H as [? ? ? ? Hu Hks]; subst. constructor.
  - rewrite Hv; [done|]. apply (rid_in_nodes (RNode u ks)).
  - rewrite Forall_forall in IH, Hks. apply Forall_forall. intros k Hk.
    apply IH; [done | by apply Hks |].
    intros x Hx. apply Hv. rewrite nodes_unfold. right.
    by eapply nodes_kid_subseteq.
Qed.

Lemma dfs1_loop_filter rec u p d vs mx s :
  HLD.dfs1_loop rec u p d vs mx s
  = HLD.dfs1_loop rec u p d (filter (λ v, v ≠ p) vs) mx s.
Proof.
  revert mx s. induction vs as [|v vs IH]; intros mx s; [done|].
  rewrite filter_cons. simpl. destruct (v =? p) eqn:E.
  - apply Z.eqb_eq in E. rewrite decide_False by (intros ?; done). apply IH.
  - apply Z.eqb_neq in E. rewrite decide_True by done. simpl.
    apply Z.eqb_neq in E. rewrite E.
    destruct (rec v u (d + 1) s) as [s1|]; [|done]. simpl.
    case_match; apply IH.
Qed.

Lemma dfs1_post_root s p d t :
  dfs1_post s p d t →
  view1 s (rid t) = (p, d, tsize t, pick_heavy (rkids t) (-1) 0).
Proof. by destruct 1. Qed.

Lemma step1_at s s' u :
  rest1 s' = rest1 s → lens1 s' = lens1 s →
  (∀ x, x ≠ u → view1 s' x = view1 s x) → step1 s s' [u].
Proof.
  intros ? ? H. split; [done|]. split; [done|].
  intros x Hx. apply H. intros ->. apply Hx. left.
Qed.

Lemma step1_adj s s' X : step1 s s' X → HLD.adj s' = HLD.adj s.
Proof. intros (H & _). unfold rest1 in H. congruence. Qed.

Lemma step1_lens s s' X : step1 s s' X → lens1 s' = lens1 s.
Proof. by intros (_ & H & _). Qed.

Lemma step1_view s s' X x : step1 s s' X → x ∉ X → view1 s' x = view1 s x.
Proof. intros (_ & _ & H). apply H. Qed.

Lemma dfs1_loop_spec n f u p d ks :
  Forall (dfs1_ok n f) ks →
  ∀ s mx,
    Forall (shape (HLD.adj s) u) ks →
    NoDup (u :: knodes ks) →
    (∀ x, x ∈ knodes ks → 0 <= x < n) → 0 <= u < n →
    lens1 s = (n, n, n, n) →
    (∀ x, x ∈ knodes ks → vget (HLD.heavy_child s) x = -1) →
    Forall (λ k, rid k ≠ p) ks →
    ∃ s', HLD.dfs1_loop (HLD.dfs1_size_depth_parent f) u p d (rid <$> ks) mx s
          = Some s'
        ∧ step1 s s' (u :: knodes ks)
        ∧ view1 s' u = (vget (HLD.parent s) u, vget (HLD.depth s) u,
                        vget (HLD.subtree_size s) u + sumZ (tsize <$> ks),
                        pick_heavy ks (vget (HLD.heavy_child s) u) mx)
        ∧ Forall (dfs1_post s' u (d + 1)) ks.
Proof.
  induction 1 as [|k ks Hk Hks IH]; intros s mx Hsh Hnd Hrg Hu Hlen Hhv Hp.
  { exists s. split; [done|]. split; [apply step1_refl|]. split; [|done].
    unfold view1. simpl. do 2 f_equal. lia. }
  rewrite knodes_cons in *.
  apply NoDup_cons in Hnd as [Hu_notin Hnd].
  apply NoDup_app in Hnd as (Hndk & Hdisj & Hndks).
  rewrite not_elem_of_app in Hu_notin. destruct Hu_notin as [Huk Huks].
  inversion Hsh as [|? ? Hshk Hshks]; subst.
  inversion Hp as [|? ? Hpk Hpks]; subst.
  simpl. rewrite (proj2 (Z.eqb_neq _ _) Hpk).
  destruct (Hk u (d + 1) s) as (s1 & -> & Hst1 & Hpost1); [done | done | | done | |].
  { intros x Hx. apply Hrg. apply elem_of_app. by left. }
  { intros x Hx. apply Hhv. apply elem_of_app. by left. }
  simpl.
  pose proof (dfs1_post_root _ _ _ _ Hpost1) as Hroot.
  pose proof (step1_view _ _ _ u Hst1 Huk) as Hu1.
  pose proof (step1_lens _ _ _ Hst1) as Hlen1. rewrite Hlen in Hlen1.
  assert (Hne : u ≠ rid k).
  { intros ->. apply Huk, rid_in_nodes. }
  unfold view1 in Hroot, Hu1. unfold lens1 in Hlen1.
  injection Hroot as Hr1 Hr2 Hr3 Hr4. injection Hu1 as Hu1 Hu2 Hu3 Hu4.
  injection Hlen1 as Hl1 Hl2 Hl3 Hl4.
  rewrite vget_vset_ne by done. rewrite Hr3.
  set (s2 := HLD.with_subtree_size s1
               (vset (HLD.subtree_size s1) u
                  (vget (HLD.subtree_size s1) u + tsize k))).
  set (s3 := if tsize k >? mx
             then HLD.with_heavy_child s2 (vset (HLD.heavy_child s2) u (rid k))
             else s2).
  set (mx' := if tsize k >? mx then tsize k else mx).
  assert (Hst3 : step1 s1 s3 [u]).
  { apply step1_at.
    - subst s3 s2. by destruct (tsize k >? mx).
    - subst s3 s2. unfold lens1.
      destruct (tsize k >? mx); simpl; rewrite ?zlen_vset; done.
    - intros x Hx. subst s3 s2. unfold view1.
      destruct (tsize k >? mx); simpl; rewrite ?vget_vset_ne by done; done. }
  assert (Hgoal : ∃ s', HLD.dfs1_loop (HLD.dfs1_size_depth_parent f) u p d
                          (rid <$> ks) mx' s3 = Some s'
        ∧ step1 s s' (u :: nodes k ++ knodes ks)
        ∧ view1 s' u = (vget (HLD.parent s) u, vget (HLD.depth s) u,
                        vget (HLD.subtree_size s) u
                          + sumZ (tsize <$> k :: ks),
                        if tsize k >? mx then pick_heavy ks (rid k) (tsize k)
                        else pick_heavy ks (vget (HLD.heavy_child s) u) mx)
        ∧ Forall (dfs1_post s' u (d + 1)) (k :: ks)).
  2:{ subst s3 mx'. destruct (tsize k >? mx); exact Hgoal. }
  destruct (IH s3 mx') as (s' & Hrun & Hst' & Hview' & Hposts).
  { erewrite step1_adj, step1_adj; done. }
  { by apply NoDup_cons. }
  { intros x Hx. apply Hrg, elem_of_app. by right. }
  { done. }
  { erewrite step1_lens by done. unfold lens1. congruence. }
  { intros x Hx.
    assert (x ≠ u) by (intros ->; done).
    assert (x ∉ nodes k) by (intros ?; by eapply Hdisj).
    pose proof (step1_view _ _ _ x Hst3) as E3.
    pose proof (step1_view _ _ _ x Hst1) as E1.
    unfold view1 in E1, E3.
    rewrite not_elem_of_cons in E3.
    specialize (E3 (conj H (not_elem_of_nil _))). specialize (E1 H0).
    injection E1 as _ _ _ E1. injection E3 as _ _ _ E3.
    rewrite E3, E1. apply Hhv, elem_of_app. by right. }
  { done. }
  exists s'. split; [done|]. split; [|split].
  - eapply step1_trans; [|exact Hst'| |].
    + eapply step1_trans; [exact Hst1 | exact Hst3 | |];
        intros x Hx; [right; apply elem_of_app; by left|].
      apply list_elem_of_singleton in Hx as ->. left.
    + done.
    + intros x Hx. apply elem_of_cons in Hx as [->|Hx]; [left|].
      right. apply elem_of_app. by right.
  - rewrite Hview'.
    change (sumZ (tsize <$> k :: ks)) with (tsize k + sumZ (tsize <$> ks)).
    simpl. subst s3 s2 mx'. unfold view1 in *.
    destruct (tsize k >? mx); simpl;
      rewrite ?vget_vset_eq, ?vget_vset_ne by (done || lia);
      rewrite ?Hu1, ?Hu2, ?Hu3, ?Hu4, ?Z.add_assoc; done.
  - constructor; [|done].
    eapply dfs1_post_frame; [exact Hpost1|].
    intros x Hx.
    assert (x ≠ u) by (intros ->; done).
    rewrite (step1_view _ _ _ x Hst'), (step1_view _ _ _ x Hst3); [done | |].
    + rewrite not_elem_of_cons. split; [done | apply not_elem_of_nil].
    + rewrite not_elem_of_cons. split; [done|]. by apply Hdisj.
Qed.

Lemma tsize_kid_le k u ks : k ∈ ks → tsize k < tsize (RNode u ks).
Proof.
  intros Hk. rewrite tsize_node.
  induction ks as [|k' ks IH]; [by apply elem_of_nil in Hk|].
  change (sumZ (tsize <$> k' :: ks)) with (tsize k' + sumZ (tsize <$> ks)).
  pose proof (tsize_pos k'). pose proof (sumZ_tsize_nonneg ks).
  apply elem_of_cons in Hk as [->|Hk]; [lia|]. specialize (IH Hk). lia.
Qed.

Lemma dfs1_spec n t : ∀ f, (Z.to_nat (tsize t) ≤ f)%nat → dfs1_ok n f t.
Proof.
  induction t as [u ks IH] using rtree_ind'. intros f Hf.
  pose proof (tsize_pos (RNode u ks)).
  destruct f as [|f]; [lia|].
  intros p d s Hsh Hnd Hrg Hlen Hhv.
  inversion Hsh as [? ? ? Hfil Hshks]; subst.
  rewrite nodes_unfold in *. fold (knodes ks) in *.
  cbn [HLD.dfs1_size_depth_parent rid].
  set (s0 := HLD.with_subtree_size _ _).
  assert (Hu : 0 <= u < n) by (apply Hrg; left).
  unfold lens1 in Hlen. injection Hlen as Hl1 Hl2 Hl3 Hl4.
  assert (Hst0 : step1 s s0 [u]).
  { apply step1_at; [done | |].
    - subst s0. unfold lens1. simpl. by rewrite !zlen_vset.
    - intros x Hx. subst s0. unfold view1. simpl.
      by rewrite !vget_vset_ne by done. }
  rewrite dfs1_loop_filter.
  replace (HLD.adj s0) with (HLD.adj s) by done. rewrite Hfil.
  destruct (dfs1_loop_spec n f u p d ks) with (s := s0) (mx := 0)
    as (s' & Hrun & Hst' & Hview & Hposts).
  { rewrite Forall_forall in IH. apply Forall_forall. intros k Hk.
    apply IH; [done|]. pose proof (tsize_kid_le k u ks Hk). lia. }
  { done. }
  { done. }
  { intros x Hx. apply Hrg. by right. }
  { done. }
  { subst s0. unfold lens1. simpl. rewrite !zlen_vset. congruence. }
  { intros x Hx. subst s0. simpl. apply Hhv. by right. }
  { apply Forall_forall. intros k Hk.
    assert (rid k ∈ filter (λ v, v ≠ p) (aget (HLD.adj s) u)) as Hin.
    { rewrite Hfil. by apply list_elem_of_fmap_2. }
    by apply list_elem_of_filter in Hin as [? _]. }
  exists s'. split; [done|]. split.
  - eapply step1_trans; [exact Hst0 | exact Hst' | | done].
    intros x Hx. apply list_elem_of_singleton in Hx as ->. left.
  - constructor; [|done]. rewrite Hview, tsize_node. subst s0. simpl.
    rewrite !vget_vset_eq by lia. rewrite Hhv by left. done.
Qed.

(** ** The second pass *)

Lemma step2_refl s X : step2 s s X.
Proof. done. Qed.

Lemma step2_trans s1 s2 s3 X Y Z :
  step2 s1 s2 X → step2 s2 s3 Y → X ⊆ Z → Y ⊆ Z → step2 s1 s3 Z.
Proof.
  intros (? & ? & H1) (? & ? & H2) HX HY. split; [congruence|].
  split; [congruence|]. intros x Hx.
  rewrite H2, H1; [done | |]; intros Hin; apply Hx; [by apply HX | by apply HY].
Qed.

Lemma step2_view1 s s' X x : step2 s s' X → view1 s' x = view1 s x.
Proof. intros (H & _). unfold rest2 in H. unfold view1. congruence. Qed.

Lemma step2_adj s s' X : step2 s s' X → HLD.adj s' = HLD.adj s.
Proof. intros (H & _). unfold rest2 in H. congruence. Qed.

Lemma step2_lens s s' X : step2 s s' X → lens2 s' = lens2 s.
Proof. by intros (_ & H & _). Qed.

Lemma step2_view s s' X x : step2 s s' X → x ∉ X → view2 s' x = view2 s x.
Proof. intros (_ & _ & H). apply H. Qed.

Lemma offsets_app c l1 l2 :
  offsets c (l1 ++ l2)
  = offsets c l1 ++ offsets (c + sumZ ((λ e, tsize e.2) <$> l1)) l2.
Proof.
  revert c. induction l1 as [|e l1 IH]; intros c.
  - simpl. f_equal. lia.
  - rewrite fmap_cons. change (offsets c ((e :: l1) ++ l2))
      with ((c, e) :: offsets (c + tsize e.2) (l1 ++ l2)).
    rewrite IH. simpl. do 3 f_equal. lia.
Qed.

Lemma elem_of_offsets c l e :
  e ∈ offsets c l → e.2 ∈ l.
Proof.
  revert c. induction l as [|e' l IH]; intros c; simpl.
  - intros H. by apply elem_of_nil in H.
  - intros [->|H]%elem_of_cons; [left|right; eauto].
Qed.

Lemma elem_of_visit_order h ks e :
  e ∈ visit_order h ks → e.2 ∈ ks.
Proof.
  unfold visit_order. intros [H|H]%elem_of_app.
  - apply list_elem_of_fmap in H as (k & -> & Hk).
    by apply list_elem_of_filter in Hk as [_ ?].
  - apply list_elem_of_fmap in H as (k & -> & Hk).
    by apply list_elem_of_filter in Hk as [_ ?].
Qed.

Lemma dfs2_post_frame s s' t :
  ∀ h c, dfs2_post s h c t →
  (∀ x, x ∈ nodes t → view2 s' x = view2 s x) →
  dfs2_post s' h c t.
Proof.
  induction t as [u ks IH] using rtree_ind'. intros h c H Hv.
  inversion H as [? ? ? ? Hu Hks]; subst. constructor.
  - rewrite Hv; [done|]. apply (rid_in_nodes (RNode u ks)).
  - rewrite Forall_forall in IH. rewrite Forall_forall in Hks.
    apply Forall_forall. intros e He.
    assert (e.2.2 ∈ ks) as Hk.
    { eapply elem_of_visit_order, elem_of_offsets, He. }
    apply IH; [done | by apply Hks |].
    intros x Hx. apply Hv. rewrite nodes_unfold. right.
    by eapply nodes_kid_subseteq.
Qed.

Lemma pick_heavy_in ks h mx :
  pick_heavy ks h mx = h ∨ ∃ k, k ∈ ks ∧ pick_heavy ks h mx = rid k.
Proof.
  revert h mx. induction ks as [|k ks IH]; intros h mx; simpl; [by left|].
  destruct (tsize k >? mx).
  - right. destruct (IH (rid k) (tsize k)) as [->|(k' & ? & ->)].
    + exists k. split; [left|done].
    + exists k'. split; [by right|done].
  - destruct (IH h mx) as [->|(k' & ? & ->)]; [by left|].
    right. exists k'. split; [by right|done].
Qed.

Lemma heavy_id_in ks :
  (ks = [] ∧ heavy_id ks = -1) ∨ ∃ k, k ∈ ks ∧ heavy_id ks = rid k.
Proof.
  unfold heavy_id. destruct ks as [|k ks]; [by left|]. right. simpl.
  pose proof (tsize_pos k). rewrite (proj2 (Z.gtb_gt _ _)) by lia.
  destruct (pick_heavy_in ks (rid k) (tsize k)) as [->|(k' & ? & ->)].
  - exists k. split; [left|done].
  - exists k'. split; [by right|done].
Qed.

Lemma NoDup_rids ks : NoDup (knodes ks) → NoDup (rid <$> ks).
Proof.
  induction ks as [|k ks IH]; [constructor|].
  rewrite knodes_cons, fmap_cons. intros (Hk & Hd & Hks)%NoDup_app.
  apply NoDup_cons. split; [|by apply IH].
  intros (k' & Hr & Hk')%list_elem_of_fmap.
  apply (Hd (rid k)); [apply rid_in_nodes|].
  apply elem_of_knodes. exists k'. split; [done|]. rewrite Hr.
  apply rid_in_nodes.
Qed.

Lemma filter_none {A} (P : A → Prop) `{!∀ x, Decision (P x)} (l : list A) :
  (∀ x, x ∈ l → ¬ P x) → filter P l = [].
Proof.
  induction l as [|x l IH]; intros Hall; [done|].
  rewrite filter_cons_False by (apply Hall; left).
  apply IH. intros y Hy. apply Hall. by right.
Qed.

Lemma filter_rid_unique ks k :
  NoDup (rid <$> ks) → k ∈ ks → filter (λ k', rid k' = rid k) ks = [k].
Proof.
  induction ks as [|k0 ks IH]; [by intros _ ?%elem_of_nil|].
  rewrite fmap_cons. intros [Hn Hnd]%NoDup_cons [->|Hk]%elem_of_cons.
  - rewrite filter_cons_True by done. f_equal.
    apply filter_none. intros k' Hk' Hr. apply Hn. rewrite <- Hr.
    by apply list_elem_of_fmap_2.
  - rewrite filter_cons_False; [by apply IH|].
    intros Hr. apply Hn. rewrite Hr. by apply list_elem_of_fmap_2.
Qed.

Lemma sumZ_filter_split {A} (P Q : A → Prop)
    `{!∀ x, Decision (P x)} `{!∀ x, Decision (Q x)} (g : A → Z) (l : list A) :
  (∀ x, Q x ↔ ¬ P x) →
  sumZ (g <$> filter P l) + sumZ (g <$> filter Q l) = sumZ (g <$> l).
Proof.
  intros HPQ. induction l as [|x l IH]; [done|].
  rewrite !filter_cons. destruct (decide (P x)).
  - rewrite decide_False by (rewrite HPQ; tauto).
    rewrite !fmap_cons. simpl in *. lia.
  - rewrite decide_True by (by rewrite HPQ).
    rewrite !fmap_cons. simpl in *. lia.
Qed.

Lemma NoDup_kid ks k : NoDup (knodes ks) → k ∈ ks → NoDup (nodes k).
Proof.
  induction ks as [|k0 ks IH]; [by intros _ ?%elem_of_nil|].
  rewrite knodes_cons. intros (H0 & _ & Hks)%NoDup_app.
  intros [->|Hk]%elem_of_cons; [done | by apply IH].
Qed.

Lemma knodes_filter_subseteq (P : rtree → Prop) `{!∀ x, Decision (P x)} ks :
  knodes (filter P ks) ⊆ knodes ks.
Proof.
  intros x (k & Hk & Hx)%elem_of_knodes. apply elem_of_knodes.
  apply list_elem_of_filter in Hk as [_ Hk]. eauto.
Qed.

Lemma knodes_disjoint ks k k' x :
  NoDup (knodes ks) → k ∈ ks → k' ∈ ks → rid k ≠ rid k' →
  x ∈ nodes k → x ∈ nodes k' → False.
Proof.
  induction ks as [|k0 ks IH]; [by intros _ ?%elem_of_nil|].
  rewrite knodes_cons. intros (H0 & Hd & Hks)%NoDup_app.
  intros [->|Hk]%elem_of_cons [->|Hk']%elem_of_cons Hne Hx Hx'.
  - done.
  - apply (Hd x Hx). apply elem_of_knodes. eauto.
  - apply (Hd x Hx'). apply elem_of_knodes. eauto.
  - by apply IH.
Qed.

Lemma dfs1_post_step2 s s' X p d t :
  step2 s s' X → dfs1_post s p d t → dfs1_post s' p d t.
Proof.
  intros Hst H. eapply dfs1_post_frame; [exact H|].
  intros x _. by eapply step2_view1.
Qed.

Lemma dfs2_loop_spec n f u p d hv vs :
  ∀ ks s,
    filter (λ v, v ≠ p) vs = rid <$> ks →
    Forall (dfs2_ok n f) ks →
    vget (HLD.parent s) u = p → vget (HLD.heavy_child s) u = hv →
    Forall (shape (HLD.adj s) u) ks →
    Forall (dfs1_post s u (d + 1)) ks →
    NoDup (knodes ks) → (∀ x, x ∈ knodes ks → 0 <= x < n) →
    lens2 s = (n, n) →
    ∃ s', HLD.dfs2_loop (HLD.dfs2_hld f) u vs s = Some s'
        ∧ step2 s s' (knodes (lights_of hv ks))
        ∧ HLD.cur_pos s' = HLD.cur_pos s + sumZ (tsize <$> lights_of hv ks)
        ∧ Forall (λ e, dfs2_post s' e.2.1 e.1 e.2.2)
            (offsets (HLD.cur_pos s) (own_head <$> lights_of hv ks)).
Proof.
  induction vs as [|v vs IH];
    intros ks s Hfil Hok Hpar Hhv Hsh Hp1 Hnd Hrg Hlen.
  { symmetry in Hfil. apply fmap_nil_inv in Hfil as ->.
    exists s. split; [done|]. split; [apply step2_refl|].
    split; [simpl; lia | constructor]. }
  rewrite filter_cons in Hfil. simpl HLD.dfs2_loop. rewrite Hpar, Hhv.
  destruct (decide (v ≠ p)) as [Hvp|Hvp].
  2:{ assert (v = p) as -> by (destruct (decide (v = p)); tauto).
      rewrite Z.eqb_refl. simpl. by eapply IH. }
  destruct ks as [|k ks]; [done|]. rewrite fmap_cons in Hfil.
  injection Hfil as Hv Hfil. subst v.
  rewrite (proj2 (Z.eqb_neq _ _) Hvp). simpl.
  rewrite knodes_cons in *.
  apply NoDup_app in Hnd as (Hndk & Hdisj & Hndks).
  apply Forall_cons in Hok as [Hokk Hoks].
  apply Forall_cons in Hsh as [Hshk Hshks].
  apply Forall_cons in Hp1 as [Hp1k Hp1ks].
  destruct (rid k =? hv) eqn:E.
  { apply Z.eqb_eq in E.
    unfold lights_of. rewrite filter_cons_False by tauto.
    apply IH; try done. intros x Hx. apply Hrg, elem_of_app. by right. }
  apply Z.eqb_neq in E.
  unfold lights_of. rewrite filter_cons_True by done.
  fold (lights_of hv ks).
  destruct (Hokk u (d + 1) (rid k) s) as (s1 & -> & Hst1 & Hc1 & Hpost1);
    [done | done | done | | done |].
  { intros x Hx. apply Hrg, elem_of_app. by left. }
  simpl.
  destruct (IH ks s1) as (s' & Hrun & Hst' & Hc' & Hposts); try done.
  { pose proof (step2_view1 _ _ _ u Hst1) as Hv. unfold view1 in Hv. congruence. }
  { pose proof (step2_view1 _ _ _ u Hst1) as Hv. unfold view1 in Hv. congruence. }
  { erewrite step2_adj by done. done. }
  { eapply Forall_impl; [exact Hp1ks|]. intros k' ?.
    by eapply dfs1_post_step2. }
  { intros x Hx. apply Hrg, elem_of_app. by right. }
  { erewrite step2_lens by done. done. }
  exists s'. split; [done|]. split; [|split].
  - eapply step2_trans; [exact Hst1 | exact Hst' | |]; intros x Hx;
      apply elem_of_app; [by left | by right].
  - rewrite Hc', Hc1. symmetry. apply Z.add_assoc.
  - simpl. constructor.
    + simpl. eapply dfs2_post_frame; [exact Hpost1|].
      intros x Hx. eapply step2_view; [exact Hst'|].
      intros Hin. apply knodes_filter_subseteq in Hin. by eapply Hdisj.
    + rewrite <- Hc1. done.
Qed.

Lemma dfs2_spec n t : ∀ f, (Z.to_nat (tsize t) ≤ f)%nat → dfs2_ok n f t.
Proof.
  induction t as [u ks IH] using rtree_ind'. intros f Hf.
  pose proof (tsize_pos (RNode u ks)).
  destruct f as [|f]; [lia|].
  intros p d h s Hsh Hp1 Hnd Hrg Hlen.
  inversion Hsh as [? ? ? Hfil Hshks]. inversion Hp1 as [? ? ? ? Hv1 Hp1ks].
  clear Hsh Hp1. simplify_eq.
  rewrite nodes_unfold in *. fold (knodes ks) in *.
  apply NoDup_cons in Hnd as [Hu_notin Hndks].
  assert (Hu : 0 <= u < n) by (apply Hrg; left).
  unfold lens2 in Hlen. injection Hlen as Hl1 Hl2.
  unfold view1 in Hv1. injection Hv1 as Hv1 Hv2 Hv3 Hv4.
  assert (Hoks : Forall (dfs2_ok n f) ks).
  { rewrite Forall_forall in IH. apply Forall_forall. intros k Hk.
    apply IH; [done|]. pose proof (tsize_kid_le k u ks Hk). lia. }
  clear IH.
  cbn [HLD.dfs2_hld rid].
  set (s0 := HLD.with_cur_pos _ _).
  assert (Hst0 : step2 s s0 [u]).
  { split; [done|]. split.
    - subst s0. unfold lens2. simpl. by rewrite !zlen_vset.
    - intros x Hx. subst s0. unfold view2. simpl.
      rewrite !vget_vset_ne; [done | |]; intros ->; apply Hx; left. }
  assert (Hc0 : HLD.cur_pos s0 = HLD.cur_pos s + 1) by done.
  assert (Hview0 : view2 s0 u = (h, HLD.cur_pos s)).
  { subst s0. unfold view2. simpl. by rewrite !vget_vset_eq by lia. }
  assert (Hheavy :
    ∃ s1, (if vget (HLD.heavy_child s0) u =? -1 then Some s0
           else HLD.dfs2_hld f (vget (HLD.heavy_child s0) u) h s0) = Some s1
        ∧ step2 s0 s1 (knodes (heavies ks))
        ∧ HLD.cur_pos s1 = HLD.cur_pos s0 + sumZ (tsize <$> heavies ks)
        ∧ Forall (λ e, dfs2_post s1 e.2.1 e.1 e.2.2)
            (offsets (HLD.cur_pos s0) ((λ k, (h, k)) <$> heavies ks))).
  { replace (vget (HLD.heavy_child s0) u) with (heavy_id ks) by done.
    destruct (heavy_id_in ks) as [[-> Hid]|(hk & Hhk & Hid)].
    - rewrite Hid. simpl. exists s0. split; [done|].
      split; [apply step2_refl|]. split; [lia | constructor].
    - assert (0 <= rid hk < n) as Hrk.
      { apply Hrg. right. apply elem_of_knodes. exists hk.
        split; [done | apply rid_in_nodes]. }
      rewrite Hid. rewrite (proj2 (Z.eqb_neq _ _)) by lia.
      unfold heavies. rewrite Hid.
      rewrite filter_rid_unique by (by apply NoDup_rids || done).
      rewrite Forall_forall in Hoks. rewrite Forall_forall in Hshks.
      rewrite Forall_forall in Hp1ks.
      destruct (Hoks hk Hhk u (d + 1) h s0) as (s1 & Hrun & Hst1 & Hc1 & Hpost1).
      + by apply Hshks.
      + eapply dfs1_post_step2; [exact Hst0|]. by apply Hp1ks.
      + by eapply NoDup_kid.
      + intros x Hx. apply Hrg. right. apply elem_of_knodes. eauto.
      + erewrite step2_lens by done. unfold lens2. congruence.
      + exists s1. split; [done|]. split.
        { unfold knodes. simpl. by rewrite app_nil_r. }
        split; [simpl; lia|]. simpl. constructor; [done | constructor]. }
  destruct Hheavy as (s1 & -> & Hst1 & Hc1 & Hposth). simpl.
  assert (Hst01 : step2 s s1 (u :: knodes ks)).
  { eapply step2_trans; [exact Hst0 | exact Hst1 | |]; intros x Hx.
    - apply list_elem_of_singleton in Hx as ->. left.
    - right. by eapply knodes_filter_subseteq. }
  erewrite (step2_adj _ s1) by done.
  destruct (dfs2_loop_spec n f u p d (heavy_id ks)
              (aget (HLD.adj s) u) ks s1)
    as (s' & Hrun & Hst' & Hc' & Hpostl).
  { done. }
  { done. }
  { pose proof (step2_view1 _ _ _ u Hst01) as Hv. unfold view1 in Hv. congruence. }
  { pose proof (step2_view1 _ _ _ u Hst01) as Hv. unfold view1 in Hv.
    unfold heavy_id. congruence. }
  { erewrite step2_adj by done. done. }
  { eapply Forall_impl; [exact Hp1ks|]. intros k' ?.
    by eapply dfs1_post_step2. }
  { done. }
  { intros x Hx. apply Hrg. by right. }
  { erewrite step2_lens by done. unfold lens2. congruence. }
  exists s'. split; [done|]. split; [|split].
  - eapply step2_trans; [exact Hst01 | exact Hst' | done |].
    intros x Hx. right. by eapply knodes_filter_subseteq.
  - rewrite Hc', Hc1, Hc0, tsize_node.
    rewrite <- (sumZ_filter_split (λ k, rid k = heavy_id ks)
                  (λ k, rid k ≠ heavy_id ks) tsize ks) by done.
    unfold heavies, lights_of. lia.
  - constructor.
    + rewrite <- Hview0.
      erewrite (step2_view _ s'), (step2_view _ s1); [done | done | | done |].
      * intros Hin. apply Hu_notin. by eapply knodes_filter_subseteq.
      * intros Hin. apply Hu_notin. by eapply knodes_filter_subseteq.
    + unfold visit_order. rewrite offsets_app. apply Forall_app. split.
      * rewrite <- Hc0. rewrite Forall_forall in Hposth.
        apply Forall_forall. intros e He.
        eapply dfs2_post_frame; [by apply Hposth|].
        intros x Hx. eapply step2_view; [exact Hst'|].
        apply elem_of_offsets, list_elem_of_fmap in He as (hk & He & Hhk).
        apply list_elem_of_filter in Hhk as [Hhk1 Hhk2].
        rewrite He in Hx. simpl in Hx.
        intros (k' & Hk' & Hx')%elem_of_knodes.
        apply list_elem_of_filter in Hk' as [Hk1 Hk2].
        eapply (knodes_disjoint ks hk k' x); try done. congruence.
      * rewrite <- list_fmap_compose. rewrite Hc1, Hc0 in Hpostl.
        exact Hpostl.
Qed.

(** ** Occurrences of nodes in the decorated tree *)

Lemma occ_trans c0 t c1 t1 c2 t2 :
  occ c0 t c1 t1 → occ c1 t1 c2 t2 → occ c0 t c2 t2.
Proof.
  intros H1 H2. induction H2; [done|]. eapply occ_step; [|done]. done.
Qed.

Lemma elem_of_offsets_inv c l hk :
  hk ∈ l → ∃ c', (c', hk) ∈ offsets c l.
Proof.
  revert c. induction l as [|e l IH]; intros c; [by intros ?%elem_of_nil|].
  intros [->|H]%elem_of_cons.
  - exists c. left.
  - destruct (IH (c + tsize e.2) H) as [c' ?]. exists c'. by right.
Qed.

Lemma visit_order_kid h ks k :
  k ∈ ks → ∃ h', (h', k) ∈ visit_order h ks.
Proof.
  intros Hk. unfold visit_order, heavies, lights_of.
  destruct (decide (rid k = heavy_id ks)).
  - exists h. apply elem_of_app. left.
    apply (list_elem_of_fmap_2 (λ k, (h, k))). by apply list_elem_of_filter.
  - exists (rid k). apply elem_of_app. right.
    apply (list_elem_of_fmap_2 own_head). by apply list_elem_of_filter.
Qed.

Lemma occ_exists c0 t x :
  x ∈ nodes t → ∃ c t', occ c0 t c t' ∧ rid t' = x.
Proof.
  revert c0. induction t as [u ks IH] using rtree_ind'. intros c0.
  rewrite nodes_unfold. intros [->|Hx]%elem_of_cons.
  { exists c0, (RNode u ks). split; [constructor | done]. }
  apply elem_of_knodes in Hx as (k & Hk & Hx).
  rewrite Forall_forall in IH.
  destruct c0 as [p d h c].
  destruct (visit_order_kid h ks k Hk) as [h' Hh'].
  destruct (elem_of_offsets_inv (c + 1) _ _ Hh') as [c' Hc'].
  destruct (IH k Hk (Ctx u (d + 1) h' c') Hx) as (cx & t' & Hocc & Hr).
  exists cx, t'. split; [|done].
  eapply occ_trans; [|exact Hocc].
  eapply occ_step; [constructor | exact Hc'].
Qed.

Lemma occ_laid s c0 t c t' : laid s c0 t → occ c0 t c t' → laid s c t'.
Proof.
  intros H0. induction 1 as [|p d h c u ks c' h' k Hocc IH Hin]; [done|].
  destruct IH as (Hsh & Hp1 & Hp2 & Hnd). simpl in *.
  inversion Hsh as [? ? ? Hfil Hshks]. inversion Hp1 as [? ? ? ? Hv1 Hp1ks].
  inversion Hp2 as [? ? ? ? Hv2 Hp2ks]. simplify_eq.
  assert (k ∈ ks) as Hk.
  { apply elem_of_offsets, elem_of_visit_order in Hin. done. }
  rewrite Forall_forall in Hshks. rewrite Forall_forall in Hp1ks.
  rewrite Forall_forall in Hp2ks.
  split; [by apply Hshks|]. split; [by apply Hp1ks|].
  split; [by apply (Hp2ks _ Hin)|].
  change (NoDup (u :: knodes ks)) in Hnd. apply NoDup_cons in Hnd as [_ Hnd].
  by eapply NoDup_kid.
Qed.

Lemma occ_nodes c0 t c t' : occ c0 t c t' → nodes t' ⊆ nodes t.
Proof.
  induction 1 as [|p d h c u ks c' h' k Hocc IH Hin]; [done|].
  intros x Hx. apply IH. rewrite nodes_unfold. right.
  apply elem_of_knodes. exists k. split; [|done].
  by apply elem_of_offsets, elem_of_visit_order in Hin.
Qed.

(** ** The order in which the second pass numbers the nodes *)

Lemma bind_filter {A B} (P : A → Prop) `{!∀ x, Decision (P x)}
    (g : A → list B) (l : list A) :
  filter P l ≫= g = l ≫= (λ x, if decide (P x) then g x else []).
Proof.
  induction l as [|x l IH]; [done|].
  rewrite filter_cons, (bind_cons _ x l). destruct (decide (P x)).
  - by rewrite bind_cons, IH.
  - by rewrite IH.
Qed.

Lemma order_unfold u ks : order (RNode u ks) = u :: (visit ks ≫= order).
Proof.
  unfold visit, heavies, lights_of. rewrite bind_app, !bind_filter. done.
Qed.

Lemma visit_order_snd h ks : snd <$> visit_order h ks = visit ks.
Proof.
  unfold visit_order, visit. rewrite fmap_app, <- !list_fmap_compose.
  f_equal; apply list_fmap_id.
Qed.

Lemma visit_perm ks : visit ks ≡ₚ ks.
Proof.
  unfold visit, heavies, lights_of.
  apply (filter_app_complement (λ k, rid k = heavy_id ks)).
Qed.

Lemma elem_of_visit k ks : k ∈ visit ks → k ∈ ks.
Proof. by rewrite visit_perm. Qed.

Lemma bind_perm_ext {A B} (g1 g2 : A → list B) (l : list A) :
  (∀ x, x ∈ l → g1 x ≡ₚ g2 x) → l ≫= g1 ≡ₚ l ≫= g2.
Proof.
  induction l as [|x l IH]; intros H; [done|].
  rewrite !bind_cons. apply Permutation_app.
  - apply H. left.
  - apply IH. intros y Hy. apply H. by right.
Qed.

Lemma order_perm t : order t ≡ₚ nodes t.
Proof.
  induction t as [u ks IH] using rtree_ind'.
  rewrite order_unfold, nodes_unfold. constructor.
  rewrite Forall_forall in IH. unfold knodes.
  rewrite <- (visit_perm ks) at 2.
  apply bind_perm_ext. intros k Hk. apply IH. by apply elem_of_visit.
Qed.

Lemma order_length t : zlen (order t) = tsize t.
Proof. unfold tsize, zlen. by rewrite order_perm. Qed.

Lemma pos_order_kids s (L : list (Z * rtree)) :
  ∀ c0,
    Forall (λ e, dfs2_post s e.2.1 e.1 e.2.2) (offsets c0 L) →
    Forall (λ k, ∀ h c, dfs2_post s h c k →
              ∀ i x, order k !! i = Some x →
                vget (HLD.pos s) x = c + Z.of_nat i) (snd <$> L) →
    ∀ i x, ((snd <$> L) ≫= order) !! i = Some x →
      vget (HLD.pos s) x = c0 + Z.of_nat i.
Proof.
  induction L as [|[h k] L IH]; intros c0 Hp HIH i x Hi; [done|].
  rewrite fmap_cons in Hi, HIH. simpl in Hi, HIH.
  apply Forall_cons in HIH as [Hk HL].
  simpl in Hp. apply Forall_cons in Hp as [Hpk Hp]. simpl in Hpk.
  apply lookup_app_Some in Hi as [Hi|[Hlen Hi]].
  - by eapply Hk.
  - rewrite (IH _ Hp HL _ _ Hi).
    pose proof (order_length k) as Hol. unfold zlen in Hol. lia.
Qed.

Lemma pos_order s t :
  ∀ h c, dfs2_post s h c t →
  ∀ i x, order t !! i = Some x → vget (HLD.pos s) x = c + Z.of_nat i.
Proof.
  induction t as [u ks IH] using rtree_ind'. intros h c Hp i x Hi.
  inversion Hp as [? ? ? ? Hv Hks]; subst.
  rewrite order_unfold in Hi. destruct i as [|i].
  - simpl in Hi. injection Hi as <-. unfold view2 in Hv.
    injection Hv as _ ->. lia.
  - simpl in Hi. rewrite <- (visit_order_snd h ks) in Hi.
    rewrite (pos_order_kids s _ (c + 1) Hks) with (i := i); [lia | | exact Hi].
    rewrite visit_order_snd. rewrite Forall_forall in IH.
    apply Forall_forall. intros k Hk. apply IH. by apply elem_of_visit.
Qed.

(** ** The state after [build] *)

Lemma dfs1_post_depth s t :
  ∀ p d, dfs1_post s p d t →
  ∀ x, x ∈ nodes t → d <= vget (HLD.depth s) x < d + tsize t.
Proof.
  induction t as [u ks IH] using rtree_ind'. intros p d Hp x Hx.
  inversion Hp as [? ? ? ? Hv Hks]; subst.
  rewrite nodes_unfold in Hx. apply elem_of_cons in Hx as [->|Hx].
  - unfold view1 in Hv. injection Hv as _ -> _ _.
    pose proof (tsize_pos (RNode u ks)). lia.
  - apply elem_of_knodes in Hx as (k & Hk & Hx).
    rewrite Forall_forall in IH. rewrite Forall_forall in Hks.
    pose proof (IH k Hk _ _ (Hks k Hk) x Hx).
    pose proof (tsize_kid_le k u ks Hk). lia.
Qed.

Lemma heavies_cases ks :
  NoDup (knodes ks) →
  heavies ks = [] ∨ ∃ hk, hk ∈ ks ∧ heavy_id ks = rid hk ∧ heavies ks = [hk].
Proof.
  intros Hnd. destruct (heavy_id_in ks) as [[-> _]|(hk & Hhk & Hid)];
    [by left|].
  right. exists hk. split; [done|]. split; [done|].
  unfold heavies. rewrite Hid. apply filter_rid_unique; [|done].
  by apply NoDup_rids.
Qed.

(** How a child is placed relative to its parent. *)
Lemma visit_order_cases c h ks c' h' k :
  NoDup (knodes ks) →
  (c', (h', k)) ∈ offsets (c + 1) (visit_order h ks) →
  k ∈ ks ∧
  ((rid k = heavy_id ks ∧ h' = h ∧ c' = c + 1) ∨
   (rid k ≠ heavy_id ks ∧ h' = rid k)).
Proof.
  intros Hnd Hin. split.
  { by apply elem_of_offsets, elem_of_visit_order in Hin. }
  unfold visit_order in Hin. rewrite offsets_app in Hin.
  apply elem_of_app in Hin as [Hin|Hin].
  - left. destruct (heavies_cases ks Hnd) as [E|(hk & Hhk & Hid & E)];
      rewrite E in Hin; simpl in Hin.
    + by apply elem_of_nil in Hin.
    + apply list_elem_of_singleton in Hin. by simplify_eq.
  - right. apply elem_of_offsets in Hin. simpl in Hin.
    apply list_elem_of_fmap in Hin as (k' & E & Hk').
    apply list_elem_of_filter in Hk' as [Hne _].
    unfold own_head in E. by simplify_eq.
Qed.

Lemma laid_views s c u ks :
  laid s c (RNode u ks) →
  view1 s u = (c_parent c, c_depth c, tsize (RNode u ks), heavy_id ks)
  ∧ view2 s u = (c_head c, c_pos c)
  ∧ filter (λ v, v ≠ c_parent c) (aget (HLD.adj s) u) = rid <$> ks.
Proof.
  intros (Hsh & Hp1 & Hp2 & _).
  inversion Hsh; inversion Hp1; inversion Hp2; by simplify_eq.
Qed.

Lemma laid_frame s s' c t :
  laid s c t → HLD.adj s' = HLD.adj s →
  (∀ x, view1 s' x = view1 s x) → (∀ x, view2 s' x = view2 s x) →
  laid s' c t.
Proof.
  intros (Hsh & Hp1 & Hp2 & Hnd) Ha H1 H2. split; [by rewrite Ha|].
  split; [by eapply dfs1_post_frame|]. split; [by eapply dfs2_post_frame|done].
Qed.

(** Every node other than the root of [t] is the child of a node of [t],
    placed after it as a heavy or as a light child. *)
Lemma node_cases s c0 t x :
  laid s c0 t → x ∈ nodes t →
  ∃ c ks, laid s c (RNode x ks) ∧ nodes (RNode x ks) ⊆ nodes t ∧
    ((c = c0 ∧ RNode x ks = t) ∨
     ∃ pc pu pks,
       laid s pc (RNode pu pks) ∧ pu ∈ nodes t ∧ RNode x ks ∈ pks ∧
       c_parent c = pu ∧ c_depth c = c_depth pc + 1 ∧
       ((x = heavy_id pks ∧ c_head c = c_head pc ∧ c_pos c = c_pos pc + 1) ∨
        (x ≠ heavy_id pks ∧ c_head c = x))).
Proof.
  intros Hl Hx. destruct (occ_exists c0 t x Hx) as (c & t' & Hocc & Hr).
  destruct t' as [x' ks]. simpl in Hr. subst x'.
  exists c, ks. split; [by eapply occ_laid|].
  split; [by eapply occ_nodes|].
  inversion Hocc as [|p d h cp pu pks c' h' k Hpocc Hin]; [by left|].
  subst. right.
  pose proof (occ_laid _ _ _ _ _ Hl Hpocc) as Hpl.
  exists (Ctx p d h cp), pu, pks. split; [done|].
  split. { eapply occ_nodes; [exact Hpocc|]. apply (rid_in_nodes (RNode pu pks)). }
  destruct Hpl as (_ & _ & _ & Hnd).
  change (NoDup (pu :: knodes pks)) in Hnd. apply NoDup_cons in Hnd as [_ Hnd].
  destruct (visit_order_cases _ _ _ _ _ _ Hnd Hin) as [Hk Hcase].
  split; [done|]. simpl. split; [done|]. split; [done|].
  simpl in Hcase. destruct Hcase as [(? & ? & ?)|(? & ?)]; [left|right]; done.
Qed.

Lemma vget_replicate k v x :
  0 <= x < Z.of_nat k → vget (replicate k v) x = v.
Proof.
  intros. unfold vget. rewrite decide_True by lia.
  rewrite lookup_replicate_2 by lia. done.
Qed.

Lemma add_edges_core s es : core (add_edges s es) = core s.
Proof.
  revert s. induction es as [|e es IH]; intros s; [done|].
  unfold add_edges in *. simpl. by rewrite IH.
Qed.

Lemma valid_tree_nodes n adj root t :
  valid_tree n adj root t →
  NoDup (nodes t) ∧ tsize t = Z.max 0 n ∧ (∀ x, x ∈ nodes t ↔ 0 <= x < n).
Proof.
  intros (_ & _ & Hperm). split; [|split].
  - rewrite Hperm. apply NoDup_seqZ.
  - unfold tsize, zlen. rewrite Hperm, length_seqZ. lia.
  - intros x. rewrite Hperm, elem_of_seqZ. lia.
Qed.

(** The loop that permutes the values into position order. *)
Lemma fill_spec (pos vals : list Z) (l : list Z) :
  ∀ acc,
    NoDup l →
    (∀ x, x ∈ l → 0 <= vget pos x < zlen acc) →
    (∀ x y, x ∈ l → y ∈ l → vget pos x = vget pos y → x = y) →
    let r := foldl (λ acc i, vset acc (vget pos i) (vget vals i)) acc l in
    zlen r = zlen acc
    ∧ (∀ x, x ∈ l → vget r (vget pos x) = vget vals x)
    ∧ (∀ j, (∀ x, x ∈ l → vget pos x ≠ j) → vget r j = vget acc j)
    ∧ (ints acc → ints vals → ints r).
Proof.
  induction l as [|i l IH]; intros acc Hnd Hrg Hinj; simpl.
  { split; [done|]. split; [by intros ? ?%elem_of_nil|]. done. }
  apply NoDup_cons in Hnd as [Hi Hnd].
  destruct (IH (vset acc (vget pos i) (vget vals i))) as (Hl & Hin & Hout & Hint).
  { done. }
  { intros x Hx. rewrite zlen_vset. apply Hrg. by right. }
  { intros x y Hx Hy. apply Hinj; by right. }
  rewrite zlen_vset in Hl. split; [done|]. split; [|split].
  - intros x [->|Hx]%elem_of_cons; [|by apply Hin].
    rewrite Hout.
    + apply vget_vset_eq, Hrg. left.
    + intros y Hy E. apply Hi. rewrite <- (Hinj y i); [done | by right | left | done].
  - intros j Hj. rewrite Hout.
    + apply vget_vset_ne. apply Hj. left.
    + intros x Hx. apply Hj. by right.
  - intros Ha Hv. apply Hint; [|done]. apply ints_vset; [done | apply Hv].
Qed.

Lemma pos_facts s h t n :
  dfs2_post s h 0 t → nodes t ≡ₚ seqZ 0 n →
  (∀ x, 0 <= x < n → 0 <= vget (HLD.pos s) x < n)
  ∧ (∀ x y, 0 <= x < n → 0 <= y < n →
       vget (HLD.pos s) x = vget (HLD.pos s) y → x = y)
  ∧ (∀ i, 0 <= i < n → ∃ x, 0 <= x < n ∧ vget (HLD.pos s) x = i).
Proof.
  intros Hp Hperm.
  assert (Hlook : ∀ x, 0 <= x < n →
            ∃ i : nat, order t !! i = Some x ∧ Z.of_nat i < n).
  { intros x Hx.
    assert (x ∈ order t) as Hin.
    { rewrite order_perm, Hperm, elem_of_seqZ. lia. }
    apply list_elem_of_lookup in Hin as [i Hi]. exists i. split; [done|].
    apply lookup_lt_Some in Hi.
    assert (length (order t) = length (seqZ 0 n)) as E
      by (by rewrite order_perm, Hperm).
    rewrite length_seqZ in E. lia. }
  split; [|split].
  - intros x Hx. destruct (Hlook x Hx) as (i & Hi & ?).
    rewrite (pos_order s t h 0 Hp i x Hi). lia.
  - intros x y Hx Hy E.
    destruct (Hlook x Hx) as (i & Hi & ?). destruct (Hlook y Hy) as (j & Hj & ?).
    rewrite (pos_order s t h 0 Hp i x Hi) in E.
    rewrite (pos_order s t h 0 Hp j y Hj) in E.
    assert (i = j) as -> by lia. congruence.
  - intros i Hi.
    assert (length (order t) = length (seqZ 0 n)) as E
      by (by rewrite order_perm, Hperm).
    rewrite length_seqZ in E.
    destruct (lookup_lt_is_Some_2 (order t) (Z.to_nat i)) as [x Hx]; [lia|].
    exists x. split.
    + apply list_elem_of_lookup_2 in Hx.
      rewrite order_perm, Hperm, elem_of_seqZ in Hx. lia.
    + rewrite (pos_order s t h 0 Hp _ x Hx). lia.
Qed.

Lemma build_laid n vals es root t :
  let s0 := add_edges (HLD.new n vals) es in
  zlen vals = n → ints vals → valid_tree n (HLD.adj s0) root t →
  ∃ s a, HLD.build s0 root = Some s
       ∧ HLD.N s = n ∧ HLD.adj s = HLD.adj s0 ∧ HLD.values s = vals
       ∧ HLD.cur_pos s = n
       ∧ laid s (root_ctx root) t
       ∧ st_ok (HLD.seg_tree s) a ∧ SegmentTree.n (HLD.seg_tree s) = n
       ∧ (∀ x, 0 <= x < n → vget a (vget (HLD.pos s) x) = vget vals x).
Proof.
  intros s0 Hvl Hvi Hvalid.
  pose proof (valid_tree_nodes _ _ _ _ Hvalid) as (Hnd & Hsz & Hrg).
  destruct Hvalid as (Hroot & Hsh & Hperm).
  assert (1 <= n) as Hn.
  { pose proof (tsize_pos t). lia. }
  assert (Hcore : core s0 = core (HLD.new n vals))
    by apply add_edges_core.
  clearbody s0. unfold core in Hcore. simpl in Hcore.
  injection Hcore as HN Hval Hpar Hdep Hsiz Hhvy Hhd Hps Hcp Hsg.
  destruct (dfs1_spec n t (Z.to_nat n)) with (p := -1) (d := 0) (s := s0)
    as (s1 & Hrun1 & Hst1 & Hp1); [lia | done | done | by apply Hrg | | |].
  { unfold lens1. rewrite Hpar, Hdep, Hsiz, Hhvy.
    by rewrite !zlen_replicate by lia. }
  { intros x Hx. rewrite Hhvy. apply vget_replicate. apply Hrg in Hx. lia. }
  rewrite Hroot in Hrun1.
  destruct Hst1 as (Hr1 & Hl1 & _). unfold rest1 in Hr1.
  injection Hr1 as HN1 Hadj1 Hval1 Hhd1 Hps1 Hcp1 Hsg1.
  destruct (dfs2_spec n t (Z.to_nat n)) with (p := -1) (d := 0) (h := root)
    (s := s1) as (s2 & Hrun2 & Hst2 & Hc2 & Hp2);
    [lia | by rewrite Hadj1 | done | done | by apply Hrg | |].
  { unfold lens2. rewrite Hhd1, Hps1, Hhd, Hps.
    by rewrite !zlen_replicate by lia. }
  rewrite Hroot in Hrun2.
  pose proof Hst2 as (Hr2 & Hl2 & _). unfold rest2 in Hr2.
  injection Hr2 as HN2 Hadj2 Hval2 Hpar2 Hdep2 Hsiz2 Hhvy2 Hsg2.
  rewrite Hcp1, Hcp in Hp2.
  destruct (pos_facts s2 root t n Hp2 Hperm) as (Hprg & Hpinj & _).
  pose proof (fill_spec (HLD.pos s2) (HLD.values s2) (seqZ 0 (HLD.N s2))
                (replicate (Z.to_nat (HLD.N s2)) 0)) as Hfill.
  fold (HLD.values_for_seg_tree s2) in Hfill.
  rewrite HN2, HN1, HN in Hfill.
  destruct Hfill as (Hfl & Hfin & _ & Hfint).
  { apply NoDup_seqZ. }
  { intros x Hx. rewrite zlen_replicate by lia. apply Hprg.
    apply elem_of_seqZ in Hx. lia. }
  { intros x y Hx Hy. apply elem_of_seqZ in Hx, Hy. apply Hpinj; lia. }
  rewrite zlen_replicate in Hfl by lia.
  destruct (build_from_mapped_values_ok (HLD.seg_tree s2)
              (HLD.values_for_seg_tree s2)) as (st & Hrun3 & Hstn & Hstok).
  { by rewrite Hsg2, Hsg1, Hsg. }
  { rewrite Hsg2, Hsg1, Hsg. simpl. rewrite zlen_replicate by lia. done. }
  { by rewrite Hsg2, Hsg1, Hsg. }
  { apply Hfint.
    - intros i. unfold vget. case_decide; [|done].
      destruct (replicate _ _ !! _) eqn:E; [|done].
      apply lookup_replicate in E as [-> _]. done.
    - by rewrite Hval2, Hval1, Hval. }
  exists (HLD.with_seg_tree s2 st), (HLD.values_for_seg_tree s2).
  split.
  { unfold HLD.build. rewrite HN, Hrun1. simpl. rewrite Hrun2. simpl.
    by rewrite Hrun3. }
  simpl. split; [congruence|]. split; [congruence|]. split; [congruence|].
  split; [lia|]. split.
  { eapply (laid_frame s2); [|done|done|done].
    split; [by rewrite Hadj2, Hadj1|]. split; [|split; [|done]].
    - by eapply dfs1_post_step2.
    - exact Hp2. }
  split; [done|]. split; [rewrite Hstn; by rewrite Hsg2, Hsg1, Hsg|].
  intros x Hx. rewrite Hfin by (apply elem_of_seqZ; lia).
  by rewrite Hval2, Hval1, Hval.
Qed.

Lemma laid_kid s c u ks k :
  laid s c (RNode u ks) → k ∈ ks →
  view1 s (rid k) = (u, c_depth c + 1, tsize k, heavy_id (rkids k)).
Proof.
  intros (_ & Hp1 & _) Hk. inversion Hp1 as [? ? ? ? _ Hks]; subst.
  rewrite Forall_forall in Hks. by apply dfs1_post_root, Hks.
Qed.

Lemma laid_inv s n adjl root t a :
  HLD.N s = n → HLD.adj s = adjl →
  laid s (root_ctx root) t → rid t = root → nodes t ≡ₚ seqZ 0 n →
  zlen (HLD.values s) = n → ints (HLD.values s) →
  st_ok (HLD.seg_tree s) a → SegmentTree.n (HLD.seg_tree s) = n →
  (∀ x, 0 <= x < n → vget a (vget (HLD.pos s) x) = vget (HLD.values s) x) →
  hld_inv adjl root s.
Proof.
  intros HN Hadj Hl Hroot Hperm Hvl Hvi Hst Hstn Ha. subst n.
  set (n := HLD.N s) in *.
  assert (Hrg : ∀ x, x ∈ nodes t ↔ 0 <= x < n).
  { intros x. rewrite Hperm, elem_of_seqZ. lia. }
  assert (Hsz : tsize t = Z.max 0 n).
  { unfold tsize, zlen. rewrite Hperm, length_seqZ. lia. }
  destruct t as [r ks0]. simpl in Hroot. subst r.
  pose proof (laid_views _ _ _ _ Hl) as (Hv1 & Hv2 & _).
  unfold view1, view2, root_ctx in Hv1, Hv2. simpl in Hv1, Hv2.
  injection Hv1 as Hrp Hrd _ _. injection Hv2 as Hrh Hrpos.
  pose proof Hl as (_ & Hp1 & Hp2 & _). simpl in Hp1, Hp2.
  destruct (pos_facts s root _ n Hp2 Hperm) as (Hprg & Hpinj & _).
  split; unfold in_tree; fold n; try done.
  - apply Hrg. left.
  - intros x Hx. apply Hrg in Hx.
    destruct (node_cases _ _ _ _ Hl Hx)
      as (c & ks & Hlx & _ & [[_ E]|(pc & pu & pks & Hlp & Hpu & _ & Hcp & Hcd & _)]).
    { left. by injection E. }
    right. apply laid_views in Hlx as (Hx1 & _). apply laid_views in Hlp as (Hp & _).
    unfold view1 in Hx1, Hp. injection Hx1 as -> -> _ _.
    injection Hp as _ Hpd _ _. rewrite Hcp, Hcd, Hpd. split; [by apply Hrg|done].
  - intros x Hx. apply Hrg in Hx.
    pose proof (dfs1_post_depth _ _ _ _ Hp1 x Hx). lia.
  - intros x Hx. apply Hrg in Hx.
    destruct (node_cases _ _ _ _ Hl Hx)
      as (c & ks & Hlx & _ & [[-> E]|(pc & pu & pks & Hlp & Hpu & _ & Hcp & Hcd & Hcase)]).
    { left. injection E as ->. done. }
    apply laid_views in Hlx as (Hx1 & Hx2 & _).
    apply laid_views in Hlp as (Hp & Hp' & _).
    unfold view1, view2 in *. injection Hx1 as Hx1 Hxd _ _.
    injection Hx2 as Hxh Hxp. injection Hp as _ Hpd _ _.
    injection Hp' as Hph Hpp.
    destruct Hcase as [(_ & Hh & Hc)|(_ & Hh)]; [right|left; congruence].
    rewrite Hx1, Hcp. split; [by apply Hrg|]. split; [lia|].
    split; [congruence | lia].
  - intros x y Hx Hy.
    apply Hrg in Hx.
    destruct (node_cases _ _ _ _ Hl Hx) as (c & ks & Hlx & Hsub & _).
    pose proof (laid_views _ _ _ _ Hlx) as (Hx1 & _ & Hfil).
    unfold view1 in Hx1. injection Hx1 as Hxp _ _ _.
    destruct (decide (y = c_parent c)) as [->|Hne]; [by left|]. right.
    assert (y ∈ rid <$> ks) as Hin.
    { rewrite <- Hfil. apply list_elem_of_filter. by rewrite Hadj. }
    apply list_elem_of_fmap in Hin as (k & -> & Hk).
    pose proof (laid_kid _ _ _ _ _ Hlx Hk) as Hkv. unfold view1 in Hkv.
    injection Hkv as -> _ _ _. split; [|done].
    apply Hrg, Hsub. rewrite nodes_unfold. right.
    apply elem_of_knodes. exists k. split; [done | apply rid_in_nodes].
  - intros x Hx. apply Hrg in Hx.
    destruct (node_cases _ _ _ _ Hl Hx)
      as (c & ks & Hlx & _ & [[_ E]|(pc & pu & pks & Hlp & Hpu & Hk & Hcp & _)]).
    { left. by injection E. }
    right. apply laid_views in Hlx as (Hx1 & _).
    apply laid_views in Hlp as (_ & _ & Hfil).
    unfold view1 in Hx1. injection Hx1 as -> _ _ _. rewrite Hcp.
    assert (x ∈ rid <$> pks) as Hin
      by (by apply (list_elem_of_fmap_2 rid _ (RNode x ks))).
    rewrite <- Hfil, Hadj in Hin. by apply list_elem_of_filter in Hin as [_ ?].
  - exists a. split; [done|]. split; [done|]. done.
Qed.

(** ** Walking up the parent pointers *)

Lemma up_S s k x : up s (S k) x = up s k (vget (HLD.parent s) x).
Proof. unfold up. by rewrite Nat.iter_succ_r. Qed.

Lemma up_S' s k x : up s (S k) x = vget (HLD.parent s) (up s k x).
Proof. done. Qed.

Lemma up_add s j k x : up s (j + k) x = up s j (up s k x).
Proof. unfold up. by rewrite Nat.iter_add. Qed.

Lemma chain_list_app s x j k :
  chain_list s x (j + k) = chain_list s x j ++ chain_list s (up s j x) k.
Proof.
  revert x. induction j as [|j IH]; intros x; [done|].
  rewrite up_S. change (S j + k)%nat with (S (j + k)).
  cbn [chain_list]. by rewrite IH.
Qed.

Lemma chain_list_snoc s x k :
  chain_list s x (S k) = chain_list s x k ++ [up s k x].
Proof. replace (S k) with (k + 1)%nat by lia. by rewrite chain_list_app. Qed.

Lemma length_chain_list s x k : length (chain_list s x k) = k.
Proof. revert x. induction k as [|k IH]; intros x; simpl; [done|]. by rewrite IH. Qed.

Lemma elem_of_chain_list s x k y :
  y ∈ chain_list s x k ↔ ∃ j, (j < k)%nat ∧ y = up s j x.
Proof.
  revert x. induction k as [|k IH]; intros x; simpl.
  - split; [by intros ?%elem_of_nil | intros (j & ? & _); lia].
  - rewrite elem_of_cons, IH. split.
    + intros [->|(j & ? & ->)]; [exists 0%nat; split; [lia|done]|].
      exists (S j). split; [lia|]. by rewrite up_S.
    + intros ([|j] & ? & ->); [by left|]. right. exists j.
      split; [lia|]. by rewrite up_S.
Qed.

Lemma path_sum_app vals l k :
  path_sum vals (l ++ k) = path_sum vals l + path_sum vals k.
Proof. unfold path_sum. by rewrite fmap_app, sumZ_app. Qed.

Lemma path_sum_cons vals x l :
  path_sum vals (x :: l) = vget vals x + path_sum vals l.
Proof. done. Qed.

Lemma path_sum_reverse vals l : path_sum vals (reverse l) = path_sum vals l.
Proof.
  induction l as [|x l IH]; [done|].
  rewrite reverse_cons, path_sum_app, IH, !path_sum_cons. unfold path_sum.
  simpl. lia.
Qed.

Section built.
Context (adj : list (list Z)) (root : Z) (s : HLD.t).
Hypothesis Hinv : hld_inv adj root s.

Local Abbreviation par := (vget (HLD.parent s)).
Local Abbreviation dep := (vget (HLD.depth s)).
Local Abbreviation hd := (vget (HLD.head s)).
Local Abbreviation ps := (vget (HLD.pos s)).
Local Abbreviation ok := (in_tree s).

Lemma depth_zero_root x : ok x → dep x = 0 → x = root.
Proof.
  intros Hx Hd. destruct (inv_parent _ _ _ Hinv x Hx) as [->|[Hp E]]; [done|].
  pose proof (inv_depth _ _ _ Hinv _ Hp). lia.
Qed.

Lemma parent_ok x :
  ok x → 1 <= dep x → ok (par x) ∧ dep (par x) = dep x - 1.
Proof.
  intros Hx Hd. destruct (inv_parent _ _ _ Hinv x Hx) as [->|[Hp E]].
  - rewrite (inv_root_depth _ _ _ Hinv) in Hd. lia.
  - split; [done | lia].
Qed.

Lemma up_ok k x :
  ok x → Z.of_nat k <= dep x →
  ok (up s k x) ∧ dep (up s k x) = dep x - Z.of_nat k.
Proof.
  intros Hx. induction k as [|k IH]; intros Hk.
  - split; [done | simpl; lia].
  - destruct IH as [Hu Hd]; [lia|]. rewrite up_S'.
    destruct (parent_ok (up s k x)) as [? ?]; [done | lia |].
    split; [done | lia].
Qed.

Lemma up_inj_depth j k x :
  ok x → Z.of_nat j <= dep x → Z.of_nat k <= dep x →
  up s j x = up s k x → j = k.
Proof.
  intros Hx Hj Hk E.
  destruct (up_ok j x Hx Hj) as [_ Dj]. destruct (up_ok k x Hx Hk) as [_ Dk].
  rewrite E in Dj. lia.
Qed.

(** The chain of [x]: its head is an ancestor, and positions decrease by
    one at every step towards it. *)
Lemma chain_spec x :
  ok x →
  ∃ k : nat, up s k x = hd x ∧ Z.of_nat k <= dep x ∧
    ∀ j, (j ≤ k)%nat →
      hd (up s j x) = hd x ∧ ps (up s j x) = ps x - Z.of_nat j.
Proof.
  intros Hx.
  pose proof (inv_depth _ _ _ Hinv x Hx) as Hd.
  remember (Z.to_nat (dep x)) as m eqn:Hm.
  revert x Hx Hd Hm. induction m as [|m IH]; intros x Hx Hd Hm.
  - destruct (inv_head _ _ _ Hinv x Hx) as [E|(Hp & Hdp & _)].
    + exists 0%nat. split; [done|]. split; [lia|].
      intros j Hj. assert (j = 0%nat) as -> by lia. simpl. split; [done|lia].
    + pose proof (inv_depth _ _ _ Hinv _ Hp). lia.
  - destruct (inv_head _ _ _ Hinv x Hx) as [E|(Hp & Hdp & Hh & Hps)].
    + exists 0%nat. split; [done|]. split; [lia|].
      intros j Hj. assert (j = 0%nat) as -> by lia. simpl. split; [done|lia].
    + pose proof (inv_depth _ _ _ Hinv _ Hp) as Hd'.
      destruct (IH (par x) Hp Hd') as (k & Hk & Hkd & Hall); [lia|].
      exists (S k). rewrite up_S. split; [congruence|]. split; [lia|].
      intros [|j] Hj; [simpl; split; [done|lia]|].
      rewrite up_S. destruct (Hall j) as [E1 E2]; [lia|].
      split; [congruence | lia].
Qed.

Lemma chain_length x k :
  ok x → up s k x = hd x → Z.of_nat k <= dep x →
  Z.of_nat k = dep x - dep (hd x).
Proof.
  intros Hx E Hk. destruct (up_ok k x Hx Hk) as [_ D]. rewrite E in D. lia.
Qed.

Lemma meet_sym u v a b : meet s u v a b → meet s v u b a.
Proof.
  intros (E & Ha & Hb & Hc). split; [done|]. split; [done|]. split; [done|].
  destruct Hc as [?|[?|?]]; [right; by left | by left |].
  right. right. congruence.
Qed.

Lemma total_sym u v a b : meet s u v a b → total s u v a b = total s v u b a.
Proof. intros (E & _). unfold total. rewrite E. lia. Qed.

Lemma chain_rsum a x k :
  (∀ y, ok y → vget a (ps y) = vget (HLD.values s) y) →
  ok x → Z.of_nat k <= dep x →
  (∀ j, (j ≤ k)%nat → ps (up s j x) = ps x - Z.of_nat j) →
  rsum a (ps x - Z.of_nat k) (ps x)
  = path_sum (HLD.values s) (chain_list s x (S k)).
Proof.
  intros Ha. revert x. induction k as [|k IH]; intros x Hx Hk Hall.
  - replace (ps x - Z.of_nat 0) with (ps x) by lia.
    rewrite rsum_one, Ha by done. unfold path_sum. simpl. lia.
  - destruct (parent_ok x Hx) as [Hp Hd]; [lia|].
    pose proof (Hall 1%nat) as H1. simpl in H1. specialize (H1 ltac:(lia)).
    rewrite rsum_last by lia. rewrite Ha by done.
    change (chain_list s x (S (S k)))
      with (x :: chain_list s (par x) (S k)).
    rewrite path_sum_cons, <- IH; [| done | lia |].
    + replace (ps (par x) - Z.of_nat k) with (ps x - Z.of_nat (S k)) by lia.
      replace (ps (par x)) with (ps x - 1) by lia. lia.
    + intros j Hj. rewrite <- up_S. rewrite Hall by lia. lia.
Qed.

Lemma query_chain x k :
  ok x → Z.of_nat k <= dep x →
  (∀ j, (j ≤ k)%nat → ps (up s j x) = ps x - Z.of_nat j) →
  SegmentTree.query (HLD.seg_tree s) (ps (up s k x)) (ps x)
  = Some (Int.wrap (path_sum (HLD.values s) (chain_list s x (S k)))).
Proof.
  intros Hx Hk Hall. destruct (inv_seg _ _ _ Hinv) as (a & Hst & Hn & Ha).
  destruct (up_ok k x Hx Hk) as [Hu _].
  pose proof (inv_pos_range _ _ _ Hinv _ Hu).
  pose proof (inv_pos_range _ _ _ Hinv _ Hx).
  rewrite (query_ok _ a) by (done || lia).
  rewrite Hall by lia. by rewrite chain_rsum.
Qed.

Lemma jump_bound u v a b k :
  meet s u v a b → ok u → ok v → hd u ≠ hd v → dep (hd v) <= dep (hd u) →
  up s k u = hd u → Z.of_nat k <= dep u →
  (∀ j, (j ≤ k)%nat → hd (up s j u) = hd u) →
  (k < a)%nat.
Proof.
  intros (E & Ha & Hb & _) Hu Hv Hne Hle Hk Hkd Hall.
  destruct (decide (k < a)%nat) as [|Hge]; [done|]. exfalso. apply Hne.
  rewrite <- (Hall a) by lia. rewrite E.
  destruct (chain_spec v Hv) as (kv & Hkv & Hkvd & Hallv).
  destruct (Hallv b) as [Hh _]; [|done].
  destruct (up_ok a u Hu Ha) as [_ Da]. destruct (up_ok b v Hv Hb) as [_ Db].
  rewrite E in Da.
  pose proof (chain_length u k Hu Hk Hkd).
  pose proof (chain_length v kv Hv Hkv Hkvd). lia.
Qed.

Lemma same_chain u v a b :
  meet s u v a b → ok u → ok v → hd u = hd v → dep u <= dep v →
  a = 0%nat ∧ up s b v = u ∧
  ∀ j, (j ≤ b)%nat → ps (up s j v) = ps v - Z.of_nat j.
Proof.
  intros (E & Ha & Hb & Hc) Hu Hv Hh Hd.
  destruct (chain_spec u Hu) as (ku & Hku & Hkud & Hallu).
  destruct (chain_spec v Hv) as (kv & Hkv & Hkvd & Hallv).
  pose proof (chain_length u ku Hu Hku Hkud) as Lu.
  pose proof (chain_length v kv Hv Hkv Hkvd) as Lv.
  rewrite Hh in Lu.
  assert (Hy : up s (kv - ku) v = u).
  { destruct (up_ok (kv - ku) v Hv) as [Hyok _]; [lia|].
    apply (inv_pos_inj _ _ _ Hinv); [done | done |].
    destruct (Hallv (kv - ku)%nat) as [_ ->]; [lia|].
    destruct (Hallu ku) as [_ Pu]; [lia|].
    destruct (Hallv kv) as [_ Pv]; [lia|].
    rewrite Hku in Pu. rewrite Hkv in Pv. rewrite Hh in Pu. lia. }
  assert (Hb' : (a + (kv - ku))%nat = b).
  { apply (up_inj_depth _ _ v); [done | lia | lia |].
    rewrite up_add, Hy. done. }
  assert (a = 0%nat) as ->.
  { destruct Hc as [?|[?|Hne]]; [done | lia |].
    destruct (decide (a = 0%nat)); [done|]. exfalso. apply Hne.
    rewrite <- Hy at 1. rewrite <- up_add. f_equal. lia. }
  split; [done|]. simpl in Hb'. subst b. split; [done|].
  intros j Hj. by destruct (Hallv j) as [_ ?]; [lia|].
Qed.

Lemma wrap_step res q rest :
  Int.wrap (Int.wrap (res + Int.wrap q) + rest) = Int.wrap (res + (q + rest)).
Proof.
  rewrite wrap_add_l, <- Z.add_assoc, (Z.add_comm res), <- Z.add_assoc.
  rewrite wrap_add_l. f_equal. lia.
Qed.

Lemma query_jump f u v a b res :
  (∀ u v a b res, ok u → ok v → meet s u v a b → (a + b < f)%nat →
     HLD.query_path_loop f s u v res
     = Some (Int.wrap (res + total s u v a b))) →
  ok u → ok v → meet s u v a b → (a + b < S f)%nat →
  hd u ≠ hd v → dep (hd v) <= dep (hd u) →
  (SegmentTree.query (HLD.seg_tree s) (ps (hd u)) (ps u) ≫= λ q,
     HLD.query_path_loop f s (par (hd u)) v (Int.wrap (res + q)))
  = Some (Int.wrap (res + total s u v a b)).
Proof.
  intros IH Hu Hv Hm Hf Hne Hle.
  destruct (chain_spec u Hu) as (k & Hk & Hkd & Hall).
  assert (k < a)%nat as Hka.
  { eapply jump_bound; try done. intros j Hj. by destruct (Hall j). }
  pose proof Hm as (E & Ha & Hb & Hc).
  rewrite <- Hk at 1. rewrite query_chain; [|done|done|].
  2:{ intros j Hj. by destruct (Hall j). }
  simpl. rewrite <- Hk, <- up_S'.
  destruct (up_ok (S k) u Hu) as [Hu' Hd']; [lia|].
  rewrite (IH _ _ (a - S k)%nat b); [|done|done| |lia].
  - f_equal. unfold total.
    assert (chain_list s u a
            = chain_list s u (S k) ++ chain_list s (up s (S k) u) (a - S k))
      as -> by (rewrite <- chain_list_app; f_equal; lia).
    assert (up s (a - S k) (up s (S k) u) = up s a u)
      as -> by (rewrite <- up_add; f_equal; lia).
    rewrite path_sum_app, wrap_add_r, wrap_add_l. f_equal.
    change (u :: chain_list s (par u) k) with (chain_list s u (S k)). lia.
  - split; [|split; [|split]].
    + rewrite <- up_add. rewrite <- E. f_equal. lia.
    + lia.
    + done.
    + destruct Hc as [?|[?|Hc]]; [lia | right; by left |].
      destruct (decide (a - S k = 0)%nat); [by left|]. right. right.
      rewrite <- up_add. replace (a - S k - 1 + S k)%nat with (a - 1)%nat by lia.
      done.
Qed.

Lemma query_path_loop_spec fuel :
  ∀ u v a b res, ok u → ok v → meet s u v a b → (a + b < fuel)%nat →
    HLD.query_path_loop fuel s u v res
    = Some (Int.wrap (res + total s u v a b)).
Proof.
  induction fuel as [|f IH]; intros u v a b res Hu Hv Hm Hf; [lia|].
  cbn [HLD.query_path_loop].
  destruct (hd u =? hd v) eqn:E; cbn [negb].
  - apply Z.eqb_eq in E. destruct (dep u >? dep v) eqn:E2.
    + destruct (same_chain v u b a) as (-> & Hup & Hall);
        [by apply meet_sym | done | done | done | lia |].
      destruct Hm as (_ & Ha & _).
      rewrite <- Hup at 1. rewrite query_chain by done.
      cbn [mbind option_bind]. rewrite wrap_add_r. do 2 f_equal.
      unfold total. rewrite chain_list_snoc, path_sum_app.
      unfold path_sum. simpl. lia.
    + destruct (same_chain u v a b) as (-> & Hup & Hall);
        [done | done | done | done | lia |].
      destruct Hm as (_ & _ & Hb & _).
      rewrite <- Hup at 1. rewrite query_chain by done.
      cbn [mbind option_bind]. rewrite wrap_add_r. do 2 f_equal.
      unfold total. rewrite chain_list_snoc, path_sum_app.
      rewrite Hup. unfold path_sum. simpl. lia.
  - apply Z.eqb_neq in E. destruct (dep (hd u) <? dep (hd v)) eqn:E2.
    + rewrite (total_sym u v a b) by done.
      apply query_jump; [done | done | done | by apply meet_sym | lia | done | lia].
    + apply query_jump; [done | done | done | done | lia | done | lia].
Qed.

Lemma get_lca_loop_spec fuel :
  ∀ u v a b, ok u → ok v → meet s u v a b → (a + b < fuel)%nat →
    HLD.get_lca_loop fuel s u v = Some (up s a u).
Proof.
  induction fuel as [|f IH]; intros u v a b Hu Hv Hm Hf; [lia|].
  cbn [HLD.get_lca_loop].
  destruct (hd u =? hd v) eqn:E; cbn [negb].
  - apply Z.eqb_eq in E. f_equal. destruct (dep u <? dep v) eqn:E2.
    + destruct (same_chain u v a b) as (-> & _); try done. lia.
    + destruct (same_chain v u b a) as (-> & _); try done;
        [by apply meet_sym | lia |].
      destruct Hm as (-> & _). done.
  - apply Z.eqb_neq in E.
    assert (Hjump : ∀ u v a b, ok u → ok v → meet s u v a b →
              (a + b < S f)%nat → hd u ≠ hd v → dep (hd v) <= dep (hd u) →
              HLD.get_lca_loop f s (par (hd u)) v = Some (up s a u)).
    { clear u v a b Hu Hv Hm Hf E. intros u v a b Hu Hv Hm Hf Hne Hle.
      destruct (chain_spec u Hu) as (k & Hk & Hkd & Hall).
      assert (k < a)%nat as Hka.
      { eapply jump_bound; try done. intros j Hj. by destruct (Hall j). }
      pose proof Hm as (E & Ha & Hb & Hc).
      rewrite <- Hk, <- up_S'.
      destruct (up_ok (S k) u Hu) as [Hu' Hd']; [lia|].
      rewrite (IH _ _ (a - S k)%nat b); [|done|done| |lia].
      - rewrite <- up_add. do 2 f_equal. lia.
      - split; [|split; [|split]].
        + rewrite <- up_add. rewrite <- E. f_equal. lia.
        + lia.
        + done.
        + destruct Hc as [?|[?|Hc]]; [lia | right; by left |].
          destruct (decide (a - S k = 0)%nat); [by left|]. right. right.
          rewrite <- up_add.
          replace (a - S k - 1 + S k)%nat with (a - 1)%nat by lia. done. }
    destruct (dep (hd u) <? dep (hd v)) eqn:E2.
    + destruct Hm as (Em & Hm'). rewrite Em.
      apply (Hjump v u b a); try done; [|lia|lia].
      apply meet_sym. by split.
    + apply (Hjump u v a b); try done. lia.
Qed.

(** *** Existence of the meeting point *)

Lemma meet_refl u : ok u → meet s u u 0 0.
Proof.
  intros Hu. pose proof (inv_depth _ _ _ Hinv u Hu).
  split; [done|]. split; [simpl; lia|]. split; [simpl; lia | by left].
Qed.

Lemma meet_step u v a b :
  ok u → ok v → u ≠ v → dep v <= dep u →
  meet s (par u) v a b → meet s u v (S a) b.
Proof.
  intros Hu Hv Hne Hd (E & Ha & Hb & Hc).
  pose proof (inv_depth _ _ _ Hinv u Hu).
  pose proof (inv_depth _ _ _ Hinv v Hv).
  assert (1 <= dep u) as Hdu.
  { destruct (decide (dep u = 0)) as [E0|]; [|lia]. exfalso. apply Hne.
    rewrite (depth_zero_root u), (depth_zero_root v); [done|done|lia|done|done]. }
  destruct (parent_ok u Hu Hdu) as [Hp Hdp].
  split; [by rewrite up_S|]. split; [lia|]. split; [done|].
  right. destruct (decide (b = 0%nat)) as [|Hb0]; [by left|]. right.
  replace (S a - 1)%nat with a by lia.
  destruct (decide (a = 0%nat)) as [->|Ha0].
  - simpl. intros Eu.
    destruct (up_ok (b - 1) v Hv) as [_ D]; [lia|]. rewrite <- Eu in D.
    assert (b = 1%nat) as -> by lia. simpl in Eu. done.
  - destruct Hc as [?|[?|Hc]]; [done | done |].
    replace a with (S (a - 1)) by lia. rewrite up_S.
    replace (S (a - 1) - 1)%nat with (a - 1)%nat by lia. done.
Qed.

Lemma meet_exists u v : ok u → ok v → ∃ a b, meet s u v a b.
Proof.
  intros Hu Hv.
  pose proof (inv_depth _ _ _ Hinv u Hu) as Du.
  pose proof (inv_depth _ _ _ Hinv v Hv) as Dv.
  remember (Z.to_nat (dep u + dep v)) as m eqn:Hm.
  revert u v Hu Hv Du Dv Hm.
  induction m as [m IH] using lt_wf_ind. intros u v Hu Hv Du Dv Hm.
  destruct (decide (u = v)) as [->|Hne].
  { exists 0%nat, 0%nat. by apply meet_refl. }
  assert (Hroot : ∀ x y, ok x → ok y → x ≠ y → dep y <= dep x → 1 <= dep x).
  { intros x y Hx Hy Hxy Hd. pose proof (inv_depth _ _ _ Hinv y Hy).
    destruct (decide (dep x = 0)) as [E0|]; [|lia]. exfalso. apply Hxy.
    rewrite (depth_zero_root x), (depth_zero_root y); [done|done|lia|done|done]. }
  destruct (decide (dep v <= dep u)) as [Hd|Hd].
  - destruct (parent_ok u Hu) as [Hp Hdp]; [by apply (Hroot u v)|].
    pose proof (inv_depth _ _ _ Hinv _ Hp) as Dp.
    destruct (IH (Z.to_nat (dep (par u) + dep v)) ltac:(lia)
                (par u) v Hp Hv Dp Dv eq_refl) as (a & b & Hmeet).
    exists (S a), b. by apply meet_step.
  - assert (u ≠ v → v ≠ u) as Hsym by congruence.
    destruct (parent_ok v Hv) as [Hp Hdp];
      [apply (Hroot v u); auto; lia|].
    pose proof (inv_depth _ _ _ Hinv _ Hp) as Dp.
    destruct (IH (Z.to_nat (dep (par v) + dep u)) ltac:(lia)
                (par v) u Hp Hu Dp Du eq_refl) as (b & a & Hmeet).
    exists a, (S b). apply meet_sym. apply meet_step; auto; lia.
Qed.

(** *** Simple paths *)

Lemma lookup_chain_list x k j :
  (j < k)%nat → chain_list s x k !! j = Some (up s j x).
Proof.
  revert x j. induction k as [|k IH]; intros x j Hj; [lia|].
  destruct j as [|j]; [done|]. simpl chain_list. rewrite lookup_cons.
  rewrite IH by lia. by rewrite up_S.
Qed.

Lemma NoDup_chain_list x k :
  ok x → Z.of_nat k <= dep x + 1 → NoDup (chain_list s x k).
Proof.
  intros Hx Hk. apply NoDup_alt. intros i j y Hi Hj.
  pose proof (lookup_lt_Some _ _ _ Hi) as Li.
  pose proof (lookup_lt_Some _ _ _ Hj) as Lj.
  rewrite length_chain_list in Li, Lj.
  rewrite lookup_chain_list in Hi, Hj by done.
  apply (up_inj_depth i j x); [done | lia | lia | congruence].
Qed.

Lemma path_meet l :
  ∀ u v, simple_path adj u v l → ok u → ok v →
  ∃ a b, meet s u v a b
       ∧ l = chain_list s u a ++ up s a u :: reverse (chain_list s v b).
Proof.
  induction l as [|x l IH]; intros u v (Hh & Hl & Hnd & Hw) Hu Hv; [done|].
  simpl in Hh. injection Hh as ->.
  destruct l as [|y l'].
  { simpl in Hl. injection Hl as ->. exists 0%nat, 0%nat.
    split; [by apply meet_refl | done]. }
  destruct Hw as [Hxy Hw]. rewrite last_cons_cons in Hl.
  apply NoDup_cons in Hnd as [Hx_notin Hnd].
  assert (Hy : ok y).
  { destruct (inv_edges _ _ _ Hinv u y Hu Hxy) as [->|[? _]]; [|done].
    destruct (inv_parent _ _ _ Hinv u Hu) as [->|[? _]]; [|done].
    exfalso. rewrite (inv_root_parent _ _ _ Hinv) in *.
    destruct l' as [|z l''].
    - simpl in Hl. injection Hl as <-. unfold in_tree in Hv. lia.
    - destruct Hw as [Hz _]. unfold adjacent, aget in Hz.
      rewrite decide_False in Hz by lia. by apply elem_of_nil in Hz. }
  destruct (IH y v) as (a & b & Hm & El); [done | done | done |].
  pose proof (inv_depth _ _ _ Hinv u Hu) as Du.
  pose proof (inv_depth _ _ _ Hinv y Hy) as Dy.
  destruct (inv_edges _ _ _ Hinv u y Hu Hxy) as [Ey|[_ Ex]].
  - (* a step up *)
    assert (1 <= dep u) as Hdu.
    { destruct (inv_parent _ _ _ Hinv u Hu) as [->|[_ Hdu]];
        [|rewrite <- Ey in Hdu; lia].
      rewrite (inv_root_parent _ _ _ Hinv) in Ey. subst y.
      unfold in_tree in Hy. lia. }
    destruct (parent_ok u Hu Hdu) as [_ Hdp]. rewrite <- Ey in Hdp.
    pose proof Hm as (E & Ha & Hb & Hc).
    exists (S a), b. split.
    + split; [by rewrite up_S, <- Ey|]. split; [lia|]. split; [done|].
      right. destruct (decide (b = 0%nat)) as [|Hb0]; [by left|]. right.
      replace (S a - 1)%nat with a by lia. intros Eq.
      assert (NoDup (chain_list s u (S a)
                     ++ up s (S a) u :: reverse (chain_list s v b))) as Hnd'.
      { cbn [chain_list]. rewrite up_S, <- Ey, <- app_comm_cons, <- El.
        by apply NoDup_cons. }
      apply NoDup_app in Hnd' as (_ & Hdis & _).
      apply (Hdis (up s a u)).
      * apply elem_of_chain_list. exists a. split; [lia|done].
      * right. rewrite elem_of_reverse, Eq. apply elem_of_chain_list.
        exists (b - 1)%nat. split; [lia|done].
    + cbn [chain_list]. rewrite up_S, <- Ey, <- app_comm_cons, <- El. done.
  - (* a step down *)
    assert (1 <= dep y) as Hdy.
    { destruct (inv_parent _ _ _ Hinv y Hy) as [->|[_ Hdy]];
        [|rewrite <- Ex in Hdy; lia].
      rewrite (inv_root_parent _ _ _ Hinv) in Ex. subst u.
      unfold in_tree in Hu. lia. }
    destruct a as [|a].
    + simpl in El. injection El as El.
      pose proof Hm as (E & Ha & Hb & Hc). simpl in E.
      destruct (up_ok b v Hv Hb) as [_ D]. rewrite <- E in D.
      exists 0%nat, (S b). split.
      * split; [simpl; by rewrite Ex, E|]. split; [simpl; lia|].
        split; [lia | by left].
      * rewrite chain_list_snoc, reverse_app. simpl.
        rewrite <- E, <- El. done.
    + exfalso. apply Hx_notin. rewrite El.
      assert (u ∈ chain_list s y (S (S a))) as Hin.
      { apply elem_of_chain_list. exists 1%nat. split; [lia|]. by simpl. }
      rewrite chain_list_snoc in Hin. apply elem_of_app in Hin as [Hin|Hin].
      * apply elem_of_app. by left.
      * apply list_elem_of_singleton in Hin. apply elem_of_app. right.
        rewrite Hin. left.
Qed.

Lemma path_total l u v :
  simple_path adj u v l → ok u → ok v →
  ∃ a b, meet s u v a b ∧ path_sum (HLD.values s) l = total s u v a b.
Proof.
  intros Hl Hu Hv. destruct (path_meet l u v Hl Hu Hv) as (a & b & Hm & ->).
  exists a, b. split; [done|]. unfold total.
  rewrite path_sum_app, path_sum_cons, path_sum_reverse. lia.
Qed.

(** *** The path from the root *)

Lemma up_root x : ok x → up s (Z.to_nat (dep x)) x = root.
Proof.
  intros Hx. pose proof (inv_depth _ _ _ Hinv x Hx).
  destruct (up_ok (Z.to_nat (dep x)) x Hx) as [Hu D]; [lia|].
  apply depth_zero_root; [done | lia].
Qed.

Lemma walk_down x k :
  ok x → Z.of_nat k <= dep x + 1 → walk adj (reverse (chain_list s x k)).
Proof.
  intros Hx. induction k as [|k IH]; intros Hk; [done|].
  rewrite chain_list_snoc, reverse_app. simpl.
  destruct k as [|k]; [done|].
  rewrite chain_list_snoc, reverse_app in *. simpl in *.
  split; [|apply IH; lia].
  destruct (up_ok k x Hx) as [Hu D]; [lia|].
  destruct (inv_down _ _ _ Hinv _ Hu) as [E|Hin]; [|done].
  rewrite E, (inv_root_depth _ _ _ Hinv) in D. lia.
Qed.

Lemma root_path x :
  ok x →
  simple_path adj root x (reverse (chain_list s x (S (Z.to_nat (dep x))))).
Proof.
  intros Hx. pose proof (inv_depth _ _ _ Hinv x Hx).
  split; [|split; [|split]].
  - rewrite chain_list_snoc, reverse_app, up_root by done. done.
  - rewrite last_reverse. done.
  - rewrite reverse_Permutation. apply NoDup_chain_list; [done | lia].
  - apply walk_down; [done | lia].
Qed.

Lemma path_from_root l x :
  simple_path adj root x l → ok x →
  l = reverse (chain_list s x (S (Z.to_nat (dep x)))).
Proof.
  intros Hl Hx.
  destruct (path_meet l root x Hl (inv_root _ _ _ Hinv) Hx)
    as (a & b & (E & Ha & Hb & _) & ->).
  rewrite (inv_root_depth _ _ _ Hinv) in Ha.
  assert (a = 0%nat) as -> by lia. simpl in E.
  destruct (up_ok b x Hx Hb) as [_ D].
  rewrite <- E, (inv_root_depth _ _ _ Hinv) in D.
  replace (Z.to_nat (dep x)) with b by lia.
  rewrite chain_list_snoc, reverse_app, <- E. done.
Qed.

Lemma ancestor_iff c x :
  ok x →
  ancestor adj root c x ↔ ∃ j : nat, Z.of_nat j <= dep x ∧ c = up s j x.
Proof.
  intros Hx. pose proof (inv_depth _ _ _ Hinv x Hx). split.
  - intros (l & Hl & Hc). rewrite (path_from_root l x Hl Hx) in Hc.
    rewrite elem_of_reverse in Hc.
    apply elem_of_chain_list in Hc as (j & Hj & ->). exists j.
    split; [lia | done].
  - intros (j & Hj & ->). eexists. split; [by apply root_path|].
    rewrite elem_of_reverse. apply elem_of_chain_list. exists j.
    split; [lia | done].
Qed.

Lemma at_depth_iff x d : ok x → at_depth adj root x d ↔ d = dep x.
Proof.
  intros Hx. pose proof (inv_depth _ _ _ Hinv x Hx). split.
  - intros (l & Hl & Hd). rewrite (path_from_root l x Hl Hx) in Hd.
    unfold zlen in Hd. rewrite length_reverse, length_chain_list in Hd. lia.
  - intros ->. eexists. split; [by apply root_path|].
    unfold zlen. rewrite length_reverse, length_chain_list. lia.
Qed.

Lemma meet_is_lca u v a b :
  ok u → ok v → meet s u v a b → is_lca adj root u v (up s a u).
Proof.
  intros Hu Hv (E & Ha & Hb & Hc).
  destruct (up_ok a u Hu Ha) as [Hw Dw].
  split; [|split].
  - apply ancestor_iff; [done|]. by exists a.
  - apply ancestor_iff; [done|]. by exists b.
  - intros c dc dw Hcu Hcv Hdc Hdw.
    apply ancestor_iff in Hcu as (i & Hi & Ec); [|done].
    apply ancestor_iff in Hcv as (j & Hj & Ec'); [|done].
    destruct (up_ok i u Hu Hi) as [Hcok Dc]. rewrite <- Ec in Hcok, Dc.
    destruct (up_ok j v Hv Hj) as [_ Dc']. rewrite <- Ec' in Dc'.
    destruct (up_ok b v Hv Hb) as [_ Dw']. rewrite <- E in Dw'.
    apply at_depth_iff in Hdc; [|done]. apply at_depth_iff in Hdw; [|done].
    subst dc dw.
    destruct (decide (dep c <= dep (up s a u))) as [|Hgt]; [done|].
    exfalso.
    destruct Hc as [?|[?|Hne]]; [lia | lia |]. apply Hne.
    replace (a - 1)%nat with ((a - 1 - i) + i)%nat by lia.
    replace (b - 1)%nat with ((b - 1 - j) + j)%nat by lia.
    rewrite !up_add, <- Ec, <- Ec'. f_equal. lia.
Qed.

(** *** The queries on a built tree *)

Lemma meet_fuel u v a b :
  ok u → ok v → meet s u v a b → (a + b < HLD.loop_fuel s)%nat.
Proof.
  intros Hu Hv (_ & Ha & Hb & _).
  pose proof (inv_depth _ _ _ Hinv u Hu).
  pose proof (inv_depth _ _ _ Hinv v Hv).
  unfold HLD.loop_fuel. lia.
Qed.

Lemma query_path_meet u v a b :
  ok u → ok v → meet s u v a b →
  HLD.query_path s u v = Some (Int.wrap (total s u v a b)).
Proof.
  intros Hu Hv Hm. unfold HLD.query_path.
  rewrite (query_path_loop_spec _ u v a b) by eauto using meet_fuel. done.
Qed.

Lemma get_lca_meet u v a b :
  ok u → ok v → meet s u v a b → HLD.get_lca s u v = Some (up s a u).
Proof.
  intros Hu Hv Hm. unfold HLD.get_lca.
  by rewrite (get_lca_loop_spec _ u v a b) by eauto using meet_fuel.
Qed.

Lemma query_path_correct u v l :
  ok u → ok v → simple_path adj u v l →
  HLD.query_path s u v = Some (Int.wrap (path_sum (HLD.values s) l)).
Proof.
  intros Hu Hv Hl. destruct (path_total l u v Hl Hu Hv) as (a & b & Hm & ->).
  by apply query_path_meet.
Qed.

Lemma get_lca_correct u v :
  ok u → ok v →
  ∃ w, HLD.get_lca s u v = Some w ∧ ok w ∧ is_lca adj root u v w.
Proof.
  intros Hu Hv. destruct (meet_exists u v Hu Hv) as (a & b & Hm).
  exists (up s a u). split; [by eapply get_lca_meet|].
  destruct Hm as (E & Ha & Hb & Hc).
  split; [by apply up_ok|]. apply (meet_is_lca u v a b); done.
Qed.

Lemma query_path_self u :
  ok u → HLD.query_path s u u = Some (vget (HLD.values s) u).
Proof.
  intros Hu. rewrite (query_path_meet u u 0 0) by auto using meet_refl.
  unfold total, path_sum. simpl. f_equal.
  rewrite wrap_in_range; [lia|].
  replace (0 + vget (HLD.values s) u + 0) with (vget (HLD.values s) u) by lia.
  apply (inv_values_int _ _ _ Hinv).
Qed.

(** *** Existence and uniqueness of the simple path *)

Lemma branches_disjoint u v a b i j :
  ok u → ok v → meet s u v a b → (i < a)%nat → (j < b)%nat →
  up s i u ≠ up s j v.
Proof.
  intros Hu Hv (E & Ha & Hb & Hc) Hi Hj Eq.
  destruct (up_ok i u Hu) as [_ Di]; [lia|].
  destruct (up_ok j v Hv) as [_ Dj]; [lia|].
  destruct (up_ok a u Hu Ha) as [_ Da].
  destruct (up_ok b v Hv Hb) as [_ Db].
  rewrite Eq in Di. rewrite E in Da.
  destruct Hc as [?|[?|Hne]]; [lia | lia |]. apply Hne.
  replace (a - 1)%nat with ((a - 1 - i) + i)%nat by lia.
  replace (b - 1)%nat with ((b - 1 - j) + j)%nat by lia.
  rewrite !up_add, Eq. f_equal. lia.
Qed.

Lemma meet_unique u v a b a' b' :
  ok u → ok v → meet s u v a b → meet s u v a' b' → a = a' ∧ b = b'.
Proof.
  intros Hu Hv Hm Hm'.
  pose proof Hm as (E & Ha & Hb & _). pose proof Hm' as (E' & Ha' & Hb' & _).
  destruct (up_ok a u Hu Ha) as [_ Da].
  destruct (up_ok b v Hv Hb) as [_ Db].
  destruct (up_ok a' u Hu Ha') as [_ Da'].
  destruct (up_ok b' v Hv Hb') as [_ Db'].
  rewrite E in Da. rewrite E' in Da'.
  destruct (decide (a' < a)%nat).
  { exfalso. apply (branches_disjoint u v a b a' b'); try done. lia. }
  destruct (decide (a < a')%nat).
  { exfalso. apply (branches_disjoint u v a' b' a b); try done. lia. }
  lia.
Qed.

Lemma walk_app l1 x l2 :
  walk adj (l1 ++ [x]) → walk adj (x :: l2) → walk adj (l1 ++ x :: l2).
Proof.
  induction l1 as [|y l1 IH]; intros H1 H2; [done|].
  destruct l1 as [|z l1].
  - simpl in *. split; [apply H1 | done].
  - simpl in H1. destruct H1 as [Hyz H1]. simpl. split; [done|].
    by apply IH.
Qed.

Section undirected.
Hypothesis Hsym : ∀ x y, ok x → ok y → y ∈ aget adj x → x ∈ aget adj y.

Lemma walk_up x k :
  ok x → Z.of_nat k <= dep x + 1 → walk adj (chain_list s x k).
Proof.
  revert x. induction k as [|k IH]; intros x Hx Hk; [done|].
  destruct k as [|k]; [done|].
  destruct (parent_ok x Hx) as [Hp Hd]; [lia|].
  change (adjacent adj x (par x) ∧ walk adj (chain_list s (par x) (S k))).
  split; [|apply IH; [done|lia]].
  destruct (inv_down _ _ _ Hinv x Hx) as [->|Hin].
  - rewrite (inv_root_depth _ _ _ Hinv) in Hk. lia.
  - by apply Hsym.
Qed.

Lemma tree_path u v a b :
  ok u → ok v → meet s u v a b →
  simple_path adj u v
    (chain_list s u a ++ up s a u :: reverse (chain_list s v b)).
Proof.
  intros Hu Hv Hm. pose proof Hm as (E & Ha & Hb & _).
  split; [|split; [|split]].
  - by destruct a.
  - rewrite last_app. simpl. destruct b as [|b]; [by rewrite E|].
    cbn [chain_list]. rewrite reverse_cons, last_cons, last_snoc. done.
  - apply NoDup_app. split; [|split].
    + apply NoDup_chain_list; [done | lia].
    + intros x (i & Hi & ->)%elem_of_chain_list.
      intros [Ex|Hin]%elem_of_cons.
      * assert (i = a); [|lia].
        apply (up_inj_depth i a u); [done | lia | lia | done].
      * apply elem_of_reverse, elem_of_chain_list in Hin as (j & Hj & Ex).
        by apply (branches_disjoint u v a b i j).
    + rewrite E. apply NoDup_cons. split.
      * intros (j & Hj & Ex)%elem_of_reverse%elem_of_chain_list.
        assert (b = j); [|lia].
        apply (up_inj_depth b j v); [done | lia | lia | done].
      * rewrite reverse_Permutation. apply NoDup_chain_list; [done | lia].
  - apply walk_app.
    + rewrite <- chain_list_snoc. apply walk_up; [done | lia].
    + rewrite E, <- reverse_snoc, <- chain_list_snoc.
      apply walk_down; [done | lia].
Qed.

Lemma simple_path_unique u v :
  ok u → ok v →
  ∃ l, simple_path adj u v l
     ∧ (∀ l', simple_path adj u v l' → l' = l)
     ∧ HLD.query_path s u v
       = Some (Int.wrap (path_sum (HLD.values s) l)).
Proof.
  intros Hu Hv. destruct (meet_exists u v Hu Hv) as (a & b & Hm).
  eexists. split; [by apply (tree_path u v a b)|]. split.
  - intros l' Hl'.
    destruct (path_meet l' u v Hl' Hu Hv) as (a' & b' & Hm' & ->).
    by destruct (meet_unique u v a b a' b') as [-> ->].
  - apply query_path_correct; [done | done |]. by apply tree_path.
Qed.
End undirected.
End built.

(** ** Valid inputs and reachable states *)

Lemma Forall_ints l : Forall Int.in_range l → ints l.
Proof.
  intros H i. unfold vget. case_decide; [|done].
  destruct (l !! Z.to_nat i) as [x|] eqn:E; [|done].
  rewrite Forall_forall in H. apply H. by eapply list_elem_of_lookup_2.
Qed.

Lemma zlen_push_back a i x : zlen (push_back a i x) = zlen a.
Proof. unfold push_back, zlen. case_decide; [|done]. by rewrite length_insert. Qed.

Lemma aget_push_back a i x j :
  0 <= i < zlen a →
  aget (push_back a i x) j = if decide (j = i) then aget a i ++ [x] else aget a j.
Proof.
  intros Hi. unfold push_back. rewrite decide_True by lia.
  unfold aget at 1. unfold zlen in Hi. case_decide as Hj.
  - destruct (decide (j = i)) as [->|Hne].
    + rewrite list_lookup_insert_eq by lia. done.
    + rewrite list_lookup_insert_ne by lia. unfold aget.
      by rewrite decide_True by done.
  - rewrite decide_False by lia. unfold aget. by rewrite decide_False.
Qed.

Lemma elem_of_add_edge s u v x y :
  0 <= u < zlen (HLD.adj s) → 0 <= v < zlen (HLD.adj s) →
  y ∈ aget (HLD.adj (HLD.add_edge s u v)) x
  ↔ y ∈ aget (HLD.adj s) x ∨ (x = u ∧ y = v) ∨ (x = v ∧ y = u).
Proof.
  intros Hu Hv. unfold HLD.add_edge. simpl.
  rewrite aget_push_back by (by rewrite zlen_push_back).
  rewrite !aget_push_back by done.
  destruct (decide (x = v)) as [->|Hxv]; destruct (decide (v = u)) as [->|Hvu];
    try destruct (decide (x = u)) as [->|Hxu];
    rewrite ?elem_of_app, ?list_elem_of_singleton;
    intuition congruence.
Qed.

Lemma add_edges_symmetric s es :
  Forall (λ e, 0 <= e.1 < zlen (HLD.adj s) ∧ 0 <= e.2 < zlen (HLD.adj s)) es →
  symmetric (HLD.adj s) → symmetric (HLD.adj (add_edges s es)).
Proof.
  revert s. induction es as [|[u v] es IH]; intros s Hes Hs; [done|].
  apply Forall_cons in Hes as [[Hu Hv] Hes]. simpl in Hu, Hv.
  unfold add_edges. simpl. apply IH.
  - unfold HLD.add_edge. simpl. by rewrite !zlen_push_back.
  - intros x y. rewrite !elem_of_add_edge by done.
    intros [H|[[-> ->]|[-> ->]]]; [left; by apply Hs | right; by right |
      right; by left].
Qed.

Lemma initial_symmetric n vals es :
  Forall (λ e, 0 <= e.1 < n ∧ 0 <= e.2 < n) es →
  symmetric (HLD.adj (initial n vals es)).
Proof.
  intros Hes. destruct (decide (0 <= n)) as [Hn|Hn].
  - apply add_edges_symmetric.
    + simpl. by rewrite zlen_replicate.
    + intros x y. simpl. unfold aget. case_decide; [|by intros ?%elem_of_nil].
      destruct (replicate _ _ !! _) eqn:E; [|by intros ?%elem_of_nil].
      apply lookup_replicate in E as [-> _]. by intros ?%elem_of_nil.
  - destruct es as [|e es]; [|apply Forall_cons in Hes as [? _]; lia].
    intros x y. simpl. unfold aget. case_decide; [|by intros ?%elem_of_nil].
    destruct (replicate _ _ !! _) eqn:E; [|by intros ?%elem_of_nil].
    apply lookup_replicate in E as [-> _]. by intros ?%elem_of_nil.
Qed.

Section valid.
Context (n : Z) (vals : list Z) (es : list (Z * Z)) (root : Z) (t : rtree).
Hypothesis Hvalid : valid_input n vals es root t.

Local Abbreviation adj0 := (HLD.adj (initial n vals es)).

Lemma build_result :
  ∃ s a, HLD.build (initial n vals es) root = Some s
       ∧ HLD.N s = n ∧ HLD.adj s = adj0 ∧ HLD.values s = vals
       ∧ HLD.cur_pos s = n
       ∧ laid s (root_ctx root) t
       ∧ st_ok (HLD.seg_tree s) a ∧ SegmentTree.n (HLD.seg_tree s) = n
       ∧ (∀ x, 0 <= x < n → vget a (vget (HLD.pos s) x) = vget vals x).
Proof.
  destruct Hvalid as [Hl Hi _ Ht]. unfold initial in *.
  apply build_laid; [done | by apply Forall_ints | done].
Qed.

Lemma build_inv s :
  HLD.build (initial n vals es) root = Some s →
  HLD.N s = n ∧ HLD.values s = vals ∧ HLD.cur_pos s = n
  ∧ laid s (root_ctx root) t ∧ hld_inv adj0 root s.
Proof.
  intros Hb.
  destruct build_result as (s' & a & Hb' & HN & Hadj & Hv & Hc & Hl & Hst & Hn & Ha).
  rewrite Hb in Hb'. injection Hb' as <-.
  split; [done|]. split; [done|]. split; [done|]. split; [done|].
  destruct Hvalid as [Hlen Hi _ (Hr & _ & Hperm)].
  eapply laid_inv; try done.
  - by rewrite Hv.
  - rewrite Hv. by apply Forall_ints.
  - intros x Hx. rewrite Hv. by apply Ha.
Qed.

Lemma update_inv s u x :
  hld_inv adj0 root s → in_tree s u → Int.in_range x →
  ∃ s', HLD.update_node_value s u x = Some s'
      ∧ hld_inv adj0 root s'
      ∧ HLD.N s' = HLD.N s
      ∧ HLD.values s' = vset (HLD.values s) u x.
Proof.
  intros Hinv Hu Hx. destruct (inv_seg _ _ _ Hinv) as (a & Hst & Hn & Ha).
  pose proof (inv_pos_range _ _ _ Hinv u Hu) as Hp.
  unfold HLD.update_node_value. simpl.
  destruct (update_ok (HLD.seg_tree s) a (vget (HLD.pos s) u) x)
    as (st' & -> & Hst'); [done | lia | done |].
  simpl. eexists. split; [done|]. split; [|done].
  pose proof (inv_pos_inj _ _ _ Hinv) as Hpinj.
  destruct Hinv. split; simpl; try done.
  - by rewrite zlen_vset.
  - by apply ints_vset.
  - exists (vset a (vget (HLD.pos s) u) x). split; [done|].
    destruct Hst as (_ & Hla & _). destruct Hst' as (_ & Hla' & _).
    rewrite zlen_vset in Hla'. split; [lia|].
    intros y Hy. destruct (decide (y = u)) as [->|Hne].
    + rewrite !vget_vset_eq; [done | unfold in_tree in *; lia | lia].
    + rewrite !vget_vset_ne; [by apply Ha | done |].
      intros E. apply Hne. symmetry. by apply Hpinj.
Qed.

Lemma reachable_inv s :
  reachable n vals es root s → HLD.N s = n ∧ hld_inv adj0 root s.
Proof.
  induction 1 as [s Hb|s u x s' Hr [HN IH] Hu Hx Hup].
  - destruct (build_inv s Hb) as (? & _ & _ & _ & ?). done.
  - destruct (update_inv s u x IH) as (s'' & Hup' & ? & ? & _);
      [unfold in_tree; lia | done |].
    rewrite Hup in Hup'. injection Hup' as <-. split; [lia | done].
Qed.

Lemma reachable_adj s : reachable n vals es root s → HLD.adj s = adj0.
Proof. intros Hr. destruct (reachable_inv s Hr) as [_ H]. apply H. Qed.
End valid.

(** ** Heavy children *)

Lemma pick_heavy_spec ks :
  ∀ h mx,
    (pick_heavy ks h mx = h ∧ ∀ k, k ∈ ks → tsize k <= mx) ∨
    ∃ pre k post, ks = pre ++ k :: post ∧ pick_heavy ks h mx = rid k
      ∧ mx < tsize k
      ∧ (∀ k', k' ∈ pre → tsize k' < tsize k)
      ∧ (∀ k', k' ∈ post → tsize k' <= tsize k).
Proof.
  induction ks as [|k0 ks IH]; intros h mx.
  { left. split; [done|]. by intros k ?%elem_of_nil. }
  simpl. destruct (tsize k0 >? mx) eqn:E.
  - apply Z.gtb_gt in E. right.
    destruct (IH (rid k0) (tsize k0))
      as [[Hp Hall]|(pre & k & post & -> & Hp & Hmx & Hpre & Hpost)].
    + exists [], k0, ks. split; [done|]. split; [done|]. split; [lia|].
      split; [by intros k ?%elem_of_nil | done].
    + exists (k0 :: pre), k, post. split; [done|]. split; [done|].
      split; [lia|]. split; [|done].
      intros k' [->|Hk']%elem_of_cons; [lia | by apply Hpre].
  - assert (tsize k0 <= mx) by (destruct (Z.gtb_spec (tsize k0) mx); [done|lia]).
    destruct (IH h mx)
      as [[Hp Hall]|(pre & k & post & -> & Hp & Hmx & Hpre & Hpost)].
    + left. split; [done|].
      intros k [->|Hk]%elem_of_cons; [done | by apply Hall].
    + right. exists (k0 :: pre), k, post. split; [done|]. split; [done|].
      split; [done|]. split; [|done].
      intros k' [->|Hk']%elem_of_cons; [lia | by apply Hpre].
Qed.

Lemma laid_heavy_kid s c u ks :
  laid s c (RNode u ks) → heavy_id ks ≠ -1 →
  view2 s (heavy_id ks) = (c_head c, c_pos c + 1).
Proof.
  intros (_ & _ & Hp2 & Hnd) Hne.
  change (NoDup (u :: knodes ks)) in Hnd. apply NoDup_cons in Hnd as [_ Hnd].
  inversion Hp2 as [? ? ? ? _ Hks]; subst.
  destruct (heavies_cases ks Hnd) as [E|(hk & Hhk & Hid & E)].
  - destruct (heavy_id_in ks) as [[_ ?]|(k & Hk & Hid)]; [done|].
    exfalso. apply (filter_nil_not_elem_of _ _ k E); done.
  - unfold visit_order in Hks. rewrite E in Hks. simpl in Hks.
    apply Forall_cons in Hks as [Hk _]. simpl in Hk.
    inversion Hk; subst. by rewrite Hid.
Qed.

(** ** The arrays after [build] *)

Section after_build.
Context (n : Z) (vals : list Z) (es : list (Z * Z)) (root : Z) (t : rtree).
Hypothesis Hvalid : valid_input n vals es root t.

Lemma contiguity_at s u :
  HLD.build (initial n vals es) root = Some s → 0 <= u < n →
  vget (HLD.heavy_child s) u ≠ -1 →
  vget (HLD.pos s) (vget (HLD.heavy_child s) u) = vget (HLD.pos s) u + 1.
Proof.
  intros Hb Hu Hc.
  destruct (build_inv n vals es root t Hvalid s Hb) as (HN & _ & _ & Hl & _).
  assert (u ∈ nodes t) as Hin.
  { destruct Hvalid as [_ _ _ (_ & _ & Hperm)].
    rewrite Hperm, elem_of_seqZ. lia. }
  destruct (node_cases _ _ _ _ Hl Hin) as (c & ks & Hlu & _).
  pose proof (laid_views _ _ _ _ Hlu) as (Hv1 & Hv2 & _).
  unfold view1 in Hv1. injection Hv1 as _ _ _ Hh. rewrite Hh in *.
  pose proof (laid_heavy_kid _ _ _ _ Hlu Hc) as Hk.
  unfold view2 in Hk, Hv2. injection Hk as _ ->. injection Hv2 as _ ->. done.
Qed.

Lemma pass1_at s u :
  HLD.build (initial n vals es) root = Some s → 0 <= u < n →
  (∀ c, c ∈ children s u →
     vget (HLD.parent s) c = u ∧
     vget (HLD.depth s) c = vget (HLD.depth s) u + 1)
  ∧ vget (HLD.subtree_size s) u
    = 1 + sumZ (vget (HLD.subtree_size s) <$> children s u)
  ∧ first_max (vget (HLD.subtree_size s)) (children s u)
      (vget (HLD.heavy_child s) u).
Proof.
  intros Hb Hu.
  destruct (build_inv n vals es root t Hvalid s Hb) as (HN & _ & _ & Hl & _).
  assert (u ∈ nodes t) as Hin.
  { destruct Hvalid as [_ _ _ (_ & _ & Hperm)].
    rewrite Hperm, elem_of_seqZ. lia. }
  destruct (node_cases _ _ _ _ Hl Hin) as (c & ks & Hlu & _).
  pose proof (laid_views _ _ _ _ Hlu) as (Hv1 & _ & Hfil).
  unfold view1 in Hv1. injection Hv1 as Hp Hd Hs Hh.
  assert (Hcs : children s u = rid <$> ks).
  { unfold children. by rewrite Hp. }
  assert (Hkid : ∀ k, k ∈ ks →
            vget (HLD.parent s) (rid k) = u
            ∧ vget (HLD.depth s) (rid k) = vget (HLD.depth s) u + 1
            ∧ vget (HLD.subtree_size s) (rid k) = tsize k).
  { intros k Hk. pose proof (laid_kid _ _ _ _ _ Hlu Hk) as Hv.
    unfold view1 in Hv. injection Hv as -> -> -> _. by rewrite Hd. }
  rewrite Hcs. split; [|split].
  - intros x (k & -> & Hk)%list_elem_of_fmap.
    by destruct (Hkid k Hk) as (? & ? & _).
  - rewrite Hs, tsize_node. do 2 f_equal.
    rewrite <- list_fmap_compose. apply list_fmap_ext.
    intros i k Hk. simpl. symmetry.
    by apply Hkid, list_elem_of_lookup_2 with i.
  - rewrite Hh. unfold heavy_id.
    destruct (pick_heavy_spec ks (-1) 0)
      as [[Hpk Hall]|(pre & k & post & -> & Hpk & _ & Hpre & Hpost)].
    + left. split; [|done]. destruct ks as [|k ks]; [done|].
      pose proof (Hall k ltac:(left)). pose proof (tsize_pos k). lia.
    + right. exists (rid <$> pre), (rid <$> post).
      rewrite Hpk, fmap_app, fmap_cons. split; [done|].
      assert (Hk : vget (HLD.subtree_size s) (rid k) = tsize k).
      { apply Hkid. apply elem_of_app. right. left. }
      rewrite Hk. split.
      * intros x (k' & -> & Hk')%list_elem_of_fmap.
        destruct (Hkid k') as (_ & _ & ->);
          [apply elem_of_app; by left | by apply Hpre].
      * intros x (k' & -> & Hk')%list_elem_of_fmap.
        destruct (Hkid k') as (_ & _ & ->);
          [apply elem_of_app; right; by right | by apply Hpost].
Qed.
End after_build.

(** * The claims *)

(** C1: on every state of a built valid tree and for all nodes [u] and
    [v], there is exactly one simple path from [u] to [v], and
    [query_path u v] returns the sum, in [int] arithmetic, of the current
    values of the nodes on it: the exact sum whenever that fits in an
    [int]. *)
Theorem query_path_sum n vals es root t s u v :
  valid_input n vals es root t → reachable n vals es root s →
  0 <= u < n → 0 <= v < n →
  ∃ l, simple_path (HLD.adj s) u v l
     ∧ (∀ l', simple_path (HLD.adj s) u v l' → l' = l)
     ∧ HLD.query_path s u v = Some (Int.wrap (path_sum (HLD.values s) l))
     ∧ (Int.in_range (path_sum (HLD.values s) l) →
        HLD.query_path s u v = Some (path_sum (HLD.values s) l)).
Proof.
  intros Hvalid Hr Hu Hv.
  destruct (reachable_inv _ _ _ _ _ Hvalid s Hr) as [HN Hinv].
  rewrite (inv_adj _ _ _ Hinv).
  destruct (simple_path_unique _ _ _ Hinv) with (u := u) (v := v)
    as (l & Hl & Huniq & Hq).
  - intros x y _ _. apply initial_symmetric, Hvalid.
  - unfold in_tree. lia.
  - unfold in_tree. lia.
  - exists l. split; [done|]. split; [done|]. split; [done|].
    intros Hrange. by rewrite Hq, wrap_in_range.
Qed.

(** C2: [get_lca u v] returns the lowest common ancestor of [u] and [v]:
    a node that lies on the paths from the root to [u] and to [v] and is
    at least as deep as every other such node.  The loop stops as soon as
    the two nodes have the same chain head, and then returns the
    shallower one. *)
Theorem get_lca_lowest_common_ancestor n vals es root t s u v :
  valid_input n vals es root t → reachable n vals es root s →
  0 <= u < n → 0 <= v < n →
  (∃ w, HLD.get_lca s u v = Some w ∧ 0 <= w < n
        ∧ is_lca (HLD.adj s) root u v w)
  ∧ (∀ fuel u' v', vget (HLD.head s) u' = vget (HLD.head s) v' →
       HLD.get_lca_loop (S fuel) s u' v'
       = Some (if vget (HLD.depth s) u' <? vget (HLD.depth s) v'
               then u' else v')).
Proof.
  intros Hvalid Hr Hu Hv.
  destruct (reachable_inv _ _ _ _ _ Hvalid s Hr) as [HN Hinv].
  split.
  - destruct (get_lca_correct _ _ _ Hinv u v) as (w & Hw & Hok & Hlca);
      [unfold in_tree; lia | unfold in_tree; lia |].
    exists w. split; [done|]. unfold in_tree in Hok.
    split; [lia|]. by rewrite (inv_adj _ _ _ Hinv).
  - intros fuel u' v' Hh. simpl. rewrite Hh, Z.eqb_refl. done.
Qed.

(** C3: after [build], the heavy child of every node that has one is
    placed immediately after the node. *)
Theorem heavy_child_contiguous n vals es root t :
  valid_input n vals es root t →
  ∃ s, HLD.build (initial n vals es) root = Some s ∧
    ∀ u c, 0 <= u < n → vget (HLD.heavy_child s) u = c → c ≠ -1 →
      vget (HLD.pos s) c = vget (HLD.pos s) u + 1.
Proof.
  intros Hvalid.
  destruct (build_result _ _ _ _ _ Hvalid) as (s & a & Hb & _).
  exists s. split; [done|]. intros u c Hu <- Hc.
  by eapply contiguity_at.
Qed.

(** C4: after [build], the root has parent -1 and depth 0; every other
    node is a child of its parent; the depth of a node is its distance
    from the root; and for every node, each child has the node as parent
    and lies one level deeper, the subtree size is 1 plus the sizes of
    the children, and the heavy child is the first child, in adjacency
    order, of maximal subtree size (-1 for a leaf). *)
Theorem pass1_attributes n vals es root t :
  valid_input n vals es root t →
  ∃ s, HLD.build (initial n vals es) root = Some s
    ∧ vget (HLD.parent s) root = -1 ∧ vget (HLD.depth s) root = 0
    ∧ ∀ u, 0 <= u < n →
        (u ≠ root →
           0 <= vget (HLD.parent s) u < n
           ∧ u ∈ children s (vget (HLD.parent s) u))
        ∧ at_depth (HLD.adj s) root u (vget (HLD.depth s) u)
        ∧ (∀ c, c ∈ children s u →
             vget (HLD.parent s) c = u
             ∧ vget (HLD.depth s) c = vget (HLD.depth s) u + 1)
        ∧ vget (HLD.subtree_size s) u
          = 1 + sumZ (vget (HLD.subtree_size s) <$> children s u)
        ∧ first_max (vget (HLD.subtree_size s)) (children s u)
            (vget (HLD.heavy_child s) u).
Proof.
  intros Hvalid.
  destruct (build_result _ _ _ _ _ Hvalid) as (s & a & Hb & _).
  destruct (build_inv _ _ _ _ _ Hvalid s Hb) as (HN & _ & _ & _ & Hinv).
  exists s. split; [done|].
  split; [apply (inv_root_parent _ _ _ Hinv)|].
  split; [apply (inv_root_depth _ _ _ Hinv)|].
  intros u Hu. assert (in_tree s u) as Hok by (unfold in_tree; lia).
  split; [|split].
  - intros Hne.
    destruct (inv_parent _ _ _ Hinv u Hok) as [?|[Hp Hd]]; [done|].
    split; [unfold in_tree in Hp; lia|].
    unfold children. apply list_elem_of_filter. split.
    + intros E.
      destruct (inv_parent _ _ _ Hinv _ Hp) as [Er|[_ Hd']].
      * rewrite Er, (inv_root_parent _ _ _ Hinv) in E. lia.
      * rewrite <- E in Hd'. lia.
    + rewrite (inv_adj _ _ _ Hinv).
      by destruct (inv_down _ _ _ Hinv u Hok).
  - rewrite (inv_adj _ _ _ Hinv). by apply (at_depth_iff _ _ _ Hinv).
  - by eapply pass1_at.
Qed.

(** C5: a point update of node [u] to [x] returns; afterwards
    [query_path u u] is [x], every path query returns the sum in which
    [u] counts as [x] and every other node as before, and the values of
    the other nodes are unchanged. *)
Theorem update_node_value_consistent n vals es root t s u x :
  valid_input n vals es root t → reachable n vals es root s →
  0 <= u < n → Int.in_range x →
  ∃ s', HLD.update_node_value s u x = Some s'
    ∧ HLD.query_path s' u u = Some x
    ∧ (∀ a b l, 0 <= a < n → 0 <= b < n → simple_path (HLD.adj s') a b l →
         HLD.query_path s' a b
         = Some (Int.wrap (sumZ ((λ y, if decide (y = u) then x
                                       else vget (HLD.values s) y) <$> l))))
    ∧ vget (HLD.values s') u = x
    ∧ (∀ y, y ≠ u → vget (HLD.values s') y = vget (HLD.values s) y).
Proof.
  intros Hvalid Hr Hu Hx.
  destruct (reachable_inv _ _ _ _ _ Hvalid s Hr) as [HN Hinv].
  destruct (update_inv _ _ _ _ s u x Hinv) as (s' & Hup & Hinv' & HN' & Hv');
    [unfold in_tree; lia | done |].
  assert (Hget : ∀ y, vget (HLD.values s') y
                      = if decide (y = u) then x else vget (HLD.values s) y).
  { intros y. rewrite Hv'. pose proof (inv_values_len _ _ _ Hinv).
    case_decide as E; [subst y; apply vget_vset_eq; lia|].
    by apply vget_vset_ne. }
  exists s'. split; [done|]. split; [|split; [|split]].
  - rewrite (query_path_self _ _ _ Hinv') by (unfold in_tree; lia).
    by rewrite Hget, decide_True.
  - intros a b l Ha Hb Hl. rewrite (inv_adj _ _ _ Hinv') in Hl.
    rewrite (query_path_correct _ _ _ Hinv' a b l);
      [| unfold in_tree; lia | unfold in_tree; lia | done].
    do 3 f_equal. unfold path_sum. f_equal. apply list_fmap_ext.
    intros i y _. apply Hget.
  - by rewrite Hget, decide_True.
  - intros y Hy. by rewrite Hget, decide_False.
Qed.

(** C6: with [w = get_lca u v], the sums of the paths from [u] to [w] and
    from [v] to [w], minus the value of [w], make the sum of the path
    from [u] to [v]: in [int] arithmetic always, and exactly when the left
    side does not overflow. *)
Theorem query_path_additive n vals es root t s u v :
  valid_input n vals es root t → reachable n vals es root s →
  0 <= u < n → 0 <= v < n →
  ∃ w qu qv quv,
    HLD.get_lca s u v = Some w
    ∧ HLD.query_path s u w = Some qu
    ∧ HLD.query_path s v w = Some qv
    ∧ HLD.query_path s u v = Some quv
    ∧ Int.wrap (Int.wrap (qu + qv) - vget (HLD.values s) w) = quv
    ∧ (Int.in_range (qu + qv - vget (HLD.values s) w) →
       qu + qv - vget (HLD.values s) w = quv).
Proof.
  intros Hvalid Hr Hu Hv.
  destruct (reachable_inv _ _ _ _ _ Hvalid s Hr) as [HN Hinv].
  assert (in_tree s u) as Hou by (unfold in_tree; lia).
  assert (in_tree s v) as Hov by (unfold in_tree; lia).
  destruct (meet_exists _ _ _ Hinv u v Hou Hov) as (a & b & Hm).
  pose proof Hm as (E & Ha & Hb & _).
  destruct (up_ok _ _ _ Hinv a u Hou Ha) as [How Dw].
  pose proof (inv_depth _ _ _ Hinv _ How) as Hdw.
  assert (meet s u (up s a u) a 0) as Hmu.
  { split; [done|]. split; [done|]. split; [simpl; lia | right; by left]. }
  assert (meet s v (up s a u) b 0) as Hmv.
  { split; [by rewrite E|]. split; [done|]. split; [simpl; lia | right; by left]. }
  exists (up s a u), (Int.wrap (total s u (up s a u) a 0)),
    (Int.wrap (total s v (up s a u) b 0)), (Int.wrap (total s u v a b)).
  split; [by eapply get_lca_meet|].
  split; [by eapply query_path_meet|].
  split; [by eapply query_path_meet|].
  split; [by eapply query_path_meet|].
  assert (Int.wrap (Int.wrap (total s u (up s a u) a 0)
                    + Int.wrap (total s v (up s a u) b 0)
                    - vget (HLD.values s) (up s a u))
          = Int.wrap (total s u v a b)) as Hsum.
  { rewrite wrap_add_sub. f_equal.
    unfold total. rewrite <- E. unfold path_sum. simpl. lia. }
  split.
  - by rewrite wrap_sub_l.
  - intros Hrg. rewrite <- Hsum. symmetry. by apply wrap_in_range.
Qed.

(** C7: path sums and lowest common ancestors do not depend on the order
    of the two nodes. *)
Theorem query_path_get_lca_symmetric n vals es root t s u v :
  valid_input n vals es root t → reachable n vals es root s →
  0 <= u < n → 0 <= v < n →
  ∃ q w, HLD.query_path s u v = Some q ∧ HLD.query_path s v u = Some q
       ∧ HLD.get_lca s u v = Some w ∧ HLD.get_lca s v u = Some w.
Proof.
  intros Hvalid Hr Hu Hv.
  destruct (reachable_inv _ _ _ _ _ Hvalid s Hr) as [HN Hinv].
  assert (in_tree s u) as Hou by (unfold in_tree; lia).
  assert (in_tree s v) as Hov by (unfold in_tree; lia).
  destruct (meet_exists _ _ _ Hinv u v Hou Hov) as (a & b & Hm).
  pose proof (meet_sym _ _ _ _ _ Hm) as Hm'.
  exists (Int.wrap (total s u v a b)), (up s a u).
  split; [by eapply query_path_meet|].
  split; [rewrite (total_sym s u v a b Hm); by eapply query_path_meet|].
  split; [by eapply get_lca_meet|].
  destruct Hm as (-> & _). by eapply get_lca_meet.
Qed.

(** C8: the path from a node to itself sums to the current value of the
    node. *)
Theorem query_path_singleton n vals es root t s u :
  valid_input n vals es root t → reachable n vals es root s →
  0 <= u < n →
  HLD.query_path s u u = Some (vget (HLD.values s) u).
Proof.
  intros Hvalid Hr Hu.
  destruct (reachable_inv _ _ _ _ _ Hvalid s Hr) as [HN Hinv].
  apply (query_path_self _ _ _ Hinv). unfold in_tree. lia.
Qed.

(** C9: a range query with [left > right] returns 0, whatever the
    segment tree holds. *)
Theorem segment_query_empty_range (st : SegmentTree.t) (left right : Z) :
  left > right → SegmentTree.query st left right = Some 0.
Proof.
  intros H. unfold SegmentTree.query.
  by rewrite (proj2 (Z.gtb_gt _ _)) by lia.
Qed.

(** C10: after [build], the position counter has been incremented once
    per node, and [pos] is a bijection from the nodes [0 .. n-1] onto the
    positions [0 .. n-1]. *)
Theorem pos_bijection n vals es root t :
  valid_input n vals es root t →
  ∃ s, HLD.build (initial n vals es) root = Some s
    ∧ HLD.cur_pos s = n
    ∧ (∀ u, 0 <= u < n → 0 <= vget (HLD.pos s) u < n)
    ∧ (∀ u v, 0 <= u < n → 0 <= v < n →
         vget (HLD.pos s) u = vget (HLD.pos s) v → u = v)
    ∧ (∀ p, 0 <= p < n → ∃ u, 0 <= u < n ∧ vget (HLD.pos s) u = p).
Proof.
  intros Hvalid.
  destruct (build_result _ _ _ _ _ Hvalid) as (s & a & Hb & _ & _ & _ & Hc & Hl & _).
  exists s. split; [done|]. split; [done|].
  destruct Hl as (_ & _ & Hp2 & _). simpl in Hp2.
  destruct Hvalid as [_ _ _ (_ & _ & Hperm)].
  exact (pos_facts s root t n Hp2 Hperm).
Qed.

(** * Witnesses on the tree of the test suite *)

(** ** The tree of the test suite *)

Lemma ex_valid : valid_input 7 ex_vals ex_edges 1 ex_tree.
Proof.
  split.
  - reflexivity.
  - unfold ex_vals, Int.in_range, Int.min_int, Int.max_int.
    repeat constructor; lia.
  - unfold ex_edges. repeat constructor; simpl; lia.
  - split; [reflexivity|]. split.
    + repeat (constructor; [reflexivity|]); repeat constructor.
    + compute_done.
Qed.

Lemma ex_built : HLD.build (initial 7 ex_vals ex_edges) 1 = Some ex_state.
Proof. vm_compute. reflexivity. Qed.

Lemma ex_reachable : reachable 7 ex_vals ex_edges 1 ex_state.
Proof. apply reach_build, ex_built. Qed.

Lemma ex_path : simple_path (HLD.adj ex_state) 4 6 [4; 0; 1; 3; 5; 6].
Proof.
  split; [reflexivity|]. split; [reflexivity|]. split; [compute_done|].
  simpl. unfold adjacent. repeat split; compute_done.
Qed.

Lemma query_path_sum_witness :
  simple_path (HLD.adj ex_state) 4 6 [4; 0; 1; 3; 5; 6]
  ∧ HLD.query_path ex_state 4 6 = Some 31.
Proof.
  split; [exact ex_path|].
  destruct (query_path_sum 7 ex_vals ex_edges 1 ex_tree ex_state 4 6)
    as (l & _ & Huniq & Hq & _).
  - exact ex_valid.
  - exact ex_reachable.
  - lia.
  - lia.
  - rewrite Hq, <- (Huniq _ ex_path). reflexivity.
Defined.

Lemma get_lca_lowest_common_ancestor_witness :
  ∃ w, HLD.get_lca ex_state 4 6 = Some w ∧ 0 <= w < 7
       ∧ is_lca (HLD.adj ex_state) 1 4 6 w.
Proof.
  apply (get_lca_lowest_common_ancestor 7 ex_vals ex_edges 1 ex_tree
           ex_state 4 6).
  - exact ex_valid.
  - exact ex_reachable.
  - lia.
  - lia.
Defined.

Lemma heavy_child_contiguous_witness :
  ∃ s, HLD.build (initial 7 ex_vals ex_edges) 1 = Some s ∧
    ∀ u c, 0 <= u < 7 → vget (HLD.heavy_child s) u = c → c ≠ -1 →
      vget (HLD.pos s) c = vget (HLD.pos s) u + 1.
Proof.
  apply (heavy_child_contiguous 7 ex_vals ex_edges 1 ex_tree).
  exact ex_valid.
Defined.

Lemma pass1_attributes_witness :
  ∃ s, HLD.build (initial 7 ex_vals ex_edges) 1 = Some s
    ∧ vget (HLD.parent s) 1 = -1 ∧ vget (HLD.depth s) 1 = 0
    ∧ ∀ u, 0 <= u < 7 →
        (u ≠ 1 →
           0 <= vget (HLD.parent s) u < 7
           ∧ u ∈ children s (vget (HLD.parent s) u))
        ∧ at_depth (HLD.adj s) 1 u (vget (HLD.depth s) u)
        ∧ (∀ c, c ∈ children s u →
             vget (HLD.parent s) c = u
             ∧ vget (HLD.depth s) c = vget (HLD.depth s) u + 1)
        ∧ vget (HLD.subtree_size s) u
          = 1 + sumZ (vget (HLD.subtree_size s) <$> children s u)
        ∧ first_max (vget (HLD.subtree_size s)) (children s u)
            (vget (HLD.heavy_child s) u).
Proof.
  apply (pass1_attributes 7 ex_vals ex_edges 1 ex_tree).
  exact ex_valid.
Defined.

Lemma update_node_value_consistent_witness :
  ∃ s', HLD.update_node_value ex_state 1 100 = Some s'
    ∧ HLD.query_path s' 1 1 = Some 100
    ∧ (∀ a b l, 0 <= a < 7 → 0 <= b < 7 → simple_path (HLD.adj s') a b l →
         HLD.query_path s' a b
         = Some (Int.wrap (sumZ ((λ y, if decide (y = 1) then 100
                                       else vget (HLD.values ex_state) y)
                                 <$> l))))
    ∧ vget (HLD.values s') 1 = 100
    ∧ (∀ y, y ≠ 1 → vget (HLD.values s') y = vget (HLD.values ex_state) y).
Proof.
  apply (update_node_value_consistent 7 ex_vals ex_edges 1 ex_tree
           ex_state 1 100).
  - exact ex_valid.
  - exact ex_reachable.
  - lia.
  - unfold Int.in_range, Int.min_int, Int.max_int. lia.
Defined.

Lemma query_path_additive_witness :
  ∃ w qu qv quv,
    HLD.get_lca ex_state 4 6 = Some w
    ∧ HLD.query_path ex_state 4 w = Some qu
    ∧ HLD.query_path ex_state 6 w = Some qv
    ∧ HLD.query_path ex_state 4 6 = Some quv
    ∧ Int.wrap (Int.wrap (qu + qv) - vget (HLD.values ex_state) w) = quv
    ∧ (Int.in_range (qu + qv - vget (HLD.values ex_state) w) →
       qu + qv - vget (HLD.values ex_state) w = quv).
Proof.
  apply (query_path_additive 7 ex_vals ex_edges 1 ex_tree ex_state 4 6).
  - exact ex_valid.
  - exact ex_reachable.
  - lia.
  - lia.
Defined.

Lemma query_path_get_lca_symmetric_witness :
  ∃ q w, HLD.query_path ex_state 4 6 = Some q
       ∧ HLD.query_path ex_state 6 4 = Some q
       ∧ HLD.get_lca ex_state 4 6 = Some w
       ∧ HLD.get_lca ex_state 6 4 = Some w.
Proof.
  apply (query_path_get_lca_symmetric 7 ex_vals ex_edges 1 ex_tree
           ex_state 4 6).
  - exact ex_valid.
  - exact ex_reachable.
  - lia.
  - lia.
Defined.

Lemma query_path_singleton_witness :
  HLD.query_path ex_state 6 6 = Some 7.
Proof.
  apply (query_path_singleton 7 ex_vals ex_edges 1 ex_tree ex_state 6).
  - exact ex_valid.
  - exact ex_reachable.
  - lia.
Defined.

Lemma segment_query_empty_range_witness :
  SegmentTree.query (HLD.seg_tree ex_state) 3 2 = Some 0.
Proof.
  apply (segment_query_empty_range (HLD.seg_tree ex_state) 3 2). lia.
Defined.

Lemma pos_bijection_witness :
  ∃ s, HLD.build (initial 7 ex_vals ex_edges) 1 = Some s
    ∧ HLD.cur_pos s = 7
    ∧ (∀ u, 0 <= u < 7 → 0 <= vget (HLD.pos s) u < 7)
    ∧ (∀ u v, 0 <= u < 7 → 0 <= v < 7 →
         vget (HLD.pos s) u = vget (HLD.pos s) v → u = v)
    ∧ (∀ p, 0 <= p < 7 → ∃ u, 0 <= u < 7 ∧ vget (HLD.pos s) u = p).
Proof.
  apply (pos_bijection 7 ex_vals ex_edges 1 ex_tree).
  exact ex_valid.
Defined.

(** * The assertions of the test functions

    The embedding, run on the four scenarios of the test suite, gives the
    values that the C++ assertions expect. *)

Example test_single_node_tree :
  (s ← HLD.build (initial 1 [100] []) 0;
   s' ← HLD.update_node_value s 0 50;
   Some [HLD.query_path s 0 0; HLD.get_lca s 0 0; HLD.query_path s' 0 0])
  = Some [Some 100; Some 0; Some 50].
Proof. vm_compute. reflexivity. Qed.

Example test_line_graph :
  (s ← HLD.build (initial 4 [10; 20; 30; 40] [(0, 1); (1, 2); (2, 3)]) 0;
   s' ← HLD.update_node_value s 1 200;
   Some [HLD.query_path s 0 0; HLD.query_path s 1 1; HLD.query_path s 0 1;
         HLD.query_path s 1 0; HLD.query_path s 0 3; HLD.query_path s 3 0;
         HLD.query_path s 1 2; HLD.query_path s 2 3;
         HLD.get_lca s 0 0; HLD.get_lca s 0 3; HLD.get_lca s 1 3;
         HLD.get_lca s 2 3; HLD.get_lca s 3 1;
         HLD.query_path s' 0 0; HLD.query_path s' 1 1;
         HLD.query_path s' 0 1; HLD.query_path s' 0 3])
  = Some [Some 10; Some 20; Some 30; Some 30; Some 100; Some 100;
          Some 50; Some 70;
          Some 0; Some 0; Some 1; Some 2; Some 1;
          Some 10; Some 200; Some 210; Some 280].
Proof. vm_compute. reflexivity. Qed.

Example test_star_graph :
  (s ← HLD.build (initial 4 [100; 10; 20; 30] [(0, 1); (0, 2); (0, 3)]) 0;
   s1 ← HLD.update_node_value s 0 5;
   s2 ← HLD.update_node_value s1 2 200;
   Some [HLD.query_path s 0 0; HLD.query_path s 1 1; HLD.query_path s 0 1;
         HLD.query_path s 1 2; HLD.query_path s 2 1; HLD.query_path s 1 3;
         HLD.get_lca s 0 1; HLD.get_lca s 1 2; HLD.get_lca s 1 0;
         HLD.get_lca s 3 2;
         HLD.query_path s1 0 1; HLD.query_path s1 1 2;
         HLD.query_path s2 1 2; HLD.query_path s2 0 2])
  = Some [Some 100; Some 10; Some 110; Some 130; Some 130; Some 140;
          Some 0; Some 0; Some 0; Some 0;
          Some 15; Some 35; Some 215; Some 205].
Proof. vm_compute. reflexivity. Qed.

Example test_original_example_tree :
  (s1 ← HLD.update_node_value ex_state 1 100;
   s2 ← HLD.update_node_value s1 6 70;
   Some [HLD.query_path ex_state 4 6; HLD.query_path ex_state 6 4;
         HLD.query_path ex_state 0 2; HLD.query_path ex_state 1 1;
         HLD.query_path ex_state 6 6; HLD.query_path ex_state 1 6;
         HLD.get_lca ex_state 4 6; HLD.get_lca ex_state 4 0;
         HLD.get_lca ex_state 2 5; HLD.get_lca ex_state 6 3;
         HLD.get_lca ex_state 4 2;
         HLD.query_path s1 4 6; HLD.query_path s1 0 2;
         HLD.query_path s2 4 6])
  = Some [Some 31; Some 31; Some 17; Some 10; Some 7; Some 21;
          Some 1; Some 0; Some 1; Some 3; Some 1;
          Some 121; Some 107; Some 184].
Proof. vm_compute. reflexivity. Qed.

(** * Further properties of the segment tree *)

Lemma st_ok_n st a : st_ok st a → zlen a = SegmentTree.n st.
Proof. by intros (_ & ? & _). Qed.

Lemma run_updates_ok us :
  ∀ st a,
    st_ok st a →
    Forall (λ u, 0 <= u.1 < SegmentTree.n st ∧ Int.in_range u.2) us →
    ∃ st', run_updates st us = Some st' ∧ st_ok st' (written a us)
         ∧ SegmentTree.n st' = SegmentTree.n st.
Proof.
  induction us as [|u us IH]; intros st a Hok Hus.
  - exists st. done.
  - apply Forall_cons in Hus as [[Hi Hx] Hus].
    destruct (update_ok st a u.1 u.2 Hok Hi Hx) as (st1 & Hu & Hok1).
    assert (SegmentTree.n st1 = SegmentTree.n st) as Hn.
    { rewrite <- (st_ok_n _ _ Hok1), <- (st_ok_n _ _ Hok). apply zlen_vset. }
    destruct (IH st1 (vset a u.1 u.2) Hok1) as (st' & Hr & Hok' & Hn').
    { by rewrite Hn. }
    exists st'. simpl. rewrite Hu. simpl. split; [done|].
    split; [done | congruence].
Qed.

Lemma new_built n a :
  1 <= n → zlen a = n → Forall Int.in_range a →
  ∃ st, SegmentTree.build_from_mapped_values (SegmentTree.new n) a = Some st
      ∧ SegmentTree.n st = n ∧ st_ok st a.
Proof.
  intros Hn Hl Ha.
  apply (build_from_mapped_values_ok (SegmentTree.new n) a); simpl;
    [done | apply zlen_replicate; lia | done | by apply Forall_ints].
Qed.

Lemma built_updated n a us :
  1 <= n → zlen a = n → Forall Int.in_range a →
  Forall (λ u, 0 <= u.1 < n ∧ Int.in_range u.2) us →
  ∃ st0 st,
    SegmentTree.build_from_mapped_values (SegmentTree.new n) a = Some st0
    ∧ run_updates st0 us = Some st
    ∧ SegmentTree.n st = n ∧ st_ok st (written a us).
Proof.
  intros Hn Hl Ha Hus.
  destruct (new_built n a Hn Hl Ha) as (st0 & Hb & Hn0 & Hok0).
  destruct (run_updates_ok us st0 a Hok0) as (st & Hr & Hok & Hn1).
  { by rewrite Hn0. }
  exists st0, st. split; [done|]. split; [done|]. split; [congruence | done].
Qed.

Lemma query_clip st a l r :
  st_ok st a → l <= r →
  SegmentTree.query st l r
  = Some (Int.wrap (rsum a (l `max` 0) (r `min` (SegmentTree.n st - 1)))).
Proof.
  intros (Hn & Hl & Hi & Hr) Hlr. unfold SegmentTree.query.
  destruct (l >? r) eqn:E; [lia|].
  apply query_rec_spec; [done | done | lia | unfold SegmentTree.fuel_of; lia].
Qed.

Lemma update_rec_clip fuel :
  ∀ node s e idx val tr,
    0 <= s → s <= e → ¬ (s <= idx <= e) →
    SegmentTree.update_rec fuel node s e idx val tr
    = SegmentTree.update_rec fuel node s e e val tr.
Proof.
  induction fuel as [|f IH]; intros node s e idx val tr H0 Hse Hout; [done|].
  simpl. destruct (s =? e) eqn:E; [done|].
  apply Z.eqb_neq in E.
  assert (s <= Z.quot (s + e) 2 < e) as Hm.
  { rewrite quot2 by lia. split.
    - apply Z.div_le_lower_bound; lia.
    - apply Z.div_lt_upper_bound; lia. }
  replace ((s <=? idx) && (idx <=? Z.quot (s + e) 2)) with false
    by (symmetry; apply andb_false_iff; rewrite Z.leb_gt, Z.leb_gt; lia).
  replace ((s <=? e) && (e <=? Z.quot (s + e) 2)) with false
    by (symmetry; apply andb_false_iff; rewrite Z.leb_gt, Z.leb_gt; lia).
  rewrite IH by lia. done.
Qed.


(** X1: a segment tree built over an array of [n >= 1] [int]s and then
    updated at valid indices answers every range query inside [0 .. n-1]
    with the sum, in [int] arithmetic, of the array as the updates leave
    it: the exact sum whenever that fits in an [int]. *)
Theorem segment_tree_range_sum n a us l r :
  1 <= n → zlen a = n → Forall Int.in_range a →
  Forall (λ u, 0 <= u.1 < n ∧ Int.in_range u.2) us →
  0 <= l → r < n →
  ∃ st0 st,
    SegmentTree.build_from_mapped_values (SegmentTree.new n) a = Some st0
    ∧ run_updates st0 us = Some st
    ∧ SegmentTree.query st l r = Some (Int.wrap (rsum (written a us) l r))
    ∧ (Int.in_range (rsum (written a us) l r) →
       SegmentTree.query st l r = Some (rsum (written a us) l r)).
Proof.
  intros Hn Hl Ha Hus H0 H1.
  destruct (built_updated n a us Hn Hl Ha Hus)
    as (st0 & st & Hb & Hr & Hn' & Hok).
  exists st0, st. split; [done|]. split; [done|].
  rewrite (query_ok st _ l r Hok) by lia. split; [done|].
  intros Hrg. by rewrite wrap_in_range.
Qed.

Lemma segment_tree_range_sum_witness :
  ∃ st0 st,
    SegmentTree.build_from_mapped_values (SegmentTree.new 4) seg_vals = Some st0
    ∧ run_updates st0 seg_ups = Some st
    ∧ SegmentTree.query st 1 3
      = Some (Int.wrap (rsum (written seg_vals seg_ups) 1 3))
    ∧ (Int.in_range (rsum (written seg_vals seg_ups) 1 3) →
       SegmentTree.query st 1 3 = Some (rsum (written seg_vals seg_ups) 1 3)).
Proof.
  apply (segment_tree_range_sum 4 seg_vals seg_ups 1 3).
  - lia.
  - reflexivity.
  - unfold seg_vals, Int.in_range, Int.min_int, Int.max_int.
    repeat constructor; lia.
  - unfold seg_ups, Int.in_range, Int.min_int, Int.max_int.
    repeat constructor; simpl; lia.
  - lia.
  - lia.
Defined.

(** X2: a range query whose bounds reach beyond the array is answered for
    the part of the range that lies inside [0 .. n-1]; a range that lies
    entirely outside gives 0. *)
Theorem segment_query_clipped n a us l r :
  1 <= n → zlen a = n → Forall Int.in_range a →
  Forall (λ u, 0 <= u.1 < n ∧ Int.in_range u.2) us →
  l <= r →
  ∃ st0 st,
    SegmentTree.build_from_mapped_values (SegmentTree.new n) a = Some st0
    ∧ run_updates st0 us = Some st
    ∧ SegmentTree.query st l r
      = Some (Int.wrap (rsum (written a us) (l `max` 0) (r `min` (n - 1))))
    ∧ (r < 0 ∨ n <= l → SegmentTree.query st l r = Some 0).
Proof.
  intros Hn Hl Ha Hus Hlr.
  destruct (built_updated n a us Hn Hl Ha Hus)
    as (st0 & st & Hb & Hr & Hn' & Hok).
  exists st0, st. split; [done|]. split; [done|].
  rewrite (query_clip st _ l r Hok Hlr), Hn'. split; [done|].
  intros Hout. rewrite rsum_empty by lia. done.
Qed.

Lemma segment_query_clipped_witness :
  ∃ st0 st,
    SegmentTree.build_from_mapped_values (SegmentTree.new 4) seg_vals = Some st0
    ∧ run_updates st0 seg_ups = Some st
    ∧ SegmentTree.query st (-3) 1
      = Some (Int.wrap (rsum (written seg_vals seg_ups) (-3 `max` 0)
                          (1 `min` (4 - 1))))
    ∧ (1 < 0 ∨ 4 <= -3 → SegmentTree.query st (-3) 1 = Some 0).
Proof.
  apply (segment_query_clipped 4 seg_vals seg_ups (-3) 1).
  - lia.
  - reflexivity.
  - unfold seg_vals, Int.in_range, Int.min_int, Int.max_int.
    repeat constructor; lia.
  - unfold seg_ups, Int.in_range, Int.min_int, Int.max_int.
    repeat constructor; simpl; lia.
  - lia.
Defined.

(** X3: [update] does not check its index: with an index outside
    [0 .. n-1] the recursion always takes the right half, so the call
    does exactly what an update of the last position [n - 1] does. *)
Theorem segment_update_index_outside (st : SegmentTree.t) (index value : Z) :
  1 <= SegmentTree.n st → ¬ (0 <= index < SegmentTree.n st) →
  SegmentTree.update st index value
  = SegmentTree.update st (SegmentTree.n st - 1) value.
Proof.
  intros Hn Hout. unfold SegmentTree.update.
  rewrite update_rec_clip by lia. done.
Qed.

Lemma segment_update_index_outside_witness :
  SegmentTree.update (SegmentTree.new 4) 9 1
  = SegmentTree.update (SegmentTree.new 4) (4 - 1) 1.
Proof.
  apply (segment_update_index_outside (SegmentTree.new 4) 9 1); simpl; lia.
Defined.



(** X5: range queries compose: the answers for two adjacent ranges add
    up, in [int] arithmetic, to the answer for their union. *)
Theorem segment_query_adjacent n a us l m r :
  1 <= n → zlen a = n → Forall Int.in_range a →
  Forall (λ u, 0 <= u.1 < n ∧ Int.in_range u.2) us →
  0 <= l → l <= m + 1 → m <= r → r < n →
  ∃ st0 st q1 q2,
    SegmentTree.build_from_mapped_values (SegmentTree.new n) a = Some st0
    ∧ run_updates st0 us = Some st
    ∧ SegmentTree.query st l m = Some q1
    ∧ SegmentTree.query st (m + 1) r = Some q2
    ∧ SegmentTree.query st l r = Some (SegmentTree.combine q1 q2).
Proof.
  intros Hn Hl Ha Hus H0 H1 H2 H3.
  destruct (built_updated n a us Hn Hl Ha Hus)
    as (st0 & st & Hb & Hr & Hn' & Hok).
  exists st0, st, (Int.wrap (rsum (written a us) l m)),
    (Int.wrap (rsum (written a us) (m + 1) r)).
  split; [done|]. split; [done|].
  split; [apply query_ok; [done | lia | lia]|].
  split; [apply query_ok; [done | lia | lia]|].
  rewrite (query_ok st _ l r Hok) by lia.
  unfold SegmentTree.combine. rewrite wrap_add_l, wrap_add_r.
  by rewrite <- rsum_app.
Qed.

Lemma segment_query_adjacent_witness :
  ∃ st0 st q1 q2,
    SegmentTree.build_from_mapped_values (SegmentTree.new 4) seg_vals = Some st0
    ∧ run_updates st0 seg_ups = Some st
    ∧ SegmentTree.query st 0 1 = Some q1
    ∧ SegmentTree.query st (1 + 1) 3 = Some q2
    ∧ SegmentTree.query st 0 3 = Some (SegmentTree.combine q1 q2).
Proof.
  apply (segment_query_adjacent 4 seg_vals seg_ups 0 1 3).
  - lia.
  - reflexivity.
  - unfold seg_vals, Int.in_range, Int.min_int, Int.max_int.
    repeat constructor; lia.
  - unfold seg_ups, Int.in_range, Int.min_int, Int.max_int.
    repeat constructor; simpl; lia.
  - lia.
  - lia.
  - lia.
  - lia.
Defined.

(** * Further properties of the decomposition *)

(** ** The adjacency lists *)

Lemma add_edges_snoc s es e :
  add_edges s (es ++ [e]) = HLD.add_edge (add_edges s es) e.1 e.2.
Proof. unfold add_edges. by rewrite foldl_app. Qed.

Lemma zlen_adj_add_edges s es :
  zlen (HLD.adj (add_edges s es)) = zlen (HLD.adj s).
Proof.
  induction es as [|e es IH] using rev_ind; [done|].
  rewrite add_edges_snoc. simpl. by rewrite !zlen_push_back.
Qed.

Lemma neighbours_snoc es e x :
  neighbours (es ++ [e]) x
  = neighbours es x ++ (if decide (e.1 = x) then [e.2] else [])
                    ++ (if decide (e.2 = x) then [e.1] else []).
Proof.
  unfold neighbours. rewrite bind_app. simpl. by rewrite app_nil_r.
Qed.

Lemma aget_add_edges s es :
  Forall (λ e, 0 <= e.1 < zlen (HLD.adj s) ∧ 0 <= e.2 < zlen (HLD.adj s)) es →
  ∀ x, aget (HLD.adj (add_edges s es)) x = aget (HLD.adj s) x ++ neighbours es x.
Proof.
  induction es as [|e es IH] using rev_ind; intros Hes x.
  - unfold neighbours. simpl. by rewrite app_nil_r.
  - apply Forall_app in Hes as [Hes He].
    apply Forall_singleton in He as [H1 H2].
    specialize (IH Hes).
    rewrite add_edges_snoc, neighbours_snoc. simpl.
    rewrite aget_push_back by (rewrite zlen_push_back, zlen_adj_add_edges; lia).
    rewrite !aget_push_back by (rewrite zlen_adj_add_edges; lia).
    rewrite !IH, <- !app_assoc.
    destruct (decide (x = e.2)) as [E2|N2];
      destruct (decide (x = e.1)) as [E1|N1].
    + rewrite !(decide_True (P := e.1 = x)) by done.
      rewrite !(decide_True (P := e.2 = x)) by done.
      rewrite (decide_True (P := e.2 = e.1)) by congruence.
      by rewrite <- !app_assoc, <- E1.
    + rewrite !(decide_False (P := e.1 = x)) by done.
      rewrite !(decide_True (P := e.2 = x)) by done.
      rewrite (decide_False (P := e.2 = e.1)) by congruence.
      by rewrite <- E2, <- !app_assoc.
    + rewrite !(decide_True (P := e.1 = x)) by done.
      rewrite !(decide_False (P := e.2 = x)) by done.
      by rewrite app_nil_r, <- E1.
    + rewrite !(decide_False (P := e.1 = x)) by done.
      rewrite !(decide_False (P := e.2 = x)) by done.
      by rewrite !app_nil_r.
Qed.

(** ** States of a built object *)

Lemma update_views s u x s' :
  HLD.update_node_value s u x = Some s' →
  HLD.adj s' = HLD.adj s ∧ (∀ y, view1 s' y = view1 s y)
  ∧ (∀ y, view2 s' y = view2 s y).
Proof.
  unfold HLD.update_node_value. intros H.
  destruct (SegmentTree.update _ _ _) as [st|]; [|done].
  simpl in H. injection H as <-. done.
Qed.

Lemma pick_light_half u ks k :
  k ∈ ks → rid k ≠ heavy_id ks → 2 * tsize k < tsize (RNode u ks).
Proof.
  intros Hk Hne. rewrite tsize_node.
  assert (Hle : ∀ l k', k' ∈ l → tsize k' <= sumZ (tsize <$> l)).
  { intros l k'. induction l as [|y l IH]; intros Hin;
      [by apply elem_of_nil in Hin|].
    pose proof (sumZ_tsize_nonneg l). pose proof (tsize_pos y).
    change (sumZ (tsize <$> y :: l)) with (tsize y + sumZ (tsize <$> l)).
    apply elem_of_cons in Hin as [->|Hin]; [lia|].
    specialize (IH Hin). lia. }
  destruct (pick_heavy_spec ks (-1) 0)
    as [[_ Hall]|(pre & hk & post & -> & Hh & _ & Hpre & Hpost)].
  - pose proof (Hall k Hk). pose proof (tsize_pos k). lia.
  - unfold heavy_id in Hne. rewrite Hh in Hne.
    rewrite fmap_app, sumZ_app.
    change (sumZ (tsize <$> hk :: post))
      with (tsize hk + sumZ (tsize <$> post)).
    pose proof (sumZ_tsize_nonneg pre). pose proof (sumZ_tsize_nonneg post).
    apply elem_of_app in Hk as [Hk|Hk].
    + pose proof (Hpre k Hk). pose proof (Hle pre k Hk). lia.
    + apply elem_of_cons in Hk as [->|Hk]; [done|].
      pose proof (Hpost k Hk). pose proof (Hle post k Hk). lia.
Qed.

Lemma laid_kid_ctx s c u ks k :
  laid s c (RNode u ks) → k ∈ ks →
  ∃ c', laid s c' k ∧ c_parent c' = u ∧ c_depth c' = c_depth c + 1
      ∧ ((rid k = heavy_id ks ∧ c_head c' = c_head c
          ∧ c_pos c' = c_pos c + 1)
         ∨ (rid k ≠ heavy_id ks ∧ c_head c' = rid k)).
Proof.
  intros Hl Hk. destruct c as [p d h cp].
  destruct (visit_order_kid h ks k Hk) as (h' & Hv).
  destruct (elem_of_offsets_inv (cp + 1) _ _ Hv) as (c' & Ho).
  exists (Ctx u (d + 1) h' c'). split.
  - apply (occ_laid s (Ctx p d h cp) (RNode u ks)); [done|].
    eapply occ_step; [apply occ_here | done].
  - split; [done|]. split; [done|]. simpl.
    destruct Hl as (_ & _ & _ & Hnd). rewrite nodes_unfold in Hnd.
    apply NoDup_cons in Hnd as [_ Hnd].
    destruct (visit_order_cases cp h ks c' h' k Hnd Ho)
      as (_ & [(? & ? & ?)|(? & ?)]);
      [by left | by right].
Qed.

Lemma laid_up s T :
  ∀ c, laid s c T → ∀ x, x ∈ nodes T →
  ∃ j : nat, up s j x = rid T
           ∧ vget (HLD.depth s) x = c_depth c + Z.of_nat j.
Proof.
  induction T as [u ks IH] using rtree_ind'. intros c Hl x Hx.
  rewrite nodes_unfold in Hx. apply elem_of_cons in Hx as [->|Hx].
  - exists 0%nat. split; [done|].
    destruct (laid_views _ _ _ _ Hl) as (H1 & _). unfold view1 in H1.
    injection H1 as _ E _ _. simpl. lia.
  - apply elem_of_knodes in Hx as (k & Hk & Hx).
    rewrite Forall_forall in IH.
    destruct (laid_kid_ctx _ _ _ _ _ Hl Hk) as (c' & Hl' & _ & Hd & _).
    destruct (IH k Hk c' Hl' x Hx) as (j & Hj & Hdj).
    pose proof (laid_kid _ _ _ _ _ Hl Hk) as Hv. unfold view1 in Hv.
    injection Hv as Hp _ _ _.
    exists (S j). split.
    + rewrite up_S', Hj. done.
    + simpl. lia.
Qed.

Section structure.
Context (n : Z) (vals : list Z) (es : list (Z * Z)) (root : Z) (t : rtree).
Hypothesis Hvalid : valid_input n vals es root t.

Lemma reachable_laid s0 :
  reachable n vals es root s0 → laid s0 (root_ctx root) t.
Proof.
  induction 1 as [s0 Hb|s0 u x s' Hr IH Hu Hx Hup].
  - by destruct (build_inv _ _ _ _ _ Hvalid s0 Hb) as (_ & _ & _ & ? & _).
  - destruct (update_views _ _ _ _ Hup) as (Ha & H1 & H2).
    by apply (laid_frame s0).
Qed.

Context (s : HLD.t).
Hypothesis Hreach : reachable n vals es root s.

Local Abbreviation adj0 := (HLD.adj (initial n vals es)).
Local Abbreviation par := (vget (HLD.parent s)).
Local Abbreviation dep := (vget (HLD.depth s)).
Local Abbreviation hd := (vget (HLD.head s)).
Local Abbreviation ps := (vget (HLD.pos s)).
Local Abbreviation sz := (vget (HLD.subtree_size s)).
Local Abbreviation hv := (vget (HLD.heavy_child s)).

Lemma st_laid : laid s (root_ctx root) t.
Proof. by apply reachable_laid. Qed.

Lemma st_N : HLD.N s = n.
Proof. by destruct (reachable_inv _ _ _ _ _ Hvalid s Hreach). Qed.

Lemma st_inv : hld_inv adj0 root s.
Proof. by destruct (reachable_inv _ _ _ _ _ Hvalid s Hreach). Qed.

Lemma st_nodes x : x ∈ nodes t ↔ 0 <= x < n.
Proof.
  destruct Hvalid as [_ _ _ Ht].
  by destruct (valid_tree_nodes _ _ _ _ Ht) as (_ & _ & ?).
Qed.

Lemma st_ok_iff x : in_tree s x ↔ 0 <= x < n.
Proof. unfold in_tree. by rewrite st_N. Qed.

(** The subtree at a node, as the passes left it in the arrays. *)
Lemma node_laid x :
  0 <= x < n →
  ∃ c ks, laid s c (RNode x ks) ∧ nodes (RNode x ks) ⊆ nodes t
    ∧ par x = c_parent c ∧ dep x = c_depth c
    ∧ sz x = tsize (RNode x ks) ∧ hv x = heavy_id ks
    ∧ hd x = c_head c ∧ ps x = c_pos c
    ∧ children s x = rid <$> ks.
Proof.
  intros Hx. apply st_nodes in Hx.
  destruct (node_cases s _ t x st_laid Hx) as (c & ks & Hl & Hsub & _).
  exists c, ks. split; [done|]. split; [done|].
  destruct (laid_views _ _ _ _ Hl) as (H1 & H2 & H3).
  unfold view1 in H1. unfold view2 in H2.
  injection H1 as E1 E2 E3 E4. injection H2 as E5 E6.
  repeat (split; [done|]). unfold children. by rewrite E1.
Qed.

Lemma size_range x : 0 <= x < n → 1 <= sz x <= n.
Proof.
  intros Hx.
  destruct (node_laid x Hx) as (c & ks & Hl & Hsub & _ & _ & -> & _).
  split; [apply tsize_pos|].
  destruct Hl as (_ & _ & _ & Hnd).
  destruct Hvalid as [_ _ _ (_ & _ & Hperm)].
  unfold tsize, zlen.
  pose proof (submseteq_length _ _ (NoDup_submseteq _ _ Hnd Hsub)) as Hle.
  rewrite Hperm, length_seqZ in Hle. lia.
Qed.

Lemma kid_facts x :
  0 <= x < n → x ≠ root →
  sz x < sz (par x) ∧ (hd x = x → 2 * sz x < sz (par x)).
Proof.
  intros Hx Hne. pose proof Hx as Hx'. apply st_nodes in Hx'.
  destruct (node_cases s _ t x st_laid Hx')
    as (c & ks & Hl & Hsub
        & [[_ Ht]|(pc & pu & pks & Hpl & Hpu & Hk & Hcp & Hcd & Hh)]).
  { subst t. destruct Hvalid as [_ _ _ (Hr & _)]. simpl in Hr. done. }
  destruct (laid_views _ _ _ _ Hl) as (H1 & H2 & _).
  destruct (laid_views _ _ _ _ Hpl) as (P1 & P2 & _).
  unfold view1 in H1, P1. unfold view2 in H2, P2.
  injection H1 as E1 E2 E3 E4. injection H2 as E5 E6.
  injection P1 as F1 F2 F3 F4. injection P2 as F5 F6.
  rewrite E1, Hcp, E3, F3. split; [by apply tsize_kid_le|].
  intros Hown. destruct Hh as [(Hhv & Hch & _)|(Hl' & _)].
  - exfalso. rewrite E5, Hch, <- F5 in Hown.
    apply st_nodes in Hpu.
    assert (in_tree s pu) as Hok by by apply st_ok_iff.
    destruct (chain_spec _ _ _ st_inv pu Hok) as (k & Hk1 & Hk2 & _).
    destruct (up_ok _ _ _ st_inv k pu Hok Hk2) as [_ Hd].
    rewrite Hk1, Hown in Hd. lia.
  - by apply (pick_light_half pu pks (RNode x ks)).
Qed.

Lemma laid_down j :
  ∀ x T c, laid s c T → 0 <= x < n → Z.of_nat j <= dep x →
  up s j x = rid T → x ∈ nodes T.
Proof.
  pose proof st_inv as Hinv.
  induction j as [|j IH]; intros x T c Hl Hx Hj Hup.
  - simpl in Hup. rewrite Hup. apply rid_in_nodes.
  - destruct T as [u ks]. change (rid (RNode u ks)) with u in Hup.
    rewrite up_S' in Hup.
    assert (in_tree s x) as Hox by by apply st_ok_iff.
    destruct (up_ok _ _ _ Hinv j x Hox) as [Hoy Hdy]; [lia|].
    set (y := up s j x) in *.
    destruct (inv_parent _ _ _ Hinv y Hoy) as [Ey|[Hou Hdu]].
    { rewrite Ey, (inv_root_depth _ _ _ Hinv) in Hdy. lia. }
    rewrite Hup in Hou, Hdu.
    destruct (inv_down _ _ _ Hinv y Hoy) as [Ey|Hin].
    { rewrite Ey, (inv_root_depth _ _ _ Hinv) in Hdy. lia. }
    rewrite Hup in Hin.
    destruct (laid_views _ _ _ _ Hl) as (H1 & _ & Hf).
    unfold view1 in H1. injection H1 as Ep _ _ _.
    rewrite (inv_adj _ _ _ Hinv) in Hf.
    assert (y ∈ rid <$> ks) as Hy.
    { rewrite <- Hf. apply list_elem_of_filter. split; [|done].
      rewrite <- Ep. intros E.
      destruct (inv_parent _ _ _ Hinv u Hou) as [Er|[_ Hd']].
      - rewrite Er, (inv_root_parent _ _ _ Hinv) in E.
        unfold in_tree in Hoy. lia.
      - rewrite <- E in Hd'. lia. }
    apply list_elem_of_fmap in Hy as (k & Ek & Hk).
    destruct (laid_kid_ctx _ _ _ _ _ Hl Hk) as (c' & Hl' & _).
    rewrite nodes_unfold. apply elem_of_cons. right.
    apply elem_of_knodes. exists k. split; [done|].
    apply (IH x k c' Hl' Hx); [lia | done].
Qed.

Lemma subtree_nodes u ks c x :
  laid s c (RNode u ks) → 0 <= u < n → 0 <= x < n →
  x ∈ nodes (RNode u ks) ↔ ancestor adj0 root u x.
Proof.
  intros Hl Hu Hx. pose proof st_inv as Hinv.
  assert (in_tree s x) as Hox by by apply st_ok_iff.
  assert (in_tree s u) as Hou by by apply st_ok_iff.
  rewrite (ancestor_iff _ _ _ Hinv u x Hox). split.
  - intros Hin. destruct (laid_up _ _ _ Hl x Hin) as (j & Hj & Hd).
    destruct (laid_views _ _ _ _ Hl) as (H1 & _). unfold view1 in H1.
    injection H1 as _ E _ _.
    pose proof (inv_depth _ _ _ Hinv u Hou). exists j. split; [lia | done].
  - intros (j & Hj & Hup). by apply (laid_down j x _ c).
Qed.

Lemma subtree_pos u ks c x :
  laid s c (RNode u ks) → nodes (RNode u ks) ⊆ nodes t → 0 <= x < n →
  x ∈ nodes (RNode u ks)
  ↔ c_pos c <= ps x < c_pos c + tsize (RNode u ks).
Proof.
  intros Hl Hsub Hx. pose proof st_inv as Hinv.
  pose proof Hl as (_ & _ & Hp2 & _).
  pose proof (order_length (RNode u ks)) as Hlen. unfold zlen in Hlen.
  split.
  - intros Hin. rewrite <- order_perm in Hin.
    apply list_elem_of_lookup in Hin as (i & Hi).
    rewrite (pos_order _ _ _ _ Hp2 i x Hi).
    apply lookup_lt_Some in Hi. lia.
  - intros Hrg.
    destruct (lookup_lt_is_Some_2 (order (RNode u ks))
                (Z.to_nat (ps x - c_pos c))) as (y & Hy); [lia|].
    pose proof (pos_order _ _ _ _ Hp2 _ y Hy) as Hpy.
    assert (y ∈ nodes (RNode u ks)) as Hin.
    { rewrite <- order_perm. by eapply list_elem_of_lookup_2. }
    assert (y = x) as <-; [|done].
    apply (inv_pos_inj _ _ _ Hinv);
      [apply st_ok_iff, st_nodes, Hsub, Hin | by apply st_ok_iff | lia].
Qed.

Lemma head_facts x :
  0 <= x < n → 0 <= hd x < n ∧ hd (hd x) = hd x ∧ dep (hd x) <= dep x.
Proof.
  intros Hx. pose proof st_inv as Hinv.
  assert (in_tree s x) as Hox by by apply st_ok_iff.
  destruct (chain_spec _ _ _ Hinv x Hox) as (k & Hk & Hkd & Hall).
  destruct (up_ok _ _ _ Hinv k x Hox Hkd) as [Hoh Hdh].
  rewrite Hk in Hoh, Hdh. split; [by apply st_ok_iff|].
  destruct (Hall k) as [Hh _]; [done|]. rewrite Hk in Hh. split; [done | lia].
Qed.

Lemma same_chain_layout x y :
  0 <= x < n → 0 <= y < n → hd x = hd y → dep x <= dep y →
  ancestor adj0 root x y
  ∧ ps y = ps x + (dep y - dep x)
  ∧ ∀ z, 0 <= z < n → ancestor adj0 root x z → ancestor adj0 root z y →
      hd z = hd x.
Proof.
  intros Hx Hy Hh Hd. pose proof st_inv as Hinv.
  assert (in_tree s x) as Hox by by apply st_ok_iff.
  assert (in_tree s y) as Hoy by by apply st_ok_iff.
  destruct (meet_exists _ _ _ Hinv x y Hox Hoy) as (a & b & Hm).
  destruct (same_chain _ _ _ Hinv x y a b Hm Hox Hoy Hh Hd)
    as (-> & Hb & Hps).
  pose proof Hm as (_ & _ & Hbd & _).
  destruct (up_ok _ _ _ Hinv b y Hoy Hbd) as [_ Hdb]. rewrite Hb in Hdb.
  split; [|split].
  - apply (ancestor_iff _ _ _ Hinv x y Hoy). by exists b.
  - pose proof (Hps b (le_n _)) as Hpb. rewrite Hb in Hpb. lia.
  - intros z Hz Hxz Hzy.
    assert (in_tree s z) as Hoz by by apply st_ok_iff.
    apply (ancestor_iff _ _ _ Hinv x z Hoz) in Hxz as (i & Hi & Ei).
    apply (ancestor_iff _ _ _ Hinv z y Hoy) in Hzy as (j & Hj & Ej).
    destruct (up_ok _ _ _ Hinv j y Hoy Hj) as [_ Hdz]. rewrite <- Ej in Hdz.
    assert ((i + j)%nat = b) as Hij.
    { apply (up_inj_depth _ _ _ Hinv _ _ y Hoy); [lia | lia |].
      rewrite up_add, <- Ej, <- Ei. done. }
    destruct (chain_spec _ _ _ Hinv y Hoy) as (k & Hk & Hkd & Hall).
    pose proof (chain_length _ _ _ Hinv y k Hoy Hk Hkd) as Hlen.
    destruct (head_facts x Hx) as (_ & _ & Hdx). rewrite Hh in Hdx.
    destruct (Hall j) as [Hhz _]; [lia|].
    rewrite <- Ej in Hhz. congruence.
Qed.

Lemma lca_ancestor u v :
  0 <= u < n → 0 <= v < n →
  HLD.get_lca s u v = Some u ↔ ancestor adj0 root u v.
Proof.
  intros Hu Hv. pose proof st_inv as Hinv.
  assert (in_tree s u) as Hou by by apply st_ok_iff.
  assert (in_tree s v) as Hov by by apply st_ok_iff.
  split.
  - intros Hg. destruct (meet_exists _ _ _ Hinv u v Hou Hov) as (a & b & Hm).
    rewrite (get_lca_meet _ _ _ Hinv u v a b Hou Hov Hm) in Hg.
    injection Hg as Hg.
    destruct (meet_is_lca _ _ _ Hinv u v a b Hou Hov Hm) as (_ & Hanc & _).
    by rewrite Hg in Hanc.
  - intros Hanc.
    apply (ancestor_iff _ _ _ Hinv u v Hov) in Hanc as (j & Hj & Ej).
    apply (get_lca_meet _ _ _ Hinv u v 0 j Hou Hov).
    pose proof (inv_depth _ _ _ Hinv u Hou).
    split; [done|]. split; [simpl; lia|]. split; [done | by left].
Qed.

Lemma lca_self u : 0 <= u < n → HLD.get_lca s u u = Some u.
Proof.
  intros Hu. assert (in_tree s u) as Hou by by apply st_ok_iff.
  apply (get_lca_meet _ _ _ st_inv u u 0 0 Hou Hou).
  by apply (meet_refl _ _ _ st_inv).
Qed.

Lemma path_shape u v l :
  0 <= u < n → 0 <= v < n → simple_path adj0 u v l →
  ∃ w, HLD.get_lca s u v = Some w ∧ w ∈ l
     ∧ zlen l = dep u + dep v - 2 * dep w + 1
     ∧ ∀ x, x ∈ l → x ≠ w → dep w < dep x.
Proof.
  intros Hu Hv Hl. pose proof st_inv as Hinv.
  assert (in_tree s u) as Hou by by apply st_ok_iff.
  assert (in_tree s v) as Hov by by apply st_ok_iff.
  destruct (path_meet _ _ _ Hinv l u v Hl Hou Hov) as (a & b & Hm & ->).
  pose proof Hm as (E & Ha & Hb & _).
  destruct (up_ok _ _ _ Hinv a u Hou Ha) as [_ Hda].
  destruct (up_ok _ _ _ Hinv b v Hov Hb) as [_ Hdb]. rewrite <- E in Hdb.
  exists (up s a u). split; [by apply (get_lca_meet _ _ _ Hinv u v a b)|].
  split; [apply elem_of_app; right; apply elem_of_cons; by left|].
  split.
  - unfold zlen. rewrite length_app. simpl.
    rewrite length_reverse, !length_chain_list. lia.
  - intros x Hx Hne. apply elem_of_app in Hx as [Hx|Hx].
    + apply elem_of_chain_list in Hx as (j & Hj & ->).
      destruct (up_ok _ _ _ Hinv j u Hou) as [_ Hd]; lia.
    + apply elem_of_cons in Hx as [->|Hx]; [done|].
      apply elem_of_reverse, elem_of_chain_list in Hx as (j & Hj & ->).
      destruct (up_ok _ _ _ Hinv j v Hov) as [_ Hd]; lia.
Qed.

End structure.

Lemma aget_replicate_nil k x : aget (replicate k []) x = [].
Proof.
  unfold aget. case_decide; [|done].
  destruct (replicate k [] !! Z.to_nat x) as [l|] eqn:E; [|done].
  apply lookup_replicate in E as [-> _]. done.
Qed.

(** X6: the [add_edge] calls leave in [adj[x]] exactly the other ends of
    the edges at [x], in the order of the calls (an edge from [x] to
    itself twice); the lists are symmetric, and no other field of the
    object changes. *)
Theorem add_edge_adjacency n vals es :
  Forall (λ e, 0 <= e.1 < n ∧ 0 <= e.2 < n) es →
  (∀ x, aget (HLD.adj (initial n vals es)) x = neighbours es x)
  ∧ symmetric (HLD.adj (initial n vals es))
  ∧ core (initial n vals es) = core (HLD.new n vals).
Proof.
  intros Hes. split; [|split].
  - intros x. unfold initial. rewrite aget_add_edges.
    + simpl. by rewrite aget_replicate_nil.
    + eapply Forall_impl; [exact Hes|]. intros e He. simpl in *.
      unfold zlen. rewrite length_replicate. lia.
  - by apply initial_symmetric.
  - apply add_edges_core.
Qed.

Lemma add_edge_adjacency_witness :
  (∀ x, aget (HLD.adj (initial 7 ex_vals ex_edges)) x = neighbours ex_edges x)
  ∧ symmetric (HLD.adj (initial 7 ex_vals ex_edges))
  ∧ core (initial 7 ex_vals ex_edges) = core (HLD.new 7 ex_vals).
Proof.
  apply (add_edge_adjacency 7 ex_vals ex_edges).
  unfold ex_edges. repeat constructor; simpl; lia.
Defined.

(** X7: the second pass gives the root itself as chain head, hands the
    head of a node down to its heavy child, and makes every other child
    the head of a chain of its own. *)
Theorem head_assignment n vals es root t s :
  valid_input n vals es root t → reachable n vals es root s →
  vget (HLD.head s) root = root
  ∧ ∀ u c, 0 <= u < n → c ∈ children s u →
      vget (HLD.head s) c
      = if decide (c = vget (HLD.heavy_child s) u)
        then vget (HLD.head s) u else c.
Proof.
  intros Hvalid Hr. split.
  - pose proof (st_laid _ _ _ _ _ Hvalid s Hr) as Hl.
    destruct Hvalid as [_ _ _ (Hroot & _)]. destruct t as [r ks].
    simpl in Hroot. subst r.
    destruct (laid_views _ _ _ _ Hl) as (_ & H2 & _). unfold view2 in H2.
    by injection H2 as E _.
  - intros u c Hu Hc.
    destruct (node_laid _ _ _ _ _ Hvalid s Hr u Hu)
      as (c0 & ks & Hl & _ & _ & _ & _ & Ehv & Ehd & _ & Ech).
    rewrite Ech in Hc. apply list_elem_of_fmap in Hc as (k & -> & Hk).
    destruct (laid_kid_ctx _ _ _ _ _ Hl Hk) as (c' & Hl' & _ & _ & Hcase).
    destruct k as [x kks].
    destruct (laid_views _ _ _ _ Hl') as (_ & H2 & _). unfold view2 in H2.
    injection H2 as E _. simpl in *. rewrite E, Ehv, Ehd.
    destruct Hcase as [(Hh & -> & _)|(Hh & ->)].
    + by rewrite decide_True.
    + by rewrite decide_False.
Qed.

Lemma head_assignment_witness :
  vget (HLD.head ex_state) 1 = 1
  ∧ ∀ u c, 0 <= u < 7 → c ∈ children ex_state u →
      vget (HLD.head ex_state) c
      = if decide (c = vget (HLD.heavy_child ex_state) u)
        then vget (HLD.head ex_state) u else c.
Proof.
  apply (head_assignment 7 ex_vals ex_edges 1 ex_tree ex_state).
  - exact ex_valid.
  - exact ex_reachable.
Defined.

(** X8: a chain is a vertical path laid out on consecutive positions.
    The head of a node is an ancestor of the node and its own head; of
    two nodes with the same head the shallower is an ancestor of the
    deeper, their positions differ by their depths, and every node
    between them has the same head. *)
Theorem heavy_path_layout n vals es root t s x y :
  valid_input n vals es root t → reachable n vals es root s →
  0 <= x < n → 0 <= y < n →
  (0 <= vget (HLD.head s) x < n
   ∧ vget (HLD.head s) (vget (HLD.head s) x) = vget (HLD.head s) x
   ∧ ancestor (HLD.adj s) root (vget (HLD.head s) x) x)
  ∧ (vget (HLD.head s) x = vget (HLD.head s) y →
     vget (HLD.depth s) x <= vget (HLD.depth s) y →
     ancestor (HLD.adj s) root x y
     ∧ vget (HLD.pos s) y
       = vget (HLD.pos s) x + (vget (HLD.depth s) y - vget (HLD.depth s) x)
     ∧ ∀ z, 0 <= z < n →
         ancestor (HLD.adj s) root x z → ancestor (HLD.adj s) root z y →
         vget (HLD.head s) z = vget (HLD.head s) x).
Proof.
  intros Hvalid Hr Hx Hy.
  rewrite (reachable_adj _ _ _ _ _ Hvalid s Hr).
  destruct (head_facts _ _ _ _ _ Hvalid s Hr x Hx) as (Hh & Hhh & Hd).
  split.
  - split; [done|]. split; [done|].
    by destruct (same_chain_layout _ _ _ _ _ Hvalid s Hr _ x Hh Hx Hhh Hd).
  - intros E Hdep. by apply (same_chain_layout _ _ _ _ _ Hvalid s Hr).
Qed.

Lemma heavy_path_layout_witness :
  ancestor (HLD.adj ex_state) 1 3 6
  ∧ vget (HLD.pos ex_state) 6
    = vget (HLD.pos ex_state) 3
      + (vget (HLD.depth ex_state) 6 - vget (HLD.depth ex_state) 3).
Proof.
  destruct (heavy_path_layout 7 ex_vals ex_edges 1 ex_tree ex_state 3 6)
    as (_ & H).
  - exact ex_valid.
  - exact ex_reachable.
  - lia.
  - lia.
  - destruct H as (Ha & Hp & _); [reflexivity | vm_compute; discriminate |].
    split; [exact Ha | exact Hp].
Defined.

(** X9: the subtree of a node occupies the block of [subtree_size]
    consecutive positions that starts at the node: [x] is a descendant
    of [u] exactly if its position lies in that block. *)
Theorem subtree_positions n vals es root t s u x :
  valid_input n vals es root t → reachable n vals es root s →
  0 <= u < n → 0 <= x < n →
  ancestor (HLD.adj s) root u x
  ↔ vget (HLD.pos s) u <= vget (HLD.pos s) x
                       < vget (HLD.pos s) u + vget (HLD.subtree_size s) u.
Proof.
  intros Hvalid Hr Hu Hx.
  rewrite (reachable_adj _ _ _ _ _ Hvalid s Hr).
  destruct (node_laid _ _ _ _ _ Hvalid s Hr u Hu)
    as (c & ks & Hl & Hsub & _ & _ & -> & _ & _ & -> & _).
  rewrite <- (subtree_nodes _ _ _ _ _ Hvalid s Hr u ks c x Hl Hu Hx).
  by apply (subtree_pos _ _ _ _ _ Hvalid s Hr).
Qed.

Lemma subtree_positions_witness :
  ancestor (HLD.adj ex_state) 1 3 6
  ↔ vget (HLD.pos ex_state) 3 <= vget (HLD.pos ex_state) 6
      < vget (HLD.pos ex_state) 3 + vget (HLD.subtree_size ex_state) 3.
Proof.
  apply (subtree_positions 7 ex_vals ex_edges 1 ex_tree ex_state 3 6).
  - exact ex_valid.
  - exact ex_reachable.
  - lia.
  - lia.
Defined.

(** X10: a child other than the heavy child has less than half of the
    subtree of its parent, so a path to the root leaves a chain at most
    [log2 N] times. *)
Theorem light_child_half n vals es root t s u c :
  valid_input n vals es root t → reachable n vals es root s →
  0 <= u < n → c ∈ children s u → c ≠ vget (HLD.heavy_child s) u →
  2 * vget (HLD.subtree_size s) c < vget (HLD.subtree_size s) u.
Proof.
  intros Hvalid Hr Hu Hc Hne.
  destruct (node_laid _ _ _ _ _ Hvalid s Hr u Hu)
    as (c0 & ks & Hl & _ & _ & _ & -> & Ehv & _ & _ & Ech).
  rewrite Ech in Hc. apply list_elem_of_fmap in Hc as (k & -> & Hk).
  pose proof (laid_kid _ _ _ _ _ Hl Hk) as Hv. unfold view1 in Hv.
  injection Hv as _ _ -> _.
  apply pick_light_half; [done | congruence].
Qed.

Lemma light_child_half_witness :
  2 * vget (HLD.subtree_size ex_state) 0 < vget (HLD.subtree_size ex_state) 1.
Proof.
  apply (light_child_half 7 ex_vals ex_edges 1 ex_tree ex_state 1 0).
  - exact ex_valid.
  - exact ex_reachable.
  - lia.
  - compute_done.
  - vm_compute. discriminate.
Defined.

(** X11: [get_lca u v] is [u] exactly if [u] is an ancestor of [v]; in
    particular [get_lca u u] is [u]. *)
Theorem get_lca_ancestor n vals es root t s u v :
  valid_input n vals es root t → reachable n vals es root s →
  0 <= u < n → 0 <= v < n →
  (HLD.get_lca s u v = Some u ↔ ancestor (HLD.adj s) root u v)
  ∧ HLD.get_lca s u u = Some u.
Proof.
  intros Hvalid Hr Hu Hv.
  rewrite (reachable_adj _ _ _ _ _ Hvalid s Hr). split.
  - by apply (lca_ancestor _ _ _ _ _ Hvalid s Hr).
  - by apply (lca_self _ _ _ _ _ Hvalid s Hr).
Qed.

Lemma get_lca_ancestor_witness :
  (HLD.get_lca ex_state 3 6 = Some 3 ↔ ancestor (HLD.adj ex_state) 1 3 6)
  ∧ HLD.get_lca ex_state 3 3 = Some 3.
Proof.
  apply (get_lca_ancestor 7 ex_vals ex_edges 1 ex_tree ex_state 3 6).
  - exact ex_valid.
  - exact ex_reachable.
  - lia.
  - lia.
Defined.

(** X12: the lowest common ancestor that [get_lca] returns lies on the
    path between the two nodes and is the one node of least depth on it,
    and the path has [depth u + depth v - 2 * depth w + 1] nodes. *)
Theorem path_through_lca n vals es root t s u v l :
  valid_input n vals es root t → reachable n vals es root s →
  0 <= u < n → 0 <= v < n → simple_path (HLD.adj s) u v l →
  ∃ w, HLD.get_lca s u v = Some w ∧ w ∈ l
     ∧ zlen l = vget (HLD.depth s) u + vget (HLD.depth s) v
                - 2 * vget (HLD.depth s) w + 1
     ∧ ∀ x, x ∈ l → x ≠ w → vget (HLD.depth s) w < vget (HLD.depth s) x.
Proof.
  intros Hvalid Hr Hu Hv Hl.
  rewrite (reachable_adj _ _ _ _ _ Hvalid s Hr) in Hl.
  by apply (path_shape _ _ _ _ _ Hvalid s Hr).
Qed.

Lemma path_through_lca_witness :
  ∃ w, HLD.get_lca ex_state 4 6 = Some w ∧ w ∈ [4; 0; 1; 3; 5; 6]
     ∧ zlen [4; 0; 1; 3; 5; 6]
       = vget (HLD.depth ex_state) 4 + vget (HLD.depth ex_state) 6
         - 2 * vget (HLD.depth ex_state) w + 1
     ∧ ∀ x, x ∈ [4; 0; 1; 3; 5; 6] → x ≠ w →
         vget (HLD.depth ex_state) w < vget (HLD.depth ex_state) x.
Proof.
  apply (path_through_lca 7 ex_vals ex_edges 1 ex_tree ex_state 4 6).
  - exact ex_valid.
  - exact ex_reachable.
  - lia.
  - lia.
  - exact ex_path.
Defined.

(** ** The number of chain jumps *)

Lemma get_lca_loop_mono f :
  ∀ f' s u v w, (f ≤ f')%nat →
    HLD.get_lca_loop f s u v = Some w → HLD.get_lca_loop f' s u v = Some w.
Proof.
  induction f as [|f IH]; intros f' s u v w Hle H; [done|].
  destruct f' as [|f']; [lia|]. simpl in *.
  destruct (negb _); [|done].
  destruct (_ <? _); apply IH; (lia || done).
Qed.

Lemma query_path_loop_mono f :
  ∀ f' s u v res q, (f ≤ f')%nat →
    HLD.query_path_loop f s u v res = Some q →
    HLD.query_path_loop f' s u v res = Some q.
Proof.
  induction f as [|f IH]; intros f' s u v res q Hle H; [done|].
  destruct f' as [|f']; [lia|]. simpl in *.
  destruct (negb _); [|done].
  destruct (_ <? _).
  - destruct (SegmentTree.query _ _ _) as [x|]; [|done]. simpl in *.
    apply IH; (lia || done).
  - destruct (SegmentTree.query _ _ _) as [x|]; [|done]. simpl in *.
    apply IH; (lia || done).
Qed.

Section jumps.
Context (n : Z) (vals : list Z) (es : list (Z * Z)) (root : Z) (t : rtree).
Hypothesis Hvalid : valid_input n vals es root t.
Context (s : HLD.t).
Hypothesis Hreach : reachable n vals es root s.

Local Abbreviation adj0 := (HLD.adj (initial n vals es)).
Local Abbreviation par := (vget (HLD.parent s)).
Local Abbreviation dep := (vget (HLD.depth s)).
Local Abbreviation hd := (vget (HLD.head s)).
Local Abbreviation ps := (vget (HLD.pos s)).
Local Abbreviation sz := (vget (HLD.subtree_size s)).

Local Abbreviation Hinv := (st_inv n vals es root t Hvalid s Hreach).
Local Abbreviation ok_iff := (st_ok_iff n vals es root t Hvalid s Hreach).

Lemma size_up k :
  ∀ x, 0 <= x < n → Z.of_nat k <= dep x → sz x <= sz (up s k x).
Proof.
  induction k as [|k IH]; intros x Hx Hk; [simpl; lia|].
  rewrite up_S'.
  assert (in_tree s x) as Hox by by apply ok_iff.
  destruct (up_ok _ _ _ Hinv k x Hox) as [Hoy Hdy]; [lia|].
  assert (up s k x ≠ root) as Hne.
  { intros E. rewrite E, (inv_root_depth _ _ _ Hinv) in Hdy. lia. }
  apply ok_iff in Hoy.
  destruct (kid_facts _ _ _ _ _ Hvalid s Hreach _ Hoy Hne) as [Hlt _].
  specialize (IH x Hx). lia.
Qed.

Lemma size_head x : 0 <= x < n → sz x <= sz (hd x).
Proof.
  intros Hx. assert (in_tree s x) as Hox by by apply ok_iff.
  destruct (chain_spec _ _ _ Hinv x Hox) as (k & <- & Hk & _).
  by apply size_up.
Qed.

Lemma log_size x : 0 <= x < n → 0 <= Z.log2 (sz x) <= Z.log2 n.
Proof.
  intros Hx. destruct (size_range _ _ _ _ _ Hvalid s Hreach x Hx).
  split; [apply Z.log2_nonneg | by apply Z.log2_le_mono].
Qed.

Lemma jump_log u :
  0 <= u < n → hd u ≠ root →
  0 <= par (hd u) < n
  ∧ Z.log2 (sz (hd u)) + 1 <= Z.log2 (sz (hd (par (hd u)))).
Proof.
  intros Hu Hne.
  destruct (head_facts _ _ _ _ _ Hvalid s Hreach u Hu) as (Hh & Hhh & _).
  assert (in_tree s (hd u)) as Hoh by by apply ok_iff.
  destruct (inv_parent _ _ _ Hinv _ Hoh) as [?|[Hop _]]; [done|].
  apply ok_iff in Hop. split; [done|].
  destruct (kid_facts _ _ _ _ _ Hvalid s Hreach _ Hh Hne) as [_ Hhalf].
  specialize (Hhalf Hhh).
  pose proof (size_head _ Hop) as Hle.
  destruct (size_range _ _ _ _ _ Hvalid s Hreach _ Hh).
  pose proof (Z.log2_double (sz (hd u))) as Hdbl.
  pose proof (Z.log2_le_mono (2 * sz (hd u)) (sz (hd (par (hd u))))) as Hmono.
  lia.
Qed.

Lemma jump_side u v :
  0 <= u < n → 0 <= v < n → hd u ≠ hd v → dep (hd v) <= dep (hd u) →
  hd u ≠ root.
Proof.
  intros Hu Hv Hne Hd E.
  destruct (head_facts _ _ _ _ _ Hvalid s Hreach v Hv) as (Hh & _).
  assert (in_tree s (hd v)) as Hoh by by apply ok_iff.
  rewrite E, (inv_root_depth _ _ _ Hinv) in Hd.
  pose proof (inv_depth _ _ _ Hinv _ Hoh).
  apply Hne. rewrite E. symmetry.
  apply (depth_zero_root _ _ _ Hinv); [done | lia].
Qed.

Lemma get_lca_loop_log fuel :
  ∀ u v, 0 <= u < n → 0 <= v < n →
    2 * Z.log2 n - Z.log2 (sz (hd u)) - Z.log2 (sz (hd v)) < Z.of_nat fuel →
    ∃ w, HLD.get_lca_loop fuel s u v = Some w.
Proof.
  induction fuel as [|f IH]; intros u v Hu Hv Hf.
  - destruct (head_facts _ _ _ _ _ Hvalid s Hreach u Hu) as (Hhu & _).
    destruct (head_facts _ _ _ _ _ Hvalid s Hreach v Hv) as (Hhv & _).
    pose proof (log_size _ Hhu). pose proof (log_size _ Hhv). lia.
  - simpl. destruct (hd u =? hd v) eqn:E; simpl; [by eexists|].
    apply Z.eqb_neq in E.
    destruct (dep (hd u) <? dep (hd v)) eqn:Ed.
    + apply Z.ltb_lt in Ed.
      assert (hd v ≠ root) as Hne by (apply (jump_side v u); [done..|lia]).
      destruct (jump_log v Hv Hne) as [Hp Hlog].
      apply IH; [done | done | lia].
    + apply Z.ltb_ge in Ed.
      assert (hd u ≠ root) as Hne by by apply (jump_side u v).
      destruct (jump_log u Hu Hne) as [Hp Hlog].
      apply IH; [done | done | lia].
Qed.

Lemma chain_query u :
  0 <= u < n →
  ∃ q, SegmentTree.query (HLD.seg_tree s) (ps (hd u)) (ps u) = Some q.
Proof.
  intros Hu.
  destruct (head_facts _ _ _ _ _ Hvalid s Hreach u Hu) as (Hh & _).
  destruct (inv_seg _ _ _ Hinv) as (a & Hst & Hn & _).
  pose proof (inv_pos_range _ _ _ Hinv (hd u)) as H1.
  pose proof (inv_pos_range _ _ _ Hinv u) as H2.
  unfold in_tree in H1, H2. rewrite (st_N _ _ _ _ _ Hvalid s Hreach) in *.
  eexists. apply (query_ok _ a); [done | lia | lia].
Qed.

Lemma query_path_loop_log fuel :
  ∀ u v res, 0 <= u < n → 0 <= v < n →
    2 * Z.log2 n - Z.log2 (sz (hd u)) - Z.log2 (sz (hd v)) < Z.of_nat fuel →
    ∃ q, HLD.query_path_loop fuel s u v res = Some q.
Proof.
  induction fuel as [|f IH]; intros u v res Hu Hv Hf.
  - destruct (head_facts _ _ _ _ _ Hvalid s Hreach u Hu) as (Hhu & _).
    destruct (head_facts _ _ _ _ _ Hvalid s Hreach v Hv) as (Hhv & _).
    pose proof (log_size _ Hhu). pose proof (log_size _ Hhv). lia.
  - simpl. destruct (hd u =? hd v) eqn:E; simpl.
    + destruct (inv_seg _ _ _ Hinv) as (a & Hst & Hn & _).
      pose proof (inv_pos_range _ _ _ Hinv u) as H1.
      pose proof (inv_pos_range _ _ _ Hinv v) as H2.
      unfold in_tree in H1, H2. rewrite (st_N _ _ _ _ _ Hvalid s Hreach) in *.
      destruct (dep u >? dep v);
        erewrite (query_ok _ a) by (done || lia); by eexists.
    + apply Z.eqb_neq in E.
      destruct (dep (hd u) <? dep (hd v)) eqn:Ed.
      * apply Z.ltb_lt in Ed.
        assert (hd v ≠ root) as Hne by (apply (jump_side v u); [done..|lia]).
        destruct (jump_log v Hv Hne) as [Hp Hlog].
        destruct (chain_query v Hv) as (q & ->). simpl.
        apply IH; [done | done | lia].
      * apply Z.ltb_ge in Ed.
        assert (hd u ≠ root) as Hne by by apply (jump_side u v).
        destruct (jump_log u Hu Hne) as [Hp Hlog].
        destruct (chain_query u Hu) as (q & ->). simpl.
        apply IH; [done | done | lia].
Qed.

Lemma loops_log fuel u v :
  0 <= u < n → 0 <= v < n → 2 * Z.log2 n < Z.of_nat fuel →
  ∃ w q, HLD.get_lca_loop fuel s u v = Some w
       ∧ HLD.get_lca s u v = Some w
       ∧ HLD.query_path_loop fuel s u v 0 = Some q
       ∧ HLD.query_path s u v = Some q.
Proof.
  intros Hu Hv Hf.
  destruct (head_facts _ _ _ _ _ Hvalid s Hreach u Hu) as (Hhu & _).
  destruct (head_facts _ _ _ _ _ Hvalid s Hreach v Hv) as (Hhv & _).
  pose proof (log_size _ Hhu). pose proof (log_size _ Hhv).
  destruct (get_lca_loop_log fuel u v Hu Hv) as (w & Hw); [lia|].
  destruct (query_path_loop_log fuel u v 0 Hu Hv) as (q & Hq); [lia|].
  assert (in_tree s u) as Hou by by apply ok_iff.
  assert (in_tree s v) as Hov by by apply ok_iff.
  destruct (meet_exists _ _ _ Hinv u v Hou Hov) as (a & b & Hm).
  pose proof (get_lca_meet _ _ _ Hinv u v a b Hou Hov Hm) as Hw'.
  pose proof (query_path_meet _ _ _ Hinv u v a b Hou Hov Hm) as Hq'.
  exists w, q. split; [done|]. split; [|split; [done|]].
  - unfold HLD.get_lca in *.
    destruct (Nat.le_ge_cases fuel (HLD.loop_fuel s)) as [Hle|Hle].
    + by apply (get_lca_loop_mono fuel).
    + rewrite (get_lca_loop_mono _ fuel s u v _ Hle Hw') in Hw. congruence.
  - unfold HLD.query_path in *.
    destruct (Nat.le_ge_cases fuel (HLD.loop_fuel s)) as [Hle|Hle].
    + by apply (query_path_loop_mono fuel).
    + rewrite (query_path_loop_mono _ fuel s u v _ _ Hle Hq') in Hq.
      congruence.
Qed.

End jumps.

(** X13: the loops of [get_lca] and [query_path] jump to another chain at
    most [2 * log2 N] times: run with any bound above [2 * log2 N] on the
    number of loop tests, they return what the two functions return. *)
Theorem chain_jumps_logarithmic n vals es root t s u v fuel :
  valid_input n vals es root t → reachable n vals es root s →
  0 <= u < n → 0 <= v < n → 2 * Z.log2 n < Z.of_nat fuel →
  ∃ w q, HLD.get_lca_loop fuel s u v = Some w
       ∧ HLD.get_lca s u v = Some w
       ∧ HLD.query_path_loop fuel s u v 0 = Some q
       ∧ HLD.query_path s u v = Some q.
Proof.
  intros Hvalid Hr Hu Hv Hf. by apply (loops_log _ _ _ _ _ Hvalid s Hr).
Qed.

Lemma chain_jumps_logarithmic_witness :
  ∃ w q, HLD.get_lca_loop 5 ex_state 4 6 = Some w
       ∧ HLD.get_lca ex_state 4 6 = Some w
       ∧ HLD.query_path_loop 5 ex_state 4 6 0 = Some q
       ∧ HLD.query_path ex_state 4 6 = Some q.
Proof.
  apply (chain_jumps_logarithmic 7 ex_vals ex_edges 1 ex_tree ex_state 4 6 5).
  - exact ex_valid.
  - exact ex_reachable.
  - lia.
  - lia.
  - vm_compute. reflexivity.
Defined.

(** ** Graphs that are not trees *)

(** On any graph, the first pass writes to [parent], [depth],
    [subtree_size] and [heavy_child] only, the second to [head], [pos]
    and [cur_pos] only, and neither changes the length of a vector. *)
Lemma dfs1_loop_frame (rec : Z → Z → Z → HLD.t → option HLD.t) u p d vs :
  (∀ v q e s s', rec v q e s = Some s' →
     rest1 s' = rest1 s ∧ lens1 s' = lens1 s) →
  ∀ mx s s', HLD.dfs1_loop rec u p d vs mx s = Some s' →
    rest1 s' = rest1 s ∧ lens1 s' = lens1 s.
Proof.
  intros Hrec. induction vs as [|v vs IH]; intros mx s s' H; simpl in H.
  - by injection H as <-.
  - destruct (v =? p); [by apply (IH mx)|].
    destruct (rec v u (d + 1) s) as [s1|] eqn:E; [|done]. simpl in H.
    apply Hrec in E as [E1 E2]. rewrite <- E1, <- E2.
    destruct (_ >? _); apply IH in H as [H1 H2]; rewrite H1, H2;
      unfold rest1, lens1; simpl; by rewrite ?zlen_vset.
Qed.

Lemma dfs1_frame fuel :
  ∀ u p d s s', HLD.dfs1_size_depth_parent fuel u p d s = Some s' →
    rest1 s' = rest1 s ∧ lens1 s' = lens1 s.
Proof.
  induction fuel as [|f IH]; intros u p d s s' H; [done|].
  simpl in H. apply dfs1_loop_frame in H as [H1 H2]; [|exact IH].
  rewrite H1, H2. unfold rest1, lens1. simpl. by rewrite ?zlen_vset.
Qed.


Lemma dfs2_loop_frame (rec : Z → Z → HLD.t → option HLD.t) u vs :
  (∀ v h s s', rec v h s = Some s' →
     rest2 s' = rest2 s ∧ lens2 s' = lens2 s) →
  ∀ s s', HLD.dfs2_loop rec u vs s = Some s' →
    rest2 s' = rest2 s ∧ lens2 s' = lens2 s.
Proof.
  intros Hrec. induction vs as [|v vs IH]; intros s s' H; simpl in H.
  - by injection H as <-.
  - destruct (_ || _); [by apply IH|].
    destruct (rec v v s) as [s1|] eqn:E; [|done]. simpl in H.
    apply Hrec in E as [E1 E2]. rewrite <- E1, <- E2. by apply IH.
Qed.

Lemma dfs2_frame fuel :
  ∀ u h s s', HLD.dfs2_hld fuel u h s = Some s' →
    rest2 s' = rest2 s ∧ lens2 s' = lens2 s.
Proof.
  induction fuel as [|f IH]; intros u h s s' H; [done|].
  simpl in H.
  destruct (_ =? -1).
  - simpl in H. apply dfs2_loop_frame in H as [H1 H2]; [|exact IH].
    rewrite H1, H2. unfold rest2, lens2. simpl. by rewrite ?zlen_vset.
  - destruct (HLD.dfs2_hld f _ h _) as [s1|] eqn:E; [|done]. simpl in H.
    apply IH in E as [E1 E2]. apply dfs2_loop_frame in H as [H1 H2]; [|exact IH].
    rewrite H1, H2, E1, E2. unfold rest2, lens2. simpl. by rewrite ?zlen_vset.
Qed.

Section cycle.
Context (adj : list (list Z)) (D : Z → Z → Prop).
Hypothesis Hstep :
  ∀ u p, D u p → ∃ v, v ∈ aget adj u ∧ v ≠ p ∧ D v u.


End cycle.





(** ** The nodes that the loops visit *)

Lemma get_lca_loop_turns s k :
  ∀ u v u' v' f, loop_turns s k u v = Some (u', v') →
    HLD.get_lca_loop (k + f) s u v = HLD.get_lca_loop f s u' v'.
Proof.
  induction k as [|k IH]; intros u v u' v' f H; simpl in H.
  - by injection H as <- <-.
  - unfold loop_step in H. simpl.
    destruct (negb _); [|done].
    destruct (_ <? _); simpl in H; by apply IH.
Qed.

Section turns.
Context (n : Z) (vals : list Z) (es : list (Z * Z)) (root : Z) (t : rtree).
Hypothesis Hvalid : valid_input n vals es root t.
Context (s : HLD.t).
Hypothesis Hreach : reachable n vals es root s.

Local Abbreviation par := (vget (HLD.parent s)).
Local Abbreviation dep := (vget (HLD.depth s)).
Local Abbreviation hd := (vget (HLD.head s)).
Local Abbreviation ps := (vget (HLD.pos s)).

Lemma loop_step_valid u v u' v' :
  0 <= u < n → 0 <= v < n → loop_step s u v = Some (u', v') →
  0 <= u' < n ∧ 0 <= v' < n.
Proof.
  intros Hu Hv H. unfold loop_step in H.
  destruct (hd u =? hd v) eqn:E; [done|]. simpl in H.
  apply Z.eqb_neq in E.
  destruct (dep (hd u) <? dep (hd v)) eqn:Ed; injection H as <- <-.
  - apply Z.ltb_lt in Ed.
    assert (hd v ≠ root) as Hne.
    { apply (jump_side _ _ _ _ _ Hvalid s Hreach v u); [done..|lia]. }
    by destruct (jump_log _ _ _ _ _ Hvalid s Hreach v Hv Hne).
  - apply Z.ltb_ge in Ed.
    assert (hd u ≠ root) as Hne.
    { by apply (jump_side _ _ _ _ _ Hvalid s Hreach u v). }
    by destruct (jump_log _ _ _ _ _ Hvalid s Hreach u Hu Hne).
Qed.

Lemma loop_turns_valid k :
  ∀ u v u' v', 0 <= u < n → 0 <= v < n →
    loop_turns s k u v = Some (u', v') → 0 <= u' < n ∧ 0 <= v' < n.
Proof.
  induction k as [|k IH]; intros u v u' v' Hu Hv H; simpl in H.
  - by injection H as <- <-.
  - destruct (loop_step s u v) as [[u1 v1]|] eqn:E; [|done]. simpl in H.
    destruct (loop_step_valid u v u1 v1 Hu Hv E).
    by apply (IH u1 v1).
Qed.

Lemma query_path_loop_turns k :
  ∀ u v u' v' f res, 0 <= u < n → 0 <= v < n →
    loop_turns s k u v = Some (u', v') →
    ∃ res', HLD.query_path_loop (k + f) s u v res
            = HLD.query_path_loop f s u' v' res'.
Proof.
  induction k as [|k IH]; intros u v u' v' f res Hu Hv H; simpl in H.
  - injection H as <- <-. by exists res.
  - destruct (loop_step s u v) as [[u1 v1]|] eqn:E; [|done]. simpl in H.
    destruct (loop_step_valid u v u1 v1 Hu Hv E) as [Hu1 Hv1].
    unfold loop_step in E. simpl.
    destruct (negb _); [|done].
    destruct (_ <? _); injection E as <- <-.
    + destruct (chain_query _ _ _ _ _ Hvalid s Hreach v Hv) as (q & ->).
      simpl. by apply IH.
    + destruct (chain_query _ _ _ _ _ Hvalid s Hreach u Hu) as (q & ->).
      simpl. by apply IH.
Qed.

Lemma chain_range x :
  0 <= x < n → 0 <= hd x < n ∧ 0 <= ps (hd x) ∧ ps (hd x) <= ps x < n.
Proof.
  intros Hx.
  destruct (head_facts _ _ _ _ _ Hvalid s Hreach x Hx) as (Hh & Hhh & Hd).
  destruct (same_chain_layout _ _ _ _ _ Hvalid s Hreach _ x Hh Hx Hhh Hd)
    as (_ & Hp & _).
  pose proof (st_inv _ _ _ _ _ Hvalid s Hreach) as Hinv.
  pose proof (inv_pos_range _ _ _ Hinv (hd x)) as H1.
  pose proof (inv_pos_range _ _ _ Hinv x) as H2.
  unfold in_tree in H1, H2. rewrite (st_N _ _ _ _ _ Hvalid s Hreach) in *.
  lia.
Qed.
End turns.

(** X16: the loops of [query_path] and [get_lca] stay inside the tree.
    After any number of turns the two nodes are nodes of the tree (the
    parent -1 of the root is never taken), their heads are nodes, and
    the range from the position of the head to the position of the node
    is a non-empty range of positions.  The turns are those of the two
    loops. *)
Theorem loops_stay_in_tree n vals es root t s u v k u' v' :
  valid_input n vals es root t → reachable n vals es root s →
  0 <= u < n → 0 <= v < n → loop_turns s k u v = Some (u', v') →
  (∀ x, x = u' ∨ x = v' →
     0 <= x < n ∧ 0 <= vget (HLD.head s) x < n
     ∧ 0 <= vget (HLD.pos s) (vget (HLD.head s) x)
     ∧ vget (HLD.pos s) (vget (HLD.head s) x) <= vget (HLD.pos s) x < n)
  ∧ (∀ f, HLD.get_lca_loop (k + f) s u v = HLD.get_lca_loop f s u' v')
  ∧ (∀ f res, ∃ res', HLD.query_path_loop (k + f) s u v res
                      = HLD.query_path_loop f s u' v' res').
Proof.
  intros Hvalid Hr Hu Hv H. split; [|split].
  - destruct (loop_turns_valid _ _ _ _ _ Hvalid s Hr k u v u' v' Hu Hv H)
      as [Hu' Hv'].
    intros x [->| ->]; (split; [done|]);
      by apply (chain_range _ _ _ _ _ Hvalid s Hr).
  - intros f. by apply get_lca_loop_turns.
  - intros f res. by apply (query_path_loop_turns _ _ _ _ _ Hvalid s Hr).
Qed.

Lemma loops_stay_in_tree_witness :
  (∀ x, x = 1 ∨ x = 3 →
     0 <= x < 7 ∧ 0 <= vget (HLD.head ex_state) x < 7
     ∧ 0 <= vget (HLD.pos ex_state) (vget (HLD.head ex_state) x)
     ∧ vget (HLD.pos ex_state) (vget (HLD.head ex_state) x)
       <= vget (HLD.pos ex_state) x < 7)
  ∧ (∀ f, HLD.get_lca_loop (1 + f) ex_state 2 3
          = HLD.get_lca_loop f ex_state 1 3)
  ∧ (∀ f res, ∃ res', HLD.query_path_loop (1 + f) ex_state 2 3 res
                      = HLD.query_path_loop f ex_state 1 3 res').
Proof.
  apply (loops_stay_in_tree 7 ex_vals ex_edges 1 ex_tree ex_state 2 3 1 1 3).
  - exact ex_valid.
  - exact ex_reachable.
  - lia.
  - lia.
  - vm_compute. reflexivity.
Defined.

(** * Indexing inside the vectors *)

Lemma cget_vget l i : 0 <= i < zlen l → cget l i = Some (vget l i).
Proof.
  unfold cget, vget, zlen. intros H. rewrite !decide_True by lia.
  destruct (lookup_lt_is_Some_2 l (Z.to_nat i)) as (x & ->); [lia | done].
Qed.

Lemma cset_vset l i x : 0 <= i < zlen l → cset l i x = Some (vset l i x).
Proof.
  unfold cset, vset. intros H. rewrite decide_True by done.
  by rewrite decide_True by lia.
Qed.

Lemma zlen_build_rec fuel arr :
  ∀ node s e tr tr', SegmentTree.build_rec fuel arr node s e tr = Some tr' →
    zlen tr' = zlen tr.
Proof.
  induction fuel as [|f IH]; intros node s e tr tr' H; [done|]. simpl in H.
  destruct (s =? e).
  - injection H as <-. apply zlen_vset.
  - destruct (SegmentTree.build_rec f arr (2 * node + 1) _ _ _) as [tr1|] eqn:E1;
      [|done]. simpl in H.
    destruct (SegmentTree.build_rec f arr (2 * node + 2) _ _ _) as [tr2|] eqn:E2;
      [|done]. simpl in H. injection H as <-.
    rewrite zlen_vset, (IH _ _ _ _ _ E2). by apply (IH _ _ _ _ _ E1).
Qed.

Lemma zlen_update_rec fuel :
  ∀ node s e idx val tr tr',
    SegmentTree.update_rec fuel node s e idx val tr = Some tr' →
    zlen tr' = zlen tr.
Proof.
  induction fuel as [|f IH]; intros node s e idx val tr tr' H; [done|].
  simpl in H. destruct (s =? e).
  - injection H as <-. apply zlen_vset.
  - destruct (_ && _).
    + destruct (SegmentTree.update_rec f (2 * node + 1) _ _ _ _ _) as [tr1|] eqn:E1;
        [|done]. simpl in H. injection H as <-.
      rewrite zlen_vset. by apply (IH _ _ _ _ _ _ _ E1).
    + destruct (SegmentTree.update_rec f (2 * node + 2) _ _ _ _ _) as [tr1|] eqn:E1;
        [|done]. simpl in H. injection H as <-.
      rewrite zlen_vset. by apply (IH _ _ _ _ _ _ _ E1).
Qed.

Lemma safe_build_rec fuel arr m :
  ∀ P node s e tr,
    zlen tr = 4 * m → 1 <= P <= 2 * m → P <= node + 1 < 2 * P →
    (e - s) * P < m → 0 <= s <= e → e < zlen arr →
    Safe.build_rec fuel arr node s e tr
    = SegmentTree.build_rec fuel arr node s e tr.
Proof.
  induction fuel as [|f IH]; intros P node s e tr Hl HP Hnode Hw Hs He; [done|].
  simpl. destruct (s =? e) eqn:E.
  - rewrite cget_vget by lia. simpl. apply cset_vset. lia.
  - apply Z.eqb_neq in E.
    assert (s <= Z.quot (s + e) 2 < e) as Hm.
    { rewrite quot2 by lia. split.
      - apply Z.div_le_lower_bound; lia.
      - apply Z.div_lt_upper_bound; lia. }
    assert (2 * (Z.quot (s + e) 2 - s) <= e - s) as Hh1.
    { rewrite quot2 by lia. pose proof (Z.mul_div_le (s + e) 2). lia. }
    assert (2 * (e - (Z.quot (s + e) 2 + 1)) <= e - s) as Hh2.
    { rewrite quot2 by lia.
      pose proof (Z.mod_pos_bound (s + e) 2).
      pose proof (Z.div_mod (s + e) 2). lia. }
    assert (P < m) as HPm by nia.
    rewrite (IH (2 * P)) by (lia || nia).
    destruct (SegmentTree.build_rec f arr (2 * node + 1) _ _ _) as [tr1|] eqn:E1;
      [|done]. simpl.
    pose proof (zlen_build_rec _ _ _ _ _ _ _ E1) as L1.
    rewrite (IH (2 * P)) by (lia || nia).
    destruct (SegmentTree.build_rec f arr (2 * node + 2) _ _ _) as [tr2|] eqn:E2;
      [|done]. simpl.
    pose proof (zlen_build_rec _ _ _ _ _ _ _ E2) as L2.
    rewrite !cget_vget by lia. simpl. apply cset_vset. lia.
Qed.

Lemma safe_update_rec fuel a :
  ∀ node s e idx val tr,
    seg_rep tr a node s e → 0 <= s →
    Safe.update_rec fuel node s e idx val tr
    = SegmentTree.update_rec fuel node s e idx val tr.
Proof.
  induction fuel as [|f IH]; intros node s e idx val tr Hrep H0; [done|].
  simpl. inversion Hrep as [? ? Hb Hv|? ? ? Hlt Hb Hl Hr Hv]; subst.
  - rewrite Z.eqb_refl. by apply cset_vset.
  - rewrite (proj2 (Z.eqb_neq _ _)) by lia.
    pose proof (seg_rep_bounds _ _ _ _ _ Hl) as [_ Bl].
    pose proof (seg_rep_bounds _ _ _ _ _ Hr) as [_ Br].
    rewrite quot2 by lia.
    assert (0 <= (s + e) `div` 2) as Hm by (apply Z.div_pos; lia).
    destruct (_ && _).
    + rewrite IH by done.
      destruct (SegmentTree.update_rec f (2 * node + 1) _ _ _ _ _) as [tr1|] eqn:E1;
        [|done]. simpl.
      pose proof (zlen_update_rec _ _ _ _ _ _ _ _ E1) as L1.
      rewrite !cget_vget by lia. simpl. apply cset_vset. lia.
    + rewrite IH by (done || lia).
      destruct (SegmentTree.update_rec f (2 * node + 2) _ _ _ _ _) as [tr1|] eqn:E1;
        [|done]. simpl.
      pose proof (zlen_update_rec _ _ _ _ _ _ _ _ E1) as L1.
      rewrite !cget_vget by lia. simpl. apply cset_vset. lia.
Qed.

Lemma safe_query_rec fuel a :
  ∀ node s e l r tr,
    seg_rep tr a node s e → 0 <= s →
    Safe.query_rec fuel tr node s e l r
    = SegmentTree.query_rec fuel tr node s e l r.
Proof.
  induction fuel as [|f IH]; intros node s e l r tr Hrep H0; [done|].
  simpl. destruct (_ || _) eqn:Eo; [done|].
  pose proof (seg_rep_bounds _ _ _ _ _ Hrep) as [_ Hb].
  destruct (_ && _) eqn:Ec; [by apply cget_vget|].
  apply orb_false_iff in Eo as [Eo1 Eo2].
  apply Z.ltb_ge in Eo1, Eo2. apply andb_false_iff in Ec.
  rewrite !Z.leb_gt in Ec.
  inversion Hrep as [? ? _ Hv|? ? ? Hlt _ Hl Hr Hv]; subst; [lia|].
  rewrite quot2 by lia.
  assert (0 <= (s + e) `div` 2) as Hm by (apply Z.div_pos; lia).
  rewrite !(IH _ _ _ _ _ _) by (done || lia). done.
Qed.

Lemma update_any_ok st a idx val :
  st_ok st a → Int.in_range val →
  ∃ st' a', SegmentTree.update st idx val = Some st' ∧ st_ok st' a'
          ∧ SegmentTree.n st' = SegmentTree.n st.
Proof.
  intros Hok Hval. pose proof Hok as (Hn & _).
  assert (∃ i, 0 <= i < SegmentTree.n st
             ∧ SegmentTree.update st idx val = SegmentTree.update st i val)
    as (i & Hi & ->).
  { destruct (decide (0 <= idx < SegmentTree.n st)); [by exists idx|].
    exists (SegmentTree.n st - 1). split; [lia|].
    unfold SegmentTree.update. by rewrite update_rec_clip by lia. }
  destruct (update_ok st a i val Hok Hi Hval) as (st' & Hu & Hok').
  exists st', (vset a i val). split; [done|]. split; [done|].
  rewrite <- (st_ok_n _ _ Hok'), <- (st_ok_n _ _ Hok). apply zlen_vset.
Qed.

Lemma safe_update st a idx val :
  st_ok st a → Safe.update st idx val = SegmentTree.update st idx val.
Proof.
  intros (Hn & _ & _ & Hrep). unfold Safe.update, SegmentTree.update.
  by rewrite (safe_update_rec _ a).
Qed.

Lemma safe_query st a l r :
  st_ok st a →
  ∃ q, Safe.query st l r = Some q ∧ SegmentTree.query st l r = Some q.
Proof.
  intros Hok. pose proof Hok as (Hn & _ & _ & Hrep).
  unfold Safe.query. rewrite (safe_query_rec _ a) by done.
  fold (SegmentTree.query st l r).
  destruct (decide (l <= r)).
  - rewrite (query_clip st a l r) by done. by eexists.
  - unfold SegmentTree.query. rewrite (proj2 (Z.gtb_gt _ _)) by lia.
    by eexists.
Qed.

Lemma safe_run_updates us :
  ∀ st a, st_ok st a → Forall (λ u, Int.in_range u.2) us →
    ∃ st' a', Safe.run_updates st us = Some st' ∧ run_updates st us = Some st'
            ∧ st_ok st' a'.
Proof.
  induction us as [|u us IH]; intros st a Hok Hus.
  - by exists st, a.
  - apply Forall_cons in Hus as [Hx Hus]. simpl.
    rewrite (safe_update st a) by done.
    destruct (update_any_ok st a u.1 u.2 Hok Hx) as (st1 & a1 & -> & Hok1 & _).
    simpl. by apply (IH st1 a1).
Qed.

Lemma safe_build st a :
  1 <= SegmentTree.n st →
  zlen (SegmentTree.tree st) = 4 * SegmentTree.n st →
  zlen a = SegmentTree.n st →
  Safe.build_from_mapped_values st a
  = SegmentTree.build_from_mapped_values st a.
Proof.
  intros Hn Hl Ha.
  unfold Safe.build_from_mapped_values, SegmentTree.build_from_mapped_values.
  destruct a as [|x a']; [done|].
  by rewrite (safe_build_rec _ _ (SegmentTree.n st) 1) by lia.
Qed.

(** X17: the segment tree indexes inside its vectors only.  Built over
    an array of [n >= 1] [int]s and updated at any indices whatever, with
    every access to [tree] and to the array checked, [build], [update]
    and [query] (with any bounds) return, and return what they return
    unchecked. *)
Theorem segment_tree_in_bounds n a us :
  1 <= n → zlen a = n → Forall Int.in_range a →
  Forall (λ u, Int.in_range u.2) us →
  ∃ st0 st,
    Safe.build_from_mapped_values (SegmentTree.new n) a = Some st0
    ∧ SegmentTree.build_from_mapped_values (SegmentTree.new n) a = Some st0
    ∧ Safe.run_updates st0 us = Some st
    ∧ run_updates st0 us = Some st
    ∧ ∀ l r, ∃ q, Safe.query st l r = Some q
                ∧ SegmentTree.query st l r = Some q.
Proof.
  intros Hn Hl Ha Hus.
  destruct (new_built n a Hn Hl Ha) as (st0 & Hb & Hn0 & Hok0).
  destruct (safe_run_updates us st0 a Hok0 Hus) as (st & a' & Hs & Hr & Hok).
  exists st0, st. split.
  { rewrite safe_build; simpl; [done | lia | | done].
    apply zlen_replicate. lia. }
  split; [done|]. split; [done|]. split; [done|].
  intros l r. by apply (safe_query st a').
Qed.

Lemma segment_tree_in_bounds_witness :
  ∃ st0 st,
    Safe.build_from_mapped_values (SegmentTree.new 4) seg_vals = Some st0
    ∧ SegmentTree.build_from_mapped_values (SegmentTree.new 4) seg_vals
      = Some st0
    ∧ Safe.run_updates st0 [(2, 10); (9, 3)] = Some st
    ∧ run_updates st0 [(2, 10); (9, 3)] = Some st
    ∧ ∀ l r, ∃ q, Safe.query st l r = Some q
                ∧ SegmentTree.query st l r = Some q.
Proof.
  apply (segment_tree_in_bounds 4 seg_vals [(2, 10); (9, 3)]).
  - lia.
  - reflexivity.
  - unfold seg_vals, Int.in_range, Int.min_int, Int.max_int.
    repeat constructor; lia.
  - unfold Int.in_range, Int.min_int, Int.max_int.
    repeat constructor; simpl; lia.
Defined.

(** ** The vectors of the decomposition *)

Lemma build_lens s root s' :
  HLD.build s root = Some s' → lens1 s' = lens1 s ∧ lens2 s' = lens2 s.
Proof.
  unfold HLD.build. intros H.
  destruct (HLD.dfs1_size_depth_parent _ _ _ _ _) as [s1|] eqn:E1; [|done].
  simpl in H.
  destruct (HLD.dfs2_hld _ _ _ _) as [s2|] eqn:E2; [|done]. simpl in H.
  destruct (SegmentTree.build_from_mapped_values _ _) as [st|]; [|done].
  simpl in H. injection H as <-.
  apply dfs1_frame in E1 as [E1 L1]. apply dfs2_frame in E2 as [E2 L2].
  unfold rest1 in E1. unfold rest2 in E2.
  injection E1 as _ _ _ A4 A5 _ _. injection E2 as _ _ _ B4 B5 B6 B7 _.
  unfold lens1, lens2 in *. simpl. split.
  - rewrite B4, B5, B6, B7. done.
  - rewrite L2, A4, A5. done.
Qed.

Lemma initial_lens n vals es :
  0 <= n →
  lens1 (initial n vals es) = (n, n, n, n) ∧ lens2 (initial n vals es) = (n, n)
  ∧ HLD.seg_tree (initial n vals es) = SegmentTree.new n
  ∧ HLD.N (initial n vals es) = n
  ∧ (∀ x, 0 <= x < n → vget (HLD.heavy_child (initial n vals es)) x = -1).
Proof.
  intros Hn. pose proof (add_edges_core (HLD.new n vals) es) as Hc.
  unfold initial, core in *.
  injection Hc as C1 _ C3 C4 C5 C6 C7 C8 _ C10.
  unfold lens1, lens2. rewrite C1, C3, C4, C5, C6, C7, C8, C10. simpl.
  rewrite !zlen_replicate by done.
  repeat (split; [done|]).
  intros x Hx. apply vget_replicate. lia.
Qed.

Lemma initial_adj_ok n vals es :
  0 <= n → Forall (λ e, 0 <= e.1 < n ∧ 0 <= e.2 < n) es →
  adj_ok n (HLD.adj (initial n vals es)).
Proof.
  intros Hn Hes. split.
  - unfold initial. rewrite zlen_adj_add_edges. simpl.
    by apply zlen_replicate.
  - intros x y Hy. unfold initial in Hy. rewrite aget_add_edges in Hy.
    + simpl in Hy. rewrite aget_replicate_nil in Hy. simpl in Hy.
      unfold neighbours in Hy. apply list_elem_of_bind in Hy as (e & Hy & He).
      rewrite Forall_forall in Hes. specialize (Hes e He).
      apply elem_of_app in Hy as [Hy|Hy]; case_decide;
        try (by apply elem_of_nil in Hy);
        apply list_elem_of_singleton in Hy; lia.
    + eapply Forall_impl; [exact Hes|]. intros e He. simpl in *.
      unfold zlen. rewrite length_replicate. lia.
Qed.

(** ** The two passes, checked *)

Section passes.
Context (n : Z).

Local Abbreviation dn := ((n, n, n, n), (n, n)).

Lemma pass_ok_lens s :
  pass_ok n s →
  zlen (HLD.parent s) = n ∧ zlen (HLD.depth s) = n
  ∧ zlen (HLD.subtree_size s) = n ∧ zlen (HLD.heavy_child s) = n
  ∧ zlen (HLD.head s) = n ∧ zlen (HLD.pos s) = n ∧ zlen (HLD.adj s) = n.
Proof.
  intros ([Ha _] & Hl & _). unfold lens1, lens2 in Hl.
  by injection Hl as -> -> -> -> -> ->.
Qed.

Lemma cget_aget (a : list (list Z)) x :
  0 <= x < zlen a → cget a x = Some (aget a x).
Proof.
  unfold cget, aget, zlen. intros H. rewrite !decide_True by lia.
  destruct (lookup_lt_is_Some_2 a (Z.to_nat x)) as (l & ->); [lia | done].
Qed.

(** The first pass keeps [pass_ok]. *)
Lemma dfs1_loop_ok (rec : Z → Z → Z → HLD.t → option HLD.t) u p d vs :
  (∀ v q e s s', rec v q e s = Some s' → pass_ok n s → 0 <= v < n →
     pass_ok n s') →
  0 <= u < n →
  ∀ mx s s', (∀ v, v ∈ vs → 0 <= v < n) → pass_ok n s →
    HLD.dfs1_loop rec u p d vs mx s = Some s' → pass_ok n s'.
Proof.
  intros Hrec Hu. induction vs as [|v vs IH]; intros mx s s' Hvs Hs H;
    simpl in H.
  - by injection H as <-.
  - assert (∀ v', v' ∈ vs → 0 <= v' < n) as Hvs'.
    { intros v' Hv'. apply Hvs. by apply elem_of_cons; right. }
    assert (0 <= v < n) as Hv by (apply Hvs; by apply elem_of_cons; left).
    destruct (v =? p); [by apply (IH mx s)|].
    destruct (rec v u (d + 1) s) as [s1|] eqn:E; [|done]. simpl in H.
    pose proof (Hrec _ _ _ _ _ E Hs Hv) as Hs1.
    pose proof (pass_ok_lens _ Hs1) as (L1 & L2 & L3 & L4 & L5 & L6 & L7).
    destruct Hs1 as (Ha & Hl & Hh).
    destruct (_ >? _).
    + apply IH in H; [done | done |]. split; [done|]. split.
      * unfold lens1, lens2 in *. simpl. by rewrite !zlen_vset.
      * intros x Hx. simpl.
        destruct (decide (x = u)) as [->|Hne].
        -- rewrite vget_vset_eq by lia. by right.
        -- rewrite vget_vset_ne by done. by apply Hh.
    + apply IH in H; [done | done |]. split; [done|]. split.
      * unfold lens1, lens2 in *. simpl. by rewrite !zlen_vset.
      * done.
Qed.

Lemma dfs1_ok_keep fuel :
  ∀ u p d s s', HLD.dfs1_size_depth_parent fuel u p d s = Some s' →
    pass_ok n s → 0 <= u < n → pass_ok n s'.
Proof.
  induction fuel as [|f IH]; intros u p d s s' H Hs Hu; [done|].
  simpl in H. destruct Hs as (Ha & Hl & Hh).
  apply (dfs1_loop_ok (HLD.dfs1_size_depth_parent f) u p d) in H;
    [done | exact IH | done | |].
  - intros v Hv. simpl in Hv. by apply Ha in Hv.
  - split; [done|]. split; [|done].
    unfold lens1, lens2 in *. simpl. by rewrite !zlen_vset.
Qed.

Lemma safe_dfs1_loop (srec rec : Z → Z → Z → HLD.t → option HLD.t)
    u p d vs :
  (∀ v q e s, pass_ok n s → 0 <= v < n → srec v q e s = rec v q e s) →
  (∀ v q e s s', rec v q e s = Some s' → pass_ok n s → 0 <= v < n →
     pass_ok n s') →
  0 <= u < n →
  ∀ mx s, (∀ v, v ∈ vs → 0 <= v < n) → pass_ok n s →
    Safe.dfs1_loop srec u p d vs mx s = HLD.dfs1_loop rec u p d vs mx s.
Proof.
  intros Hsr Hrec Hu. induction vs as [|v vs IH]; intros mx s Hvs Hs;
    [done|]. simpl.
  assert (∀ v', v' ∈ vs → 0 <= v' < n) as Hvs'.
  { intros v' Hv'. apply Hvs. by apply elem_of_cons; right. }
  assert (0 <= v < n) as Hv by (apply Hvs; by apply elem_of_cons; left).
  destruct (v =? p); [by apply IH|].
  rewrite Hsr by done.
  destruct (rec v u (d + 1) s) as [s1|] eqn:E; [|done]. simpl.
  pose proof (Hrec _ _ _ _ _ E Hs Hv) as Hs1.
  pose proof (pass_ok_lens _ Hs1) as (L1 & L2 & L3 & L4 & L5 & L6 & L7).
  destruct Hs1 as (Ha & Hl & Hh).
  rewrite !cget_vget by lia. simpl.
  rewrite !cset_vset by lia. simpl.
  rewrite cget_vget by (rewrite zlen_vset; lia). simpl.
  destruct (_ >? _).
  - apply IH; [done|].
    split; [done|]. split.
    + unfold lens1, lens2 in *. simpl. by rewrite !zlen_vset.
    + intros x Hx. simpl.
      destruct (decide (x = u)) as [->|Hne].
      * rewrite vget_vset_eq by lia. by right.
      * rewrite vget_vset_ne by done. by apply Hh.
  - apply IH; [done|]. split; [done|]. split; [|done].
    unfold lens1, lens2 in *. simpl. by rewrite !zlen_vset.
Qed.

Lemma safe_dfs1 fuel :
  ∀ u p d s, pass_ok n s → 0 <= u < n →
    Safe.dfs1_size_depth_parent fuel u p d s
    = HLD.dfs1_size_depth_parent fuel u p d s.
Proof.
  induction fuel as [|f IH]; intros u p d s Hs Hu; [done|].
  pose proof (pass_ok_lens _ Hs) as (L1 & L2 & L3 & L4 & L5 & L6 & L7).
  destruct Hs as (Ha & Hl & Hh). simpl.
  rewrite !cset_vset by lia. simpl.
  rewrite cget_aget by lia. simpl.
  apply safe_dfs1_loop; [exact IH | | done | |].
  - intros v q e s0 s' H. by apply (dfs1_ok_keep f _ _ _ _ _ H).
  - intros v Hv. by apply Ha in Hv.
  - split; [done|]. split; [|done].
    unfold lens1, lens2 in *. simpl. by rewrite !zlen_vset.
Qed.

(** The second pass keeps [pass_ok]. *)
Lemma dfs2_ok_keep fuel u h s s' :
  HLD.dfs2_hld fuel u h s = Some s' → pass_ok n s → pass_ok n s'.
Proof.
  intros H (Ha & Hl & Hh). apply dfs2_frame in H as [H1 H2].
  unfold rest2 in H1. injection H1 as _ A2 _ A4 A5 A6 A7 _.
  split; [by rewrite A2|]. split.
  - unfold lens1. rewrite H2, A4, A5, A6, A7. done.
  - intros x Hx. rewrite A7. by apply Hh.
Qed.

Lemma safe_dfs2_loop (srec rec : Z → Z → HLD.t → option HLD.t) u vs :
  (∀ v h s, pass_ok n s → 0 <= v < n → srec v h s = rec v h s) →
  (∀ v h s s', rec v h s = Some s' → pass_ok n s → pass_ok n s') →
  0 <= u < n →
  ∀ s, (∀ v, v ∈ vs → 0 <= v < n) → pass_ok n s →
    Safe.dfs2_loop srec u vs s = HLD.dfs2_loop rec u vs s.
Proof.
  intros Hsr Hrec Hu. induction vs as [|v vs IH]; intros s Hvs Hs;
    [done|]. simpl.
  assert (∀ v', v' ∈ vs → 0 <= v' < n) as Hvs'.
  { intros v' Hv'. apply Hvs. by apply elem_of_cons; right. }
  assert (0 <= v < n) as Hv by (apply Hvs; by apply elem_of_cons; left).
  pose proof (pass_ok_lens _ Hs) as (L1 & L2 & L3 & L4 & L5 & L6 & L7).
  rewrite !cget_vget by lia. simpl.
  destruct (_ || _); [by apply IH|].
  rewrite Hsr by done.
  destruct (rec v v s) as [s1|] eqn:E; [|done]. simpl.
  apply IH; [done|]. by apply (Hrec _ _ _ _ E).
Qed.

Lemma safe_dfs2 fuel :
  ∀ u h s, pass_ok n s → 0 <= u < n →
    Safe.dfs2_hld fuel u h s = HLD.dfs2_hld fuel u h s.
Proof.
  induction fuel as [|f IH]; intros u h s Hs Hu; [done|].
  pose proof (pass_ok_lens _ Hs) as (L1 & L2 & L3 & L4 & L5 & L6 & L7).
  destruct Hs as (Ha & Hl & Hh). simpl.
  rewrite cset_vset by lia. simpl.
  rewrite cset_vset by lia. simpl.
  rewrite cget_vget by lia. simpl.
  set (s0 := HLD.with_cur_pos _ _).
  assert (pass_ok n s0) as Hs0.
  { split; [done|]. split; [|done].
    unfold lens1, lens2 in *. simpl. by rewrite !zlen_vset. }
  assert (∀ s1, pass_ok n s1 →
            (cget (HLD.adj s1) u ≫= λ vs, Safe.dfs2_loop (Safe.dfs2_hld f) u vs s1)
            = HLD.dfs2_loop (HLD.dfs2_hld f) u (aget (HLD.adj s1) u) s1)
    as Hloop.
  { intros s1 Hs1.
    pose proof (pass_ok_lens _ Hs1) as (_ & _ & _ & _ & _ & _ & L7').
    rewrite cget_aget by lia. simpl.
    apply safe_dfs2_loop; [exact IH | | done | | done].
    - intros v h' s2 s' H. by apply (dfs2_ok_keep _ _ _ _ _ H).
    - intros v Hv. destruct Hs1 as (Ha1 & _). by apply Ha1 in Hv. }
  destruct (vget (HLD.heavy_child s) u =? -1) eqn:E.
  - exact (Hloop s0 Hs0).
  - apply Z.eqb_neq in E.
    destruct (Hh u Hu) as [?|Hhc]; [done|].
    rewrite IH by done.
    destruct (HLD.dfs2_hld f _ h s0) as [s1|] eqn:E1; [|done]. simpl.
    apply Hloop. by apply (dfs2_ok_keep _ _ _ _ _ E1).
Qed.
End passes.

(** ** Queries and updates, checked *)

Lemma update_lens s u x s' :
  HLD.update_node_value s u x = Some s' →
  lens1 s' = lens1 s ∧ lens2 s' = lens2 s.
Proof.
  unfold HLD.update_node_value. intros H.
  destruct (SegmentTree.update _ _ _) as [st|]; [|done].
  simpl in H. by injection H as <-.
Qed.

Section checked.
Context (n : Z) (vals : list Z) (es : list (Z * Z)) (root : Z) (t : rtree).
Hypothesis Hvalid : valid_input n vals es root t.

Lemma valid_size : 1 <= n ∧ 0 <= root < n.
Proof.
  destruct Hvalid as [_ _ _ Ht].
  destruct (valid_tree_nodes _ _ _ _ Ht) as (_ & _ & Hn).
  destruct Ht as (Hr & _). pose proof (rid_in_nodes t) as Hin.
  rewrite Hr in Hin. apply Hn in Hin. lia.
Qed.

Lemma initial_pass_ok : pass_ok n (initial n vals es).
Proof.
  destruct valid_size as [Hn _].
  destruct (initial_lens n vals es) as (L1 & L2 & _ & _ & Hh); [lia|].
  split; [|split].
  - apply initial_adj_ok; [lia | apply Hvalid].
  - by rewrite L1, L2.
  - intros x Hx. left. by apply Hh.
Qed.

Lemma reachable_lens s :
  reachable n vals es root s →
  lens1 s = (n, n, n, n) ∧ lens2 s = (n, n).
Proof.
  destruct valid_size as [Hn _].
  induction 1 as [s Hb|s u x s' Hr IH Hu Hx Hup].
  - destruct (build_lens _ _ _ Hb) as [-> ->].
    destruct (initial_lens n vals es) as (L1 & L2 & _); [lia | done].
  - destruct (update_lens _ _ _ _ Hup) as [-> ->]. done.
Qed.

Context (s : HLD.t).
Hypothesis Hreach : reachable n vals es root s.

Local Abbreviation par := (vget (HLD.parent s)).
Local Abbreviation dep := (vget (HLD.depth s)).
Local Abbreviation hd := (vget (HLD.head s)).
Local Abbreviation ps := (vget (HLD.pos s)).

Lemma st_lens :
  zlen (HLD.parent s) = n ∧ zlen (HLD.depth s) = n
  ∧ zlen (HLD.head s) = n ∧ zlen (HLD.pos s) = n
  ∧ zlen (HLD.values s) = n.
Proof.
  destruct (reachable_lens s Hreach) as [L1 L2].
  unfold lens1 in L1. unfold lens2 in L2.
  injection L1 as -> -> _ _. injection L2 as -> ->.
  pose proof (st_inv _ _ _ _ _ Hvalid s Hreach) as Hinv.
  rewrite (inv_values_len _ _ _ Hinv).
  by rewrite (st_N _ _ _ _ _ Hvalid s Hreach).
Qed.

Lemma st_seg : ∃ a, st_ok (HLD.seg_tree s) a.
Proof.
  pose proof (st_inv _ _ _ _ _ Hvalid s Hreach) as Hinv.
  destruct (inv_seg _ _ _ Hinv) as (a & Hst & _). by exists a.
Qed.

Lemma jump_valid u v :
  0 <= u < n → 0 <= v < n → hd u ≠ hd v → dep (hd v) <= dep (hd u) →
  0 <= par (hd u) < n.
Proof.
  intros Hu Hv Hne Hd.
  assert (hd u ≠ root) as Hr.
  { by apply (jump_side _ _ _ _ _ Hvalid s Hreach u v). }
  by destruct (jump_log _ _ _ _ _ Hvalid s Hreach u Hu Hr).
Qed.

Lemma safe_get_lca_loop fuel :
  ∀ u v, 0 <= u < n → 0 <= v < n →
    Safe.get_lca_loop fuel s u v = HLD.get_lca_loop fuel s u v.
Proof.
  destruct st_lens as (L1 & L2 & L3 & L4 & L5).
  induction fuel as [|f IH]; intros u v Hu Hv; [done|]. simpl.
  destruct (head_facts _ _ _ _ _ Hvalid s Hreach u Hu) as (Hhu & _).
  destruct (head_facts _ _ _ _ _ Hvalid s Hreach v Hv) as (Hhv & _).
  rewrite (cget_vget (HLD.head s) u), (cget_vget (HLD.head s) v) by lia.
  rewrite (cget_vget (HLD.depth s) u), (cget_vget (HLD.depth s) v) by lia.
  simpl. destruct (hd u =? hd v) eqn:E; simpl; [done|].
  apply Z.eqb_neq in E.
  rewrite (cget_vget (HLD.depth s) (hd u)), (cget_vget (HLD.depth s) (hd v))
    by lia.
  simpl. destruct (dep (hd u) <? dep (hd v)) eqn:Ed.
  - apply Z.ltb_lt in Ed.
    rewrite (cget_vget (HLD.head s) v) by lia. simpl.
    rewrite (cget_vget (HLD.parent s) (hd v)) by lia. simpl.
    apply IH; [|done]. apply (jump_valid v u); [done..|lia].
  - apply Z.ltb_ge in Ed.
    rewrite (cget_vget (HLD.head s) u) by lia. simpl.
    rewrite (cget_vget (HLD.parent s) (hd u)) by lia. simpl.
    apply IH; [|done]. by apply (jump_valid u v).
Qed.

Lemma safe_seg_query l r :
  Safe.query (HLD.seg_tree s) l r = SegmentTree.query (HLD.seg_tree s) l r.
Proof.
  destruct st_seg as (a & Hok).
  destruct (safe_query _ a l r Hok) as (q & -> & ->). done.
Qed.

Lemma safe_query_path_loop fuel :
  ∀ u v res, 0 <= u < n → 0 <= v < n →
    Safe.query_path_loop fuel s u v res = HLD.query_path_loop fuel s u v res.
Proof.
  destruct st_lens as (L1 & L2 & L3 & L4 & L5).
  induction fuel as [|f IH]; intros u v res Hu Hv; [done|]. simpl.
  destruct (head_facts _ _ _ _ _ Hvalid s Hreach u Hu) as (Hhu & _).
  destruct (head_facts _ _ _ _ _ Hvalid s Hreach v Hv) as (Hhv & _).
  rewrite (cget_vget (HLD.head s) u), (cget_vget (HLD.head s) v) by lia.
  rewrite (cget_vget (HLD.depth s) u), (cget_vget (HLD.depth s) v) by lia.
  simpl. destruct (hd u =? hd v) eqn:E; simpl.
  - destruct (dep u >? dep v);
      rewrite (cget_vget (HLD.pos s) u), (cget_vget (HLD.pos s) v) by lia;
      simpl; by rewrite safe_seg_query.
  - apply Z.eqb_neq in E.
    rewrite (cget_vget (HLD.depth s) (hd u)),
      (cget_vget (HLD.depth s) (hd v)) by lia.
    simpl. destruct (dep (hd u) <? dep (hd v)) eqn:Ed.
    + apply Z.ltb_lt in Ed.
      rewrite (cget_vget (HLD.head s) v) by lia. simpl.
      rewrite (cget_vget (HLD.pos s) (hd v)), (cget_vget (HLD.pos s) v),
        (cget_vget (HLD.parent s) (hd v)) by lia.
      simpl. rewrite safe_seg_query.
      destruct (SegmentTree.query _ _ _) as [q|]; [|done]. simpl.
      apply IH; [|done]. apply (jump_valid v u); [done..|lia].
    + apply Z.ltb_ge in Ed.
      rewrite (cget_vget (HLD.head s) u) by lia. simpl.
      rewrite (cget_vget (HLD.pos s) (hd u)), (cget_vget (HLD.pos s) u),
        (cget_vget (HLD.parent s) (hd u)) by lia.
      simpl. rewrite safe_seg_query.
      destruct (SegmentTree.query _ _ _) as [q|]; [|done]. simpl.
      apply IH; [|done]. by apply (jump_valid u v).
Qed.

Lemma safe_update_node_value u x :
  0 <= u < n →
  Safe.update_node_value s u x = HLD.update_node_value s u x.
Proof.
  intros Hu. destruct st_lens as (L1 & L2 & L3 & L4 & L5).
  destruct st_seg as (a & Hok).
  unfold Safe.update_node_value, HLD.update_node_value.
  rewrite cset_vset by lia. simpl.
  rewrite cget_vget by lia. simpl.
  by rewrite (safe_update _ a).
Qed.

Lemma safe_queries u v x :
  0 <= u < n → 0 <= v < n → Int.in_range x →
  ∃ q w s',
    Safe.query_path s u v = Some q ∧ HLD.query_path s u v = Some q
    ∧ Safe.get_lca s u v = Some w ∧ HLD.get_lca s u v = Some w
    ∧ Safe.update_node_value s u x = Some s'
    ∧ HLD.update_node_value s u x = Some s'.
Proof.
  intros Hu Hv Hx.
  pose proof (st_inv _ _ _ _ _ Hvalid s Hreach) as Hinv.
  assert (in_tree s u) as Hou by by apply (st_ok_iff _ _ _ _ _ Hvalid s).
  assert (in_tree s v) as Hov by by apply (st_ok_iff _ _ _ _ _ Hvalid s).
  destruct (meet_exists _ _ _ Hinv u v Hou Hov) as (a & b & Hm).
  destruct (update_inv _ _ _ _ s u x Hinv Hou Hx) as (s' & Hup & _).
  eexists _, _, s'.
  unfold Safe.query_path, Safe.get_lca.
  rewrite safe_query_path_loop, safe_get_lca_loop by done.
  rewrite safe_update_node_value by done.
  split; [by apply (query_path_meet _ _ _ Hinv u v a b)|].
  split; [by apply (query_path_meet _ _ _ Hinv u v a b)|].
  split; [by apply (get_lca_meet _ _ _ Hinv u v a b)|].
  split; [by apply (get_lca_meet _ _ _ Hinv u v a b)|]. done.
Qed.
End checked.

(** X18: on a built valid tree [query_path], [get_lca] and
    [update_node_value] index inside the vectors only: with every access
    to [head], [depth], [parent], [pos], [values] and the segment tree
    checked, they return, and return what they return unchecked. *)
Theorem queries_in_bounds n vals es root t s u v x :
  valid_input n vals es root t → reachable n vals es root s →
  0 <= u < n → 0 <= v < n → Int.in_range x →
  ∃ q w s',
    Safe.query_path s u v = Some q ∧ HLD.query_path s u v = Some q
    ∧ Safe.get_lca s u v = Some w ∧ HLD.get_lca s u v = Some w
    ∧ Safe.update_node_value s u x = Some s'
    ∧ HLD.update_node_value s u x = Some s'.
Proof.
  intros Hvalid Hr Hu Hv Hx. by apply (safe_queries _ _ _ _ _ Hvalid s Hr).
Qed.

Lemma queries_in_bounds_witness :
  ∃ q w s',
    Safe.query_path ex_state 4 6 = Some q
    ∧ HLD.query_path ex_state 4 6 = Some q
    ∧ Safe.get_lca ex_state 4 6 = Some w ∧ HLD.get_lca ex_state 4 6 = Some w
    ∧ Safe.update_node_value ex_state 4 100 = Some s'
    ∧ HLD.update_node_value ex_state 4 100 = Some s'.
Proof.
  apply (queries_in_bounds 7 ex_vals ex_edges 1 ex_tree ex_state 4 6 100).
  - exact ex_valid.
  - exact ex_reachable.
  - lia.
  - lia.
  - unfold Int.in_range, Int.min_int, Int.max_int. lia.
Defined.

(** ** [build], checked *)

Lemma safe_fill (pos vals : list Z) (m : Z) (l : list Z) :
  ∀ acc,
    zlen acc = m →
    (∀ i, i ∈ l → 0 <= i < zlen pos ∧ 0 <= i < zlen vals
                  ∧ 0 <= vget pos i < m) →
    foldl (λ acc i, a ← acc; p ← cget pos i; x ← cget vals i; cset a p x)
          (Some acc) l
    = Some (foldl (λ acc i, vset acc (vget pos i) (vget vals i)) acc l).
Proof.
  induction l as [|i l IH]; intros acc Hacc Hl; [done|]. simpl.
  destruct (Hl i) as (H1 & H2 & H3); [by apply elem_of_cons; left|].
  rewrite (cget_vget pos), (cget_vget vals) by lia. simpl.
  rewrite cset_vset by lia. apply IH.
  - by rewrite zlen_vset.
  - intros j Hj. apply Hl. by apply elem_of_cons; right.
Qed.

Lemma zlen_fill (pos vals : list Z) (l : list Z) :
  ∀ acc, zlen (foldl (λ acc i, vset acc (vget pos i) (vget vals i)) acc l)
         = zlen acc.
Proof.
  induction l as [|i l IH]; intros acc; [done|]. simpl.
  by rewrite IH, zlen_vset.
Qed.

Section checked_build.
Context (n : Z) (vals : list Z) (es : list (Z * Z)) (root : Z) (t : rtree).
Hypothesis Hvalid : valid_input n vals es root t.

Lemma safe_build_hld :
  ∃ s, Safe.build (initial n vals es) root = Some s
     ∧ HLD.build (initial n vals es) root = Some s.
Proof.
  destruct (valid_size _ _ _ _ _ Hvalid) as [Hn Hroot].
  pose proof (initial_pass_ok _ _ _ _ _ Hvalid) as Hok0.
  destruct (initial_lens n vals es) as (_ & _ & Hseg & HN & _); [lia|].
  destruct (build_result _ _ _ _ _ Hvalid) as (s & a & Hb & _).
  destruct (build_inv _ _ _ _ _ Hvalid s Hb) as (HNs & _ & _ & _ & Hinv).
  exists s. split; [|done].
  rewrite <- Hb. unfold Safe.build, HLD.build in *. rewrite HN in *.
  rewrite (safe_dfs1 n) by done.
  destruct (HLD.dfs1_size_depth_parent _ _ _ _ _) as [s1|] eqn:E1; [|done].
  simpl in *.
  pose proof (dfs1_ok_keep n _ _ _ _ _ _ E1 Hok0 Hroot) as Hok1.
  rewrite (safe_dfs2 n) by done.
  destruct (HLD.dfs2_hld _ _ _ _) as [s2|] eqn:E2; [|done]. simpl in *.
  pose proof (dfs2_ok_keep n _ _ _ _ _ E2 Hok1) as Hok2.
  pose proof (pass_ok_lens _ _ Hok2) as (_ & _ & _ & _ & _ & L6 & _).
  apply dfs1_frame in E1 as [F1 _]. apply dfs2_frame in E2 as [F2 _].
  unfold rest1 in F1. unfold rest2 in F2.
  injection F1 as A1 _ A3 _ _ _ A7. injection F2 as B1 _ B3 _ _ _ _ B8.
  assert (HLD.N s2 = n) as HN2 by congruence.
  assert (HLD.seg_tree s2 = SegmentTree.new n) as Hseg2 by congruence.
  destruct (SegmentTree.build_from_mapped_values _ _) as [st|] eqn:E3;
    [|done].
  simpl in Hb. injection Hb as <-.
  pose proof (inv_values_len _ _ _ Hinv) as Lv. simpl in Lv, HNs.
  assert (Safe.values_for_seg_tree s2 = Some (HLD.values_for_seg_tree s2))
    as ->.
  { unfold Safe.values_for_seg_tree, HLD.values_for_seg_tree.
    apply (safe_fill _ _ n).
    - rewrite HN2. apply zlen_replicate. lia.
    - intros i Hi. apply elem_of_seqZ in Hi.
      pose proof (inv_pos_range _ _ _ Hinv i) as Hp.
      unfold in_tree in Hp. simpl in Hp. lia. }
  simpl. rewrite safe_build, E3; [done | | |].
  - rewrite Hseg2. simpl. lia.
  - rewrite Hseg2. simpl. apply zlen_replicate. lia.
  - rewrite Hseg2. simpl. unfold HLD.values_for_seg_tree.
    rewrite zlen_fill, HN2. apply zlen_replicate. lia.
Qed.
End checked_build.

(** X19: on a valid input [build] indexes inside the vectors only: with
    every access of the two passes, of the loop that fills
    [values_for_seg_tree] and of the segment tree checked, it returns,
    and returns what it returns unchecked. *)
Theorem build_in_bounds n vals es root t :
  valid_input n vals es root t →
  ∃ s, Safe.build (initial n vals es) root = Some s
     ∧ HLD.build (initial n vals es) root = Some s.
Proof. apply safe_build_hld. Qed.

Lemma build_in_bounds_witness :
  ∃ s, Safe.build (initial 7 ex_vals ex_edges) 1 = Some s
     ∧ HLD.build (initial 7 ex_vals ex_edges) 1 = Some s.
Proof.
  apply (build_in_bounds 7 ex_vals ex_edges 1 ex_tree). exact ex_valid.
Defined.

(** * Sequences of updates *)

Lemma update_arrays s u x s' :
  HLD.update_node_value s u x = Some s' →
  HLD.N s' = HLD.N s ∧ HLD.head s' = HLD.head s
  ∧ HLD.depth s' = HLD.depth s ∧ HLD.parent s' = HLD.parent s
  ∧ HLD.values s' = vset (HLD.values s) u x.
Proof.
  unfold HLD.update_node_value. intros H.
  destruct (SegmentTree.update _ _ _) as [st|]; [|done].
  simpl in H. by injection H as <-.
Qed.

Lemma get_lca_loop_ext fuel s s' :
  HLD.head s' = HLD.head s → HLD.depth s' = HLD.depth s →
  HLD.parent s' = HLD.parent s →
  ∀ u v, HLD.get_lca_loop fuel s' u v = HLD.get_lca_loop fuel s u v.
Proof.
  intros Hh Hd Hp. induction fuel as [|f IH]; intros u v; [done|].
  simpl. rewrite Hh, Hd, Hp.
  destruct (negb _); [|done]. by destruct (_ <? _).
Qed.

Section sequences.
Context (n : Z) (vals : list Z) (es : list (Z * Z)) (root : Z) (t : rtree).
Hypothesis Hvalid : valid_input n vals es root t.

Lemma run_node_updates_ok us :
  ∀ s, reachable n vals es root s →
    Forall (λ u, 0 <= u.1 < n ∧ Int.in_range u.2) us →
    ∃ s', run_node_updates s us = Some s'
        ∧ reachable n vals es root s'
        ∧ HLD.values s' = written (HLD.values s) us
        ∧ ∀ u v, HLD.get_lca s' u v = HLD.get_lca s u v.
Proof.
  induction us as [|w us IH]; intros s Hr Hus.
  - by exists s.
  - apply Forall_cons in Hus as [[Hw Hx] Hus].
    destruct (reachable_inv _ _ _ _ _ Hvalid s Hr) as [HN Hinv].
    destruct (update_inv _ _ _ _ s w.1 w.2 Hinv) as (s1 & Hup & _);
      [unfold in_tree; lia | done |].
    assert (reachable n vals es root s1) as Hr1.
    { by apply (reach_update _ _ _ _ s w.1 w.2). }
    destruct (update_arrays _ _ _ _ Hup) as (EN & Eh & Ed & Ep & Ev).
    destruct (IH s1 Hr1 Hus) as (s' & Hrun & Hr' & Hv' & Hl').
    exists s'. simpl. rewrite Hup. simpl. split; [done|]. split; [done|].
    split.
    + by rewrite Hv', Ev.
    + intros u v. rewrite Hl'. unfold HLD.get_lca, HLD.loop_fuel.
      rewrite EN. by apply get_lca_loop_ext.
Qed.

Lemma sequence_model us :
  Forall (λ u, 0 <= u.1 < n ∧ Int.in_range u.2) us →
  ∃ s0 s,
    HLD.build (initial n vals es) root = Some s0
    ∧ run_node_updates s0 us = Some s
    ∧ HLD.values s = written vals us
    ∧ (∀ u v, 0 <= u < n → 0 <= v < n →
         ∃ l, simple_path (HLD.adj s0) u v l
            ∧ HLD.query_path s u v
              = Some (Int.wrap (path_sum (written vals us) l)))
    ∧ (∀ u v, HLD.get_lca s u v = HLD.get_lca s0 u v).
Proof.
  intros Hus.
  destruct (build_result _ _ _ _ _ Hvalid) as (s0 & a & Hb & _ & _ & Hv0 & _).
  assert (reachable n vals es root s0) as Hr0 by by apply reach_build.
  destruct (run_node_updates_ok us s0 Hr0 Hus) as (s & Hrun & Hr & Hv & Hl).
  exists s0, s. split; [done|]. split; [done|].
  rewrite Hv0 in Hv. split; [done|]. split; [|done].
  intros u v Hu Hv'.
  destruct (reachable_inv _ _ _ _ _ Hvalid s Hr) as [HN Hinv].
  destruct (simple_path_unique _ _ _ Hinv) with (u := u) (v := v)
    as (l & Hpath & _ & Hq).
  - intros x y _ _. apply initial_symmetric, Hvalid.
  - unfold in_tree. lia.
  - unfold in_tree. lia.
  - exists l. rewrite (reachable_adj _ _ _ _ _ Hvalid s0 Hr0).
    split; [done|]. by rewrite Hq, Hv.
Qed.
End sequences.

(** X20: the object behaves like the vector of values.  After [build] on
    a valid input and any sequence of [update_node_value] calls on nodes
    with [int] values, [values] is the initial vector with the updates
    written to it in order, [query_path u v] is the sum over the path
    from [u] to [v] of that vector, in [int] arithmetic, and [get_lca]
    returns what it returned before the updates. *)
Theorem update_sequence_model n vals es root t us :
  valid_input n vals es root t →
  Forall (λ u, 0 <= u.1 < n ∧ Int.in_range u.2) us →
  ∃ s0 s,
    HLD.build (initial n vals es) root = Some s0
    ∧ run_node_updates s0 us = Some s
    ∧ HLD.values s = written vals us
    ∧ (∀ u v, 0 <= u < n → 0 <= v < n →
         ∃ l, simple_path (HLD.adj s0) u v l
            ∧ HLD.query_path s u v
              = Some (Int.wrap (path_sum (written vals us) l)))
    ∧ (∀ u v, HLD.get_lca s u v = HLD.get_lca s0 u v).
Proof. intros Hvalid. by apply (sequence_model _ _ _ _ t). Qed.

Lemma update_sequence_model_witness :
  ∃ s0 s,
    HLD.build (initial 7 ex_vals ex_edges) 1 = Some s0
    ∧ run_node_updates s0 [(1, 100); (6, 70)] = Some s
    ∧ HLD.values s = written ex_vals [(1, 100); (6, 70)]
    ∧ (∀ u v, 0 <= u < 7 → 0 <= v < 7 →
         ∃ l, simple_path (HLD.adj s0) u v l
            ∧ HLD.query_path s u v
              = Some (Int.wrap (path_sum (written ex_vals [(1, 100); (6, 70)])
                                  l)))
    ∧ (∀ u v, HLD.get_lca s u v = HLD.get_lca s0 u v).
Proof.
  apply (update_sequence_model 7 ex_vals ex_edges 1 ex_tree
           [(1, 100); (6, 70)]).
  - exact ex_valid.
  - unfold Int.in_range, Int.min_int, Int.max_int.
    repeat constructor; simpl; lia.
Defined.

(** * Bounds and order of the arrays *)

Section bounds.
Context (n : Z) (vals : list Z) (es : list (Z * Z)) (root : Z) (t : rtree).
Hypothesis Hvalid : valid_input n vals es root t.
Context (s : HLD.t).
Hypothesis Hreach : reachable n vals es root s.

Local Abbreviation par := (vget (HLD.parent s)).
Local Abbreviation dep := (vget (HLD.depth s)).
Local Abbreviation ps := (vget (HLD.pos s)).
Local Abbreviation sz := (vget (HLD.subtree_size s)).

Lemma root_facts : sz root = n ∧ ps root = 0.
Proof.
  pose proof (st_laid _ _ _ _ _ Hvalid s Hreach) as Hl.
  destruct (valid_size _ _ _ _ _ Hvalid) as [Hn _].
  destruct Hvalid as [_ _ _ Ht].
  destruct (valid_tree_nodes _ _ _ _ Ht) as (_ & Hsz & _).
  destruct Ht as (Hroot & _). destruct t as [r ks].
  simpl in Hroot. subst r.
  destruct (laid_views _ _ _ _ Hl) as (H1 & H2 & _).
  unfold view1 in H1. unfold view2 in H2.
  injection H1 as _ _ E _. injection H2 as _ E'.
  rewrite E, E', Hsz. simpl. lia.
Qed.

Lemma kid_order x :
  0 <= x < n → x ≠ root →
  0 <= par x < n ∧ ps (par x) < ps x < ps (par x) + sz (par x)
  ∧ sz x < sz (par x).
Proof.
  intros Hx Hne. pose proof (st_inv _ _ _ _ _ Hvalid s Hreach) as Hinv.
  assert (in_tree s x) as Hox by by apply (st_ok_iff _ _ _ _ _ Hvalid s).
  destruct (inv_parent _ _ _ Hinv x Hox) as [?|[Hop Hd]]; [done|].
  pose proof Hop as Hp. apply (st_ok_iff _ _ _ _ _ Hvalid s Hreach) in Hp.
  split; [done|].
  destruct (kid_facts _ _ _ _ _ Hvalid s Hreach x Hx Hne) as [Hlt _].
  split; [|done].
  destruct (node_laid _ _ _ _ _ Hvalid s Hreach _ Hp)
    as (c & ks & Hl & Hsub & _ & _ & Esz & _ & _ & Eps & _).
  assert (x ∈ nodes (RNode (par x) ks)) as Hin.
  { apply (subtree_nodes _ _ _ _ _ Hvalid s Hreach _ ks c x Hl Hp Hx).
    apply (ancestor_iff _ _ _ Hinv _ x Hox). exists 1%nat.
    pose proof (inv_depth _ _ _ Hinv _ Hop). split; [lia | done]. }
  apply (subtree_pos _ _ _ _ _ Hvalid s Hreach _ ks c x Hl Hsub Hx) in Hin.
  rewrite Esz, Eps.
  assert (ps x ≠ ps (par x)) as Hnp.
  { intros E. apply (inv_pos_inj _ _ _ Hinv) in E; [|done..].
    rewrite <- E in Hd. lia. }
  lia.
Qed.
End bounds.

(** X21: in every state of a built valid tree the subtree of the root
    has all [N] nodes and the root has position 0; every subtree size
    lies in [1 .. N] and every depth in [0 .. N-1]; and a node other than
    the root has a parent in the tree, a position after that of its
    parent and inside the block of its parent, and a smaller subtree. *)
Theorem array_bounds n vals es root t s u :
  valid_input n vals es root t → reachable n vals es root s →
  0 <= u < n →
  vget (HLD.subtree_size s) root = n ∧ vget (HLD.pos s) root = 0
  ∧ 1 <= vget (HLD.subtree_size s) u <= n
  ∧ 0 <= vget (HLD.depth s) u < n
  ∧ (u ≠ root →
     0 <= vget (HLD.parent s) u < n
     ∧ vget (HLD.pos s) (vget (HLD.parent s) u) < vget (HLD.pos s) u
       < vget (HLD.pos s) (vget (HLD.parent s) u)
         + vget (HLD.subtree_size s) (vget (HLD.parent s) u)
     ∧ vget (HLD.subtree_size s) u
       < vget (HLD.subtree_size s) (vget (HLD.parent s) u)).
Proof.
  intros Hvalid Hr Hu.
  destruct (root_facts _ _ _ _ _ Hvalid s Hr) as [E1 E2].
  split; [done|]. split; [done|].
  split; [by apply (size_range _ _ _ _ _ Hvalid s Hr)|].
  split.
  - pose proof (st_inv _ _ _ _ _ Hvalid s Hr) as Hinv.
    pose proof (inv_depth _ _ _ Hinv u) as Hd. unfold in_tree in Hd.
    rewrite (st_N _ _ _ _ _ Hvalid s Hr) in Hd. by apply Hd.
  - intros Hne. by apply (kid_order _ _ _ _ _ Hvalid s Hr).
Qed.

Lemma array_bounds_witness :
  vget (HLD.subtree_size ex_state) 1 = 7 ∧ vget (HLD.pos ex_state) 1 = 0
  ∧ 1 <= vget (HLD.subtree_size ex_state) 5 <= 7
  ∧ 0 <= vget (HLD.depth ex_state) 5 < 7
  ∧ (5 ≠ 1 →
     0 <= vget (HLD.parent ex_state) 5 < 7
     ∧ vget (HLD.pos ex_state) (vget (HLD.parent ex_state) 5)
       < vget (HLD.pos ex_state) 5
       < vget (HLD.pos ex_state) (vget (HLD.parent ex_state) 5)
         + vget (HLD.subtree_size ex_state) (vget (HLD.parent ex_state) 5)
     ∧ vget (HLD.subtree_size ex_state) 5
       < vget (HLD.subtree_size ex_state) (vget (HLD.parent ex_state) 5)).
Proof.
  apply (array_bounds 7 ex_vals ex_edges 1 ex_tree ex_state 5).
  - exact ex_valid.
  - exact ex_reachable.
  - lia.
Defined.

(** * Graphs that are not connected *)

Lemma fill_ints (pos vals : list Z) (l : list Z) :
  ∀ acc, ints acc → ints vals →
    ints (foldl (λ acc i, vset acc (vget pos i) (vget vals i)) acc l).
Proof.
  induction l as [|i l IH]; intros acc Ha Hv; [done|]. simpl.
  apply IH; [|done]. by apply ints_vset.
Qed.

Lemma ints_replicate k : ints (replicate k 0).
Proof.
  intros i. unfold vget. case_decide; [|done].
  destruct (replicate _ _ !! _) eqn:E; [|done].
  apply lookup_replicate in E as [-> _]. done.
Qed.

Lemma tsize_le_range n t :
  NoDup (nodes t) → (∀ x, x ∈ nodes t → 0 <= x < n) → tsize t <= Z.max 0 n.
Proof.
  intros Hnd Hrg.
  assert (nodes t ⊆ seqZ 0 n) as Hsub.
  { intros x Hx. apply elem_of_seqZ. apply Hrg in Hx. lia. }
  pose proof (submseteq_length _ _ (NoDup_submseteq _ _ Hnd Hsub)) as Hle.
  rewrite length_seqZ in Hle. unfold tsize, zlen. lia.
Qed.

Lemma build_part n vals es root t :
  zlen vals = n → Forall Int.in_range vals →
  rid t = root → shape (HLD.adj (initial n vals es)) (-1) t →
  NoDup (nodes t) → (∀ x, x ∈ nodes t → 0 <= x < n) →
  ∃ s, HLD.build (initial n vals es) root = Some s
     ∧ (∀ x, 0 <= x < n → x ∉ nodes t →
          vget (HLD.pos s) x = 0 ∧ vget (HLD.head s) x = 0
          ∧ vget (HLD.parent s) x = -1 ∧ vget (HLD.depth s) x = 0
          ∧ vget (HLD.subtree_size s) x = 1)
     ∧ vget (HLD.pos s) root = 0
     ∧ (n - 1 ∉ nodes t →
        HLD.query_path s root root = Some (vget vals (n - 1))).
Proof.
  intros Hvl Hvi Hroot Hsh Hnd Hrg.
  assert (1 <= n) as Hn.
  { pose proof (Hrg _ (rid_in_nodes t)). lia. }
  pose proof (tsize_le_range n t Hnd Hrg) as Hsz.
  pose proof (Forall_ints _ Hvi) as Hints.
  unfold initial in *. set (s0 := add_edges (HLD.new n vals) es) in *.
  assert (Hcore : core s0 = core (HLD.new n vals)) by apply add_edges_core.
  clearbody s0. unfold core in Hcore. simpl in Hcore.
  injection Hcore as HN Hval Hpar Hdep Hsiz Hhvy Hhd Hps Hcp Hsg.
  destruct (dfs1_spec n t (Z.to_nat n)) with (p := -1) (d := 0) (s := s0)
    as (s1 & Hrun1 & Hst1 & Hp1); [lia | done | done | done | | |].
  { unfold lens1. rewrite Hpar, Hdep, Hsiz, Hhvy.
    by rewrite !zlen_replicate by lia. }
  { intros x Hx. rewrite Hhvy. apply vget_replicate. apply Hrg in Hx. lia. }
  rewrite Hroot in Hrun1.
  destruct Hst1 as (Hr1 & Hl1 & Hv1). unfold rest1 in Hr1.
  injection Hr1 as HN1 Hadj1 Hval1 Hhd1 Hps1 Hcp1 Hsg1.
  destruct (dfs2_spec n t (Z.to_nat n)) with (p := -1) (d := 0) (h := root)
    (s := s1) as (s2 & Hrun2 & Hst2 & Hc2 & Hp2);
    [lia | by rewrite Hadj1 | done | done | done | |].
  { unfold lens2. rewrite Hhd1, Hps1, Hhd, Hps.
    by rewrite !zlen_replicate by lia. }
  rewrite Hroot in Hrun2.
  pose proof Hst2 as (Hr2 & Hl2 & Hv2). unfold rest2 in Hr2.
  injection Hr2 as HN2 Hadj2 Hval2 Hpar2 Hdep2 Hsiz2 Hhvy2 Hsg2.
  rewrite Hcp1, Hcp in Hp2.
  set (a := HLD.values_for_seg_tree s2).
  assert (zlen a = n) as Hla.
  { unfold a, HLD.values_for_seg_tree. rewrite zlen_fill, HN2, HN1, HN.
    apply zlen_replicate. lia. }
  assert (ints a) as Hia.
  { unfold a, HLD.values_for_seg_tree. apply fill_ints.
    - apply ints_replicate.
    - by rewrite Hval2, Hval1, Hval. }
  destruct (build_from_mapped_values_ok (HLD.seg_tree s2) a)
    as (st & Hrun3 & Hstn & Hstok).
  { by rewrite Hsg2, Hsg1, Hsg. }
  { rewrite Hsg2, Hsg1, Hsg. simpl. rewrite zlen_replicate by lia. done. }
  { by rewrite Hsg2, Hsg1, Hsg. }
  { done. }
  assert (Hout : ∀ x, 0 <= x < n → x ∉ nodes t →
            view1 s2 x = (-1, 0, 1, -1) ∧ view2 s2 x = (0, 0)).
  { intros x Hx Hnin. split.
    - unfold view1. rewrite Hpar2, Hdep2, Hsiz2, Hhvy2.
      fold (view1 s1 x). rewrite (Hv1 x Hnin). unfold view1.
      rewrite Hpar, Hdep, Hsiz, Hhvy. by rewrite !vget_replicate by lia.
    - rewrite (Hv2 x Hnin). unfold view2. rewrite Hhd1, Hps1, Hhd, Hps.
      by rewrite !vget_replicate by lia. }
  assert (vget (HLD.pos s2) root = 0) as Hproot.
  { destruct t as [r ks]. simpl in Hroot. subst r.
    inversion Hp2 as [? ? ? ? Hv _]; subst. unfold view2 in Hv.
    by injection Hv as _ E. }
  exists (HLD.with_seg_tree s2 st). split.
  { unfold HLD.build. rewrite HN, Hrun1. simpl. rewrite Hrun2. simpl.
    fold a. by rewrite Hrun3. }
  simpl. split; [|split; [done|]].
  { intros x Hx Hnin. destruct (Hout x Hx Hnin) as [H1 H2].
    unfold view1 in H1. unfold view2 in H2.
    injection H1 as E1 E2 E3 _. by injection H2 as E4 E5. }
  intros Hlast.
  destruct (Hout (n - 1)) as [_ H2]; [lia | done |].
  unfold view2 in H2. injection H2 as _ Eps.
  assert (vget a 0 = vget vals (n - 1)) as Ha0.
  { unfold a, HLD.values_for_seg_tree. rewrite HN2, HN1, HN.
    replace n with (n - 1 + 1) at 2 by lia.
    rewrite seqZ_app by lia. rewrite foldl_app. simpl.
    replace (Z.of_nat 0 + (0 + (n - 1))) with (n - 1) by lia.
    rewrite Eps, Hval2, Hval1, Hval.
    apply vget_vset_eq. rewrite zlen_fill. rewrite zlen_replicate; lia. }
  unfold HLD.query_path, HLD.loop_fuel. simpl.
  rewrite Z.eqb_refl. simpl. rewrite Z.gtb_ltb, Z.ltb_irrefl, Hproot.
  rewrite (query_ok st a 0 0 Hstok)
    by (rewrite ?Hstn, ?Hsg2, ?Hsg1, ?Hsg; simpl; lia).
  simpl. rewrite rsum_one, Ha0.
  rewrite (wrap_in_range (vget vals (n - 1))) by apply Hints.
  rewrite Z.add_0_l. by rewrite wrap_in_range by apply Hints.
Qed.

(** X22: [build] does not notice a graph that is not connected.  If the
    part that can be reached from the root is a tree, [build] returns;
    every node outside that part keeps the entries of the constructor,
    among them position 0, which is the position of the root; and when
    the last node [N - 1] is outside, [query_path (root, root)] returns
    the value of node [N - 1]. *)
Theorem build_on_disconnected n vals es root t :
  zlen vals = n → Forall Int.in_range vals →
  rid t = root → shape (HLD.adj (initial n vals es)) (-1) t →
  NoDup (nodes t) → (∀ x, x ∈ nodes t → 0 <= x < n) →
  ∃ s, HLD.build (initial n vals es) root = Some s
     ∧ (∀ x, 0 <= x < n → x ∉ nodes t →
          vget (HLD.pos s) x = 0 ∧ vget (HLD.head s) x = 0
          ∧ vget (HLD.parent s) x = -1 ∧ vget (HLD.depth s) x = 0
          ∧ vget (HLD.subtree_size s) x = 1)
     ∧ vget (HLD.pos s) root = 0
     ∧ (n - 1 ∉ nodes t →
        HLD.query_path s root root = Some (vget vals (n - 1))).
Proof. apply build_part. Qed.

Lemma build_on_disconnected_witness :
  ∃ s, HLD.build split_graph 0 = Some s
     ∧ (∀ x, 0 <= x < 3 → x ∉ nodes split_tree →
          vget (HLD.pos s) x = 0 ∧ vget (HLD.head s) x = 0
          ∧ vget (HLD.parent s) x = -1 ∧ vget (HLD.depth s) x = 0
          ∧ vget (HLD.subtree_size s) x = 1)
     ∧ vget (HLD.pos s) 0 = 0
     ∧ (3 - 1 ∉ nodes split_tree →
        HLD.query_path s 0 0 = Some (vget [1; 2; 3] (3 - 1))).
Proof.
  apply (build_on_disconnected 3 [1; 2; 3] [(0, 1)] 0 split_tree).
  - reflexivity.
  - unfold Int.in_range, Int.min_int, Int.max_int. repeat constructor; lia.
  - reflexivity.
  - repeat (constructor; [reflexivity|]); repeat constructor.
  - compute_done.
  - intros x Hx. simpl in Hx.
    apply elem_of_cons in Hx as [->|Hx]; [lia|].
    apply list_elem_of_singleton in Hx. lia.
Defined.
